(** * Depthwise conv2d lowering (torch/csrc/jit/tensorexpr/operators/conv2d.cpp)

    A shallow embedding of the tensor-expression lowering of depthwise
    2-D convolution: the support oracle [conv2dIsSupported], the masked
    reduction builders [conv2d_depthwise_static] / [conv2d_depthwise_dynamic],
    the loop specialization applied by the static builder, and the dispatcher
    [computeConv2d].

    The file is organised as definitions first (machine numbers, the IR and
    its denotation, the loop-nest primitives, then the functions of
    conv2d.cpp in source order) followed by the lemmas and theorems. *)

From Stdlib Require Import ZArith List String Bool Lia.
From Stdlib Require Import Floats.SpecFloat.
Import ListNotations.
Open Scope string_scope.
Open Scope list_scope.
Open Scope Z_scope.

Set Warnings "-register-all".

(* ===================================================================== *)
(** * Machine numbers *)
(* ===================================================================== *)

(** Two's-complement wrap-around of a [bits]-bit signed integer. *)
Definition wrap (bits : Z) (z : Z) : Z :=
  (z + 2 ^ (bits - 1)) mod 2 ^ bits - 2 ^ (bits - 1).

Definition wrap32 : Z -> Z := wrap 32.
Definition wrap64 : Z -> Z := wrap 64.

Definition in_int32 (z : Z) : Prop := - 2 ^ 31 <= z < 2 ^ 31.
Definition in_int64 (z : Z) : Prop := - 2 ^ 63 <= z < 2 ^ 63.

(** C++ [int] arithmetic as the static builder uses it.  Signed overflow,
    which C++ leaves undefined, is modelled as the wrap-around the hardware
    performs. *)
Definition add32 (a b : Z) : Z := wrap32 (a + b).
Definition sub32 (a b : Z) : Z := wrap32 (a - b).
Definition mul32 (a b : Z) : Z := wrap32 (a * b).

(** Signed division on [bits] bits has a result unless the divisor is zero
    or the quotient is not representable: the least integer divided by -1
    (on the usual hardware both cases trap). *)
Definition quot_defined (bits : Z) (a b : Z) : bool :=
  negb (b =? 0) && negb ((a =? - 2 ^ (bits - 1)) && (b =? -1)).

(** C++ [a / b] on [int]: the quotient rounds toward zero ([Z.quot]); a zero
    divisor and [INT_MIN / -1] have no defined result. *)
Definition div32 (a b : Z) : option Z :=
  if quot_defined 32 a b then Some (wrap32 (Z.quot a b)) else None.

(** Single-precision floats: IEEE-754 binary32 is [spec_float] at precision
    24 with infinities at exponent 128. *)
Definition float32 : Type := spec_float.
Definition f32_zero : float32 := S754_zero false.
Definition f32_add : float32 -> float32 -> float32 := SFadd 24 128.
Definition f32_sub : float32 -> float32 -> float32 := SFsub 24 128.
Definition f32_mul : float32 -> float32 -> float32 := SFmul 24 128.
Definition f32_div : float32 -> float32 -> float32 := SFdiv 24 128.
Definition f32_of_Z (z : Z) : float32 := binary_normalize 24 128 z 0 false.

Definition f32_is_zero (x : float32) : bool :=
  match x with S754_zero _ => true | _ => false end.

Definition f32_is_finite (x : float32) : bool :=
  match x with S754_zero _ | S754_finite _ _ _ => true | _ => false end.

(** Conversion of a float to an integer truncates toward zero. *)
Definition f32_trunc (x : float32) : option Z :=
  match x with
  | S754_zero _ => Some 0
  | S754_finite s m e =>
      let mag := if 0 <=? e then Z.pos m * 2 ^ e else Z.pos m / 2 ^ (- e) in
      Some (if s then - mag else mag)
  | _ => None
  end.

(* ===================================================================== *)
(** * Failure of a lowering call *)
(* ===================================================================== *)

Inductive Error : Type :=
| InternalAssert (what : string)   (* TORCH_INTERNAL_ASSERT failed *)
| BadVariantAccess                 (* c10::get on the wrong alternative *)
| Undefined (what : string).       (* no defined behaviour in C++ *)

Definition Result (A : Type) : Type := (Error + A)%type.

Definition ok {A : Type} (a : A) : Result A := inr a.
Definition fail {A : Type} (e : Error) : Result A := inl e.

Definition bind {A B : Type} (m : Result A) (k : A -> Result B) : Result B :=
  match m with
  | inl e => inl e
  | inr a => k a
  end.

Notation "x <- m ;; k" := (bind m (fun x => k))
  (at level 61, m at next level, right associativity).
Notation "m ;;; k" := (bind m (fun _ => k))
  (at level 61, right associativity).

Definition TORCH_INTERNAL_ASSERT (cond : bool) (what : string) : Result unit :=
  if cond then ok tt else fail (InternalAssert what).

Definition is_assert_failure {A : Type} (r : Result A) : bool :=
  match r with inl (InternalAssert _) => true | _ => false end.

Definition opt_bind {A B : Type} (m : option A) (k : A -> option B) : option B :=
  match m with
  | None => None
  | Some a => k a
  end.

Notation "x <-? m ;; k" := (opt_bind m (fun x => k))
  (at level 61, m at next level, right associativity).

(* ===================================================================== *)
(** * The tensor-expression IR *)
(* ===================================================================== *)

(** Element types ([c10::ScalarType]); the oracle only distinguishes [Float]
    from the rest. *)
Inductive ScalarType : Type :=
| Byte | Char | Short | Int | Long | Half | Float | Double | Bool.

Definition ScalarType_eqb (a b : ScalarType) : bool :=
  match a, b with
  | Byte, Byte | Char, Char | Short, Short | Int, Int | Long, Long
  | Half, Half | Float, Float | Double, Double | Bool, Bool => true
  | _, _ => false
  end.

Inductive CompareSelectOperation : Type :=
| kEQ | kGT | kGE | kLT | kLE | kNE.

(** Expressions.  Variables and buffers are referred to by name; a
    [ReduceOp] marks the accumulating update of a reduction. *)
Inductive Expr : Type :=
| IntImm (v : Z)
| LongImm (v : Z)
| FloatImm (v : float32)
| Var (name : string)
| Cast (dtype : ScalarType) (e : Expr)
| Add (a b : Expr)
| Sub (a b : Expr)
| Mul (a b : Expr)
| Div (a b : Expr)
| Min (a b : Expr)
| Max (a b : Expr)
| CompareSelect (lhs rhs ret1 ret2 : Expr) (op : CompareSelectOperation)
| IfThenElse (c t f : Expr)
| Load (buf : string) (indices : list Expr)
| ReduceOp (body : Expr) (reduce_args : list string).

(** A buffer handle: name, dimensions (constant or symbolic) and dtype. *)
Record BufHandle : Type := mkBuf {
  buf_name : string;
  buf_dims : list Expr;
  buf_dtype : ScalarType
}.

Definition ndim (b : BufHandle) : Z := Z.of_nat (List.length b.(buf_dims)).
Definition dim (b : BufHandle) (i : nat) : Expr := nth i b.(buf_dims) (IntImm 0).
Definition load (b : BufHandle) (indices : list Expr) : Expr :=
  Load b.(buf_name) indices.

(** Statements: stores, range loops (whose body is a block), blocks and
    opaque calls to a pre-compiled routine. *)
Inductive Stmt : Type :=
| Store (buf : string) (indices : list Expr) (value : Expr)
| For (var : string) (start stop : Expr) (body : list Stmt)
| Block (stmts : list Stmt)
| ExternalCall (buf : BufHandle) (func_name : string)
               (buf_args : list BufHandle) (args : list Expr).

(** A named computation: an output buffer with the statement defining it. *)
Record Tensor : Type := mkTensor {
  buf : BufHandle;
  stmt : Stmt
}.

(* ===================================================================== *)
(** * Denotation of the IR *)
(* ===================================================================== *)

(** Run-time values: 32-bit and 64-bit integers and single-precision floats. *)
Inductive Value : Type :=
| VInt (z : Z)
| VLong (z : Z)
| VFloat (f : float32).

Definition Env : Type := list (string * Value).

Fixpoint lookup (env : Env) (x : string) : option Value :=
  match env with
  | [] => None
  | (y, v) :: env' => if String.eqb x y then Some v else lookup env' x
  end.

(** Buffer contents, addressed by buffer name and multi-dimensional index.
    Every buffer of this operator holds single-precision values; buffers
    are told apart by their names. *)
Definition Mem : Type := string -> list Z -> float32.

Fixpoint index_eqb (a b : list Z) : bool :=
  match a, b with
  | [], [] => true
  | x :: a', y :: b' => (x =? y) && index_eqb a' b'
  | _, _ => false
  end.

Definition mem_store (m : Mem) (b : string) (idx : list Z) (v : float32) : Mem :=
  fun b' idx' =>
    if String.eqb b b' && index_eqb idx idx' then v else m b' idx'.

Definition int_of_value (v : Value) : option Z :=
  match v with
  | VInt z | VLong z => Some z
  | VFloat _ => None
  end.

Inductive BinOp : Type := OpAdd | OpSub | OpMul | OpDiv | OpMin | OpMax.

(** Integer operations before wrap-around to the width of the operands; a
    division without a defined result at that width has no value. *)
Definition int_op (bits : Z) (op : BinOp) (x y : Z) : option Z :=
  match op with
  | OpAdd => Some (x + y)
  | OpSub => Some (x - y)
  | OpMul => Some (x * y)
  | OpDiv => if quot_defined bits x y then Some (Z.quot x y) else None
  | OpMin => Some (Z.min x y)
  | OpMax => Some (Z.max x y)
  end.

Definition f32_min (x y : float32) : float32 :=
  match SFcompare x y with
  | None => S754_nan
  | Some Gt => y
  | Some _ => x
  end.

Definition f32_max (x y : float32) : float32 :=
  match SFcompare x y with
  | None => S754_nan
  | Some Lt => y
  | Some _ => x
  end.

Definition float_op (op : BinOp) (x y : float32) : float32 :=
  match op with
  | OpAdd => f32_add x y
  | OpSub => f32_sub x y
  | OpMul => f32_mul x y
  | OpDiv => f32_div x y
  | OpMin => f32_min x y
  | OpMax => f32_max x y
  end.

(** Modelled from the spec: the arithmetic of the IR's binary nodes, which
    are declared by the IR layer.  Two 32-bit operands give a 32-bit result,
    an operand of 64 bits promotes the operation to 64 bits, two floats are
    combined in single precision (the combining operator of the reduction is
    floating-point addition). *)
Definition eval_binop (op : BinOp) (a b : Value) : option Value :=
  match a, b with
  | VInt x, VInt y => z <-? int_op 32 op x y ;; Some (VInt (wrap32 z))
  | VInt x, VLong y | VLong x, VInt y | VLong x, VLong y =>
      z <-? int_op 64 op x y ;; Some (VLong (wrap64 z))
  | VFloat x, VFloat y => Some (VFloat (float_op op x y))
  | _, _ => None
  end.

Definition cmp_holds (op : CompareSelectOperation) (c : comparison) : bool :=
  match op, c with
  | kEQ, Eq => true
  | kGT, Gt => true
  | kGE, (Gt | Eq) => true
  | kLT, Lt => true
  | kLE, (Lt | Eq) => true
  | kNE, (Lt | Gt) => true
  | _, _ => false
  end.

Definition eval_compare (op : CompareSelectOperation) (a b : Value)
  : option bool :=
  match a, b with
  | VFloat x, VFloat y =>
      Some match SFcompare x y with
           | Some c => cmp_holds op c
           | None => match op with kNE => true | _ => false end
           end
  | _, _ =>
      x <-? int_of_value a ;; y <-? int_of_value b ;;
      Some (cmp_holds op (x ?= y))
  end.

Definition cast_value (dtype : ScalarType) (v : Value) : option Value :=
  match dtype, v with
  | Int, VInt z | Int, VLong z => Some (VInt (wrap32 z))
  | Int, VFloat f => z <-? f32_trunc f ;; Some (VInt (wrap32 z))
  | Long, VInt z | Long, VLong z => Some (VLong (wrap64 z))
  | Long, VFloat f => z <-? f32_trunc f ;; Some (VLong (wrap64 z))
  | Float, VInt z | Float, VLong z => Some (VFloat (f32_of_Z z))
  | Float, VFloat f => Some (VFloat f)
  | _, _ => None
  end.

(** Modelled from the spec: the meaning of the IR's expression nodes
    (declared by the IR layer).  [CompareSelect lhs rhs ret1 ret2 op] is the
    data-dependent select [lhs op rhs ? ret1 : ret2]; [IfThenElse c t f]
    evaluates only the chosen operand; a load reads the buffer at the
    evaluated indices. *)
Fixpoint eval (env : Env) (mem : Mem) (e : Expr) {struct e} : option Value :=
  match e with
  | IntImm v => Some (VInt v)
  | LongImm v => Some (VLong v)
  | FloatImm v => Some (VFloat v)
  | Var x => lookup env x
  | Cast dt a => v <-? eval env mem a ;; cast_value dt v
  | Add a b => x <-? eval env mem a ;; y <-? eval env mem b ;; eval_binop OpAdd x y
  | Sub a b => x <-? eval env mem a ;; y <-? eval env mem b ;; eval_binop OpSub x y
  | Mul a b => x <-? eval env mem a ;; y <-? eval env mem b ;; eval_binop OpMul x y
  | Div a b => x <-? eval env mem a ;; y <-? eval env mem b ;; eval_binop OpDiv x y
  | Min a b => x <-? eval env mem a ;; y <-? eval env mem b ;; eval_binop OpMin x y
  | Max a b => x <-? eval env mem a ;; y <-? eval env mem b ;; eval_binop OpMax x y
  | CompareSelect lhs rhs ret1 ret2 op =>
      l <-? eval env mem lhs ;; r <-? eval env mem rhs ;;
      v1 <-? eval env mem ret1 ;; v2 <-? eval env mem ret2 ;;
      c <-? eval_compare op l r ;;
      Some (if c then v1 else v2)
  | IfThenElse c t f =>
      vc <-? eval env mem c ;; z <-? int_of_value vc ;;
      if z =? 0 then eval env mem f else eval env mem t
  | Load b indices =>
      idx <-? (fix go (l : list Expr) : option (list Z) :=
                 match l with
                 | [] => Some []
                 | i :: l' =>
                     vi <-? eval env mem i ;; zi <-? int_of_value vi ;;
                     zs <-? go l' ;; Some (zi :: zs)
                 end) indices ;;
      Some (VFloat (mem b idx))
  | ReduceOp body _ => eval env mem body
  end.

Fixpoint eval_indices (env : Env) (mem : Mem) (l : list Expr)
  : option (list Z) :=
  match l with
  | [] => Some []
  | i :: l' =>
      vi <-? eval env mem i ;; zi <-? int_of_value vi ;;
      zs <-? eval_indices env mem l' ;; Some (zi :: zs)
  end.

(** [for_range n i step m] runs [step] at [i], [i+1], ..., [i+n-1]. *)
Fixpoint for_range (n : nat) (i : Z) (step : Z -> Mem -> option Mem) (m : Mem)
  : option Mem :=
  match n with
  | O => Some m
  | S n' => m' <-? step i m ;; for_range n' (i + 1) step m'
  end.

Definition loop_var_value (bound : Value) (i : Z) : Value :=
  match bound with
  | VLong _ => VLong i
  | _ => VInt i
  end.

(** Modelled from the spec: the meaning of statements.  A loop evaluates its
    bounds once and runs its body for each value of the half-open range; an
    external call is opaque and has no denotation here. *)
Fixpoint exec (env : Env) (s : Stmt) (m : Mem) {struct s} : option Mem :=
  match s with
  | Store b indices value =>
      idx <-? eval_indices env m indices ;;
      v <-? eval env m value ;;
      match v with
      | VFloat f => Some (mem_store m b idx f)
      | _ => None
      end
  | For x start stop body =>
      va <-? eval env m start ;; lo <-? int_of_value va ;;
      vb <-? eval env m stop ;; hi <-? int_of_value vb ;;
      for_range (Z.to_nat (hi - lo)) lo
        (fun i =>
           (fix go (ss : list Stmt) (m0 : Mem) : option Mem :=
              match ss with
              | [] => Some m0
              | c :: ss' =>
                  m1 <-? exec ((x, loop_var_value va i) :: env) c m0 ;;
                  go ss' m1
              end) body) m
  | Block ss =>
      (fix go (ss : list Stmt) (m0 : Mem) : option Mem :=
         match ss with
         | [] => Some m0
         | c :: ss' => m1 <-? exec env c m0 ;; go ss' m1
         end) ss m
  | ExternalCall _ _ _ _ => None
  end.

Fixpoint exec_block (env : Env) (ss : list Stmt) (m : Mem) : option Mem :=
  match ss with
  | [] => Some m
  | c :: ss' => m1 <-? exec env c m ;; exec_block env ss' m1
  end.

(* ===================================================================== *)
(** * Reductions and loop nests *)
(* ===================================================================== *)

(** An index-space entry: an extent with the name of its index variable. *)
Definition DimArg : Type := (Expr * string)%type.

Definition create_index_vars (dims : list DimArg) : list Expr :=
  map (fun d => Var (snd d)) dims.

(** The loops over an index space, outermost first, around [inner]. *)
Fixpoint loops_over (dims : list DimArg) (inner : list Stmt) : list Stmt :=
  match dims with
  | [] => inner
  | (extent, x) :: rest => [For x (IntImm 0) extent (loops_over rest inner)]
  end.

Definition as_stmt (l : list Stmt) : Stmt :=
  match l with
  | [s] => s
  | _ => Block l
  end.

Definition InitFunc : Type := list Expr -> Expr.

(** Modelled from the spec: the identity element of the [Sum] reducer
    (the reducer is declared by the IR layer): the additive identity 0. *)
Definition Sum_initializer : Expr := IntImm 0.

(** Modelled from the spec: [Reduce] (declared by the IR layer) with the
    [Sum] reducer.  The output index space [dim_args] survives into the
    result buffer, the reduction index space [reduce_args] is consumed; each
    output element is seeded with the initializer (converted to the element
    type) and then accumulates, by floating-point addition, the body's
    contribution for every reduction index. *)
Definition Reduce (func_name : string) (dim_args : list DimArg)
    (init_func : InitFunc) (body_func : list Expr -> Expr)
    (reduce_args : list DimArg) : Tensor :=
  let vars := create_index_vars dim_args in
  let reduce_vars := create_index_vars reduce_args in
  let body := body_func (vars ++ reduce_vars) in
  let init_expr := Cast Float (init_func vars) in
  let func_result := mkBuf func_name (map fst dim_args) Float in
  let reduce_op :=
    ReduceOp (Add (Load func_name vars) body) (map snd reduce_args) in
  let update := Store func_name vars reduce_op in
  mkTensor func_result
    (as_stmt (loops_over dim_args
                (Store func_name vars init_expr
                 :: loops_over reduce_args [update]))).

(** A loop nest is the root block of the statements of its tensors; a loop
    of the nest is designated by its position: the child indices leading
    from the root to it. *)
Definition LoopNest : Type := Stmt.
Definition ForPtr : Type := list nat.

Definition mkLoopNest (output_tensors : list Tensor) : LoopNest :=
  Block (map stmt output_tensors).

Definition children (s : Stmt) : list Stmt :=
  match s with
  | For _ _ _ body => body
  | Block ss => ss
  | _ => []
  end.

Definition with_children (s : Stmt) (cs : list Stmt) : Stmt :=
  match s with
  | For x a b _ => For x a b cs
  | Block _ => Block cs
  | _ => s
  end.

Fixpoint stmt_at (s : Stmt) (p : ForPtr) : option Stmt :=
  match p with
  | [] => Some s
  | i :: p' =>
      match nth_error (children s) i with
      | Some c => stmt_at c p'
      | None => None
      end
  end.

Definition is_for (root : Stmt) (p : ForPtr) : bool :=
  match stmt_at root p with
  | Some (For _ _ _ _) => true
  | _ => false
  end.

Definition is_reduce_store (root : Stmt) (p : ForPtr) : bool :=
  match stmt_at root p with
  | Some (Store _ _ (ReduceOp _ _)) => true
  | _ => false
  end.

(** Positions of the stores into buffer [b], in program order. *)
Fixpoint writes_to_buf (b : string) (s : Stmt) : list ForPtr :=
  match s with
  | Store b' _ _ => if String.eqb b b' then [[]] else []
  | For _ _ _ body =>
      (fix go (i : nat) (ss : list Stmt) : list ForPtr :=
         match ss with
         | [] => []
         | c :: ss' => map (cons i) (writes_to_buf b c) ++ go (S i) ss'
         end) 0%nat body
  | Block ss =>
      (fix go (i : nat) (ss : list Stmt) : list ForPtr :=
         match ss with
         | [] => []
         | c :: ss' => map (cons i) (writes_to_buf b c) ++ go (S i) ss'
         end) 0%nat ss
  | ExternalCall _ _ _ _ => []
  end.

(** All prefixes of a position, shortest first (the position included). *)
Fixpoint prefixes (p : ForPtr) : list ForPtr :=
  [] :: match p with
        | [] => []
        | i :: p' => map (cons i) (prefixes p')
        end.

(** The loops on the way from the root to [p], outermost first
    ([p] itself included when it is a loop). *)
Definition loops_on_path (root : Stmt) (p : ForPtr) : list ForPtr :=
  filter (is_for root) (prefixes p).

(** The loops strictly enclosing the statement at [p]. *)
Definition getEnclosingLoopNest (root : Stmt) (p : ForPtr) : list ForPtr :=
  loops_on_path root (removelast p).

Fixpoint common_prefix (p q : ForPtr) : ForPtr :=
  match p, q with
  | i :: p', j :: q' => if Nat.eqb i j then i :: common_prefix p' q' else []
  | _, _ => []
  end.

Definition shared_parent (ws : list ForPtr) : ForPtr :=
  match ws with
  | [] => []
  | w :: ws' => fold_left common_prefix ws' w
  end.

(** Modelled from the spec: the loop-nest queries (the loop-nest structure
    belongs to the IR layer).  [getLoopStmtsFor] gives the loops around the
    computation of a tensor, outermost first, so that a loop is found by its
    fixed structural position: around the accumulating store when the buffer
    has just its initialisation and that store, around the statements common
    to all its writers otherwise.  [getAllLoopNestsWritingToBuf] gives one
    loop nest per store into the buffer (a reduction has two: its
    initialisation and its accumulation).  [getParentLoop] is the closest
    enclosing loop. *)
Definition getLoopBodyFor (nest : LoopNest) (b : string) : ForPtr :=
  let writes := writes_to_buf b nest in
  if (Nat.eqb (List.length writes) 2)
     && is_reduce_store nest (last writes [])
  then last writes []
  else shared_parent writes.

Definition getLoopStmtsFor (nest : LoopNest) (t : Tensor) : list ForPtr :=
  loops_on_path nest (getLoopBodyFor nest t.(buf).(buf_name)).

Definition getAllLoopNestsWritingToBuf (nest : LoopNest) (b : BufHandle)
  : list (list ForPtr) :=
  map (getEnclosingLoopNest nest) (writes_to_buf b.(buf_name) nest).

Definition getParentLoop (nest : LoopNest) (p : ForPtr) : option ForPtr :=
  match rev (getEnclosingLoopNest nest p) with
  | [] => None
  | l :: _ => Some l
  end.

(** Replace the child at position [p] by the statements [g child]. *)
Fixpoint splice_nth (g : Stmt -> list Stmt) (i : nat) (l : list Stmt)
  : list Stmt :=
  match l, i with
  | [], _ => []
  | c :: l', O => g c ++ l'
  | c :: l', S i' => c :: splice_nth g i' l'
  end.

Fixpoint update_nth (f : Stmt -> Stmt) (i : nat) (l : list Stmt) : list Stmt :=
  match l, i with
  | [], _ => []
  | c :: l', O => f c :: l'
  | c :: l', S i' => c :: update_nth f i' l'
  end.

Fixpoint splice_at (g : Stmt -> list Stmt) (p : ForPtr) (s : Stmt) : Stmt :=
  match p with
  | [] => s
  | [i] => with_children s (splice_nth g i (children s))
  | i :: p' => with_children s (update_nth (splice_at g p') i (children s))
  end.

(** The head and tail loops of a split at factor [k]: the head ends (and the
    tail starts) [k] iterations after the start, clamped to the stop; for a
    tail split, the tail starts [k] iterations before the stop, clamped to
    the start. *)
Definition slice_head_of (factor : Z) (s : Stmt) : list Stmt :=
  match s with
  | For x start stop body =>
      let head_end := Min (Add start (IntImm factor)) stop in
      [For x start head_end body; For x head_end stop body]
  | _ => [s]
  end.

Definition slice_tail_of (factor : Z) (s : Stmt) : list Stmt :=
  match s with
  | For x start stop body =>
      let tail_start := Max start (Sub stop (IntImm factor)) in
      [For x start tail_start body; For x tail_start stop body]
  | _ => [s]
  end.

Definition next_sibling (p : ForPtr) : ForPtr :=
  removelast p ++ [S (last p 0%nat)].

(** Modelled from the spec: head/tail slicing (loop peeling; the
    loop-splitting primitives belong to the IR layer).  [sliceHead f k]
    splits the loop [f] in place into a preceding head loop running its
    first [k] iterations and a tail loop running the remainder;
    [sliceTail f k] splits it into a head running all but the last [k]
    iterations and a tail running the last [k].  Both give back the
    transformed nest with the positions of the head and of the tail; a
    position that is not a loop inside a block is a malformed input. *)
Definition sliceHead (nest : LoopNest) (f : ForPtr) (factor : Z)
  : Result (LoopNest * ForPtr * ForPtr) :=
  if is_for nest f && negb (Nat.eqb (List.length f) 0)
  then ok (splice_at (slice_head_of factor) f nest, f, next_sibling f)
  else fail (Undefined "sliceHead attempted on a non-loop").

Definition sliceTail (nest : LoopNest) (f : ForPtr) (factor : Z)
  : Result (LoopNest * ForPtr * ForPtr) :=
  if is_for nest f && negb (Nat.eqb (List.length f) 0)
  then ok (splice_at (slice_tail_of factor) f nest, f, next_sibling f)
  else fail (Undefined "sliceTail attempted on a non-loop").

Definition root_stmt (nest : LoopNest) : Stmt := nest.

(** [v[i]] on a vector: an index out of range has no defined behaviour. *)
Definition vec_at {A : Type} (v : list A) (i : nat) : Result A :=
  match nth_error v i with
  | Some a => ok a
  | None => fail (Undefined "vector index out of range")
  end.

(* ===================================================================== *)
(** * conv2d.cpp *)
(* ===================================================================== *)

(** Modelled from the spec: the constant tests of the IR layer.  A dimension
    is either a compile-time constant (an immediate) or a symbolic
    expression; [intValue] reads an integer immediate, [immediateAs_int]
    converts an immediate to a C++ [int]. *)
Definition isConstant (e : Expr) : bool :=
  match e with
  | IntImm _ | LongImm _ | FloatImm _ => true
  | _ => false
  end.

Definition intValue (e : Expr) : option Z :=
  match e with
  | IntImm v | LongImm v => Some v
  | _ => None
  end.

Definition immediateAs_int (e : Expr) : Result Z :=
  match e with
  | IntImm v => ok v
  | LongImm v => ok (wrap32 v)
  | FloatImm f =>
      match f32_trunc f with
      | Some z => ok (wrap32 z)
      | None => fail (Undefined "float to int conversion")
      end
  | _ => fail (Undefined "unsupported_dtype")
  end.

(** [assert_dims_constant]: every dimension of the buffer is a constant. *)
Definition assert_dims_constant (b : BufHandle) : Result unit :=
  TORCH_INTERNAL_ASSERT (forallb isConstant b.(buf_dims)) "dim->isConstant()".

(** [a / b] as the builder performs it: a division without a result is
    undefined behaviour of the program. *)
Definition int_div (a b : Z) : Result Z :=
  match div32 a b with
  | Some q => ok q
  | None => fail (Undefined "integer division")
  end.

(** [(H - R + 2 * pad) / stride + 1] on C++ [int]s. *)
Definition static_extent (H R pad stride : Z) : Result Z :=
  q <- int_div (add32 (sub32 H R) (mul32 2 pad)) stride ;;
  ok (add32 q 1).

(** The body lambda of [conv2d_depthwise_static]: the per-element
    contribution for output indices [v[0..3]] and reduction indices
    [v[4..6]]. *)
Definition static_body (input weight : BufHandle) (H W stride pad : Z)
    (v : list Expr) : Expr :=
  let n := nth 0 v (IntImm 0) in
  let k := nth 1 v (IntImm 0) in
  let oh := nth 2 v (IntImm 0) in
  let ow := nth 3 v (IntImm 0) in
  let c := nth 4 v (IntImm 0) in
  let r := nth 5 v (IntImm 0) in
  let s := nth 6 v (IntImm 0) in
  let ih := Add (Sub (Mul oh (IntImm stride)) (IntImm pad)) r in
  let iw := Add (Sub (Mul ow (IntImm stride)) (IntImm pad)) s in
  let cond := CompareSelect ih (IntImm 0) (IntImm 1) (IntImm 0) kLT in
  let cond := CompareSelect iw (IntImm 0) (IntImm 1) cond kLT in
  let cond := CompareSelect ih (IntImm H) (IntImm 1) cond kGE in
  let cond := CompareSelect iw (IntImm W) (IntImm 1) cond kGE in
  let in_ := IfThenElse cond (FloatImm f32_zero) (load input [n; k; ih; iw]) in
  Mul in_ (load weight [k; c; r; s]).

Definition kLoopH : nat := 2.
Definition kLoopW : nat := 3.

(** The reduction [conv] that [conv2d_depthwise_static] builds from the
    constants it derived. *)
Definition static_reduce (input weight : BufHandle) (init_func : InitFunc)
    (N K OH OW H W Cg R S stride pad : Z) : Tensor :=
  Reduce "conv2d_depthwise"
    [(IntImm N, "n"); (IntImm K, "k"); (IntImm OH, "oh"); (IntImm OW, "ow")]
    (fun v => init_func v)
    (static_body input weight H W stride pad)
    [(IntImm Cg, "c"); (IntImm R, "r"); (IntImm S, "s")].

(** The loop transformation at the end of [conv2d_depthwise_static]. *)
Definition static_slicing (nest : LoopNest) (conv : Tensor)
    (R stride pad : Z) : Result LoopNest :=
  if (R =? 3) && (stride =? 2) && (pad =? 1) then
    let loops := getLoopStmtsFor nest conv in
    l <- vec_at loops kLoopW ;;
    r1 <- sliceHead nest l 2 ;;
    let '(nest, head, tail) := r1 in
    let loops := getLoopStmtsFor nest conv in
    l <- vec_at loops kLoopH ;;
    r2 <- sliceHead nest l 2 ;;
    let '(nest, head, tail) := r2 in
    ok nest
  else if (R =? 3) && (stride =? 1) && (pad =? 1) then
    let loops := getAllLoopNestsWritingToBuf nest conv.(buf) in
    loops1 <- vec_at loops 1 ;;
    main <- vec_at loops1 kLoopW ;;
    r1 <- sliceHead nest main 1 ;;
    let '(nest, peeled, main) := r1 in
    r2 <- sliceTail nest main 1 ;;
    let '(nest, main, peeled) := r2 in
    main <- match getParentLoop nest main with
            | Some l => ok l
            | None => fail (Undefined "null loop")
            end ;;
    r3 <- sliceHead nest main 1 ;;
    let '(nest, peeled, main) := r3 in
    r4 <- sliceTail nest main 1 ;;
    let '(nest, main, peeled) := r4 in
    ok nest
  else ok nest.

(** The constants [conv2d_depthwise_static] derives from the operand
    shapes. *)
Record StaticShape : Type := mkStaticShape {
  sN : Z; sC : Z; sH : Z; sW : Z;
  sK : Z; sCperG : Z; sR : Z; sS : Z;
  sOH : Z; sOW : Z; sCg : Z
}.

(** The first part of [conv2d_depthwise_static]: the assertions on the
    operands, the constants read from the shapes, and the output extents. *)
Definition static_shape (input weight : BufHandle) (stride pad groups : Z)
  : Result StaticShape :=
  TORCH_INTERNAL_ASSERT (ndim input =? 4) "input.ndim() == 4" ;;;
  TORCH_INTERNAL_ASSERT (ndim weight =? 4) "weight.ndim() == 4" ;;;
  assert_dims_constant input ;;;
  assert_dims_constant weight ;;;
  N <- immediateAs_int (dim input 0) ;;
  C <- immediateAs_int (dim input 1) ;;
  H <- immediateAs_int (dim input 2) ;;
  W <- immediateAs_int (dim input 3) ;;
  K <- immediateAs_int (dim weight 0) ;;
  CperG <- immediateAs_int (dim weight 1) ;;
  R <- immediateAs_int (dim weight 2) ;;
  S <- immediateAs_int (dim weight 3) ;;
  TORCH_INTERNAL_ASSERT ((C =? K) && (K =? groups) && (CperG =? 1))
    "C == K && K == groups && CperG == 1" ;;;
  TORCH_INTERNAL_ASSERT (R =? S) "R == S" ;;;
  OH <- static_extent H R pad stride ;;
  OW <- static_extent W S pad stride ;;
  Cg <- int_div C groups ;;
  ok (mkStaticShape N C H W K CperG R S OH OW Cg).

(** The reduction [conv] built from those constants, before any loop
    transformation. *)
Definition static_conv (input weight : BufHandle) (init_func : InitFunc)
    (stride pad : Z) (sh : StaticShape) : Tensor :=
  static_reduce input weight init_func
    sh.(sN) sh.(sK) sh.(sOH) sh.(sOW) sh.(sH) sh.(sW) sh.(sCg)
    sh.(sR) sh.(sS) stride pad.

Definition conv2d_depthwise_static (input weight : BufHandle)
    (init_func : InitFunc) (stride pad groups : Z) : Result Tensor :=
  sh <- static_shape input weight stride pad groups ;;
  let conv := static_conv input weight init_func stride pad sh in
  let nest := mkLoopNest [conv] in
  nest <- static_slicing nest conv sh.(sR) stride pad ;;
  ok (mkTensor conv.(buf) (root_stmt nest)).

(** The symbolic output extent [(H - R + pad * 2) / stride + 1]. *)
Definition dynamic_extent (H R pad stride : Expr) : Expr :=
  Add (Div (Add (Sub H R) (Mul pad (IntImm 2))) stride) (IntImm 1).

(** The body lambda of [conv2d_depthwise_dynamic]. *)
Definition dynamic_body (input weight : BufHandle) (H W stride pad : Expr)
    (v : list Expr) : Expr :=
  let n := nth 0 v (IntImm 0) in
  let k := nth 1 v (IntImm 0) in
  let oh := nth 2 v (IntImm 0) in
  let ow := nth 3 v (IntImm 0) in
  let c := nth 4 v (IntImm 0) in
  let r := nth 5 v (IntImm 0) in
  let s := nth 6 v (IntImm 0) in
  let ih := Add (Sub (Mul oh stride) pad) r in
  let iw := Add (Sub (Mul ow stride) pad) s in
  let cond := CompareSelect ih (IntImm 0) (IntImm 1) (IntImm 0) kLT in
  let cond := CompareSelect iw (IntImm 0) (IntImm 1) cond kLT in
  let cond := CompareSelect ih H (IntImm 1) cond kGE in
  let cond := CompareSelect iw W (IntImm 1) cond kGE in
  let in_ := IfThenElse cond (FloatImm f32_zero) (load input [n; k; ih; iw]) in
  Mul in_ (load weight [k; c; r; s]).

Definition conv2d_depthwise_dynamic (input weight : BufHandle)
    (init_func : InitFunc)
    (N C H W K CperG R S stride pad groups : Expr) : Result Tensor :=
  TORCH_INTERNAL_ASSERT (ndim input =? 4) "input.ndim() == 4" ;;;
  TORCH_INTERNAL_ASSERT (ndim weight =? 4) "weight.ndim() == 4" ;;;
  let OH := dynamic_extent H R pad stride in
  let OW := dynamic_extent W S pad stride in
  ok (Reduce "conv2d_depthwise"
        [(N, "n"); (K, "k"); (OH, "oh"); (OW, "ow")]
        (fun v => init_func v)
        (dynamic_body input weight H W stride pad)
        [(Div C groups, "c"); (R, "r"); (S, "s")]).

(** The two initializers: the bias at the output channel [v[1]], or the
    identity of the sum. *)
Definition bias_init (bias : BufHandle) : InitFunc :=
  fun v => load bias [nth 1 v (IntImm 0)].

Definition zero_init : InitFunc := fun _ => Sum_initializer.

(** The four overloads of [conv2d_depthwise]: constant shapes with and
    without bias, symbolic shapes with and without bias. *)
Definition conv2d_depthwise_bias (input weight bias : BufHandle)
    (stride pad groups : Z) : Result Tensor :=
  assert_dims_constant bias ;;;
  conv2d_depthwise_static input weight (bias_init bias) stride pad groups.

Definition conv2d_depthwise_nobias (input weight : BufHandle)
    (stride pad groups : Z) : Result Tensor :=
  conv2d_depthwise_static input weight zero_init stride pad groups.

Definition conv2d_depthwise_bias_dyn (input weight bias : BufHandle)
    (N C H W K CperG R S stride pad groups : Expr) : Result Tensor :=
  assert_dims_constant bias ;;;
  conv2d_depthwise_dynamic input weight (bias_init bias)
    N C H W K CperG R S stride pad groups.

Definition conv2d_depthwise_nobias_dyn (input weight : BufHandle)
    (N C H W K CperG R S stride pad groups : Expr) : Result Tensor :=
  conv2d_depthwise_dynamic input weight zero_init
    N C H W K CperG R S stride pad groups.

(** Operator arguments ([ArgValue], a variant). *)
Inductive ArgValue : Type :=
| ArgBuf (b : BufHandle)
| ArgVar (name : string)
| ArgDouble (d : float32)
| ArgInt (i : Z)
| ArgBool (b : bool)
| ArgBufList (l : list BufHandle)
| ArgIntList (l : list Z)
| ArgString (s : string)
| ArgNone.

Definition _pair_int (v : ArgValue) : Result (list Z) :=
  match v with
  | ArgIntList t =>
      a <- vec_at t 0 ;; b <- vec_at t 1 ;; ok [a; b]
  | ArgInt i => ok [i; i]
  | _ => fail BadVariantAccess
  end.

(** Static shape and dtype metadata of an operand. *)
Record TensorInfo : Type := mkTensorInfo {
  dims : list Z;
  dtype : ScalarType
}.

Definition sizeZ {A : Type} (l : list A) : Z := Z.of_nat (List.length l).
Definition at0 (l : list Z) (i : nat) : Z := nth i l 0.

(** [conv2dIsSupported], with the message it logs when it rejects. *)
Definition conv2dIsSupported_log (input weight bias : TensorInfo)
    (stride pad dilation : list Z) (groups : Z) : bool * option string :=
  if negb (ScalarType_eqb input.(dtype) Float)
     || negb (ScalarType_eqb weight.(dtype) Float)
     || negb (ScalarType_eqb bias.(dtype) Float)
  then (false, Some "conv2dIsSupported: only float32 allowed")
  else if negb (sizeZ input.(dims) =? 4) || negb (sizeZ weight.(dims) =? 4)
          || negb (sizeZ bias.(dims) =? 1)
  then (false, Some "conv2dIsSupported: inputs are the wrong size")
  else
    let Cin := at0 input.(dims) 1 in
    let Cout := at0 weight.(dims) 0 in
    let CperG := at0 weight.(dims) 1 in
    if negb (Cin =? Cout) || negb (Cin =? groups) || negb (CperG =? 1)
    then (false, Some "conv2dIsSupported: not depthwise")
    else
      let KH := at0 weight.(dims) 2 in
      let KW := at0 weight.(dims) 3 in
      if negb (KH =? 3) || negb (KW =? 3)
      then (false, Some "conv2dIsSupported: not 3x3")
      else if negb (sizeZ stride =? 2)
              || negb (at0 stride 0 =? at0 stride 1)
      then (false, Some "conv2dIsSupported: unsupported stride")
      else if negb (sizeZ pad =? 2) || negb (at0 pad 0 =? at0 pad 1)
      then (false, Some "conv2dIsSupported: unsupported pad")
      else if negb (sizeZ dilation =? 2) || negb (at0 dilation 0 =? 1)
              || negb (at0 dilation 1 =? 1)
      then (false, Some "conv2dIsSupported: unsupported dilation")
      else (true, None).

Definition conv2dIsSupported (input weight bias : TensorInfo)
    (stride pad dilation : list Z) (groups : Z) : bool :=
  fst (conv2dIsSupported_log input weight bias stride pad dilation groups).

(** Modelled from the spec: [getTensorInfo] (defined with the other
    operators): the static shape and dtype metadata of a buffer, available
    when every dimension is an integer constant. *)
Fixpoint intValues (l : list Expr) : option (list Z) :=
  match l with
  | [] => Some []
  | e :: l' => v <-? intValue e ;; vs <-? intValues l' ;; Some (v :: vs)
  end.

Definition getTensorInfo (b : BufHandle) : option TensorInfo :=
  ds <-? intValues b.(buf_dims) ;; Some (mkTensorInfo ds b.(buf_dtype)).

Definition get_BufHandle (v : ArgValue) : Result BufHandle :=
  match v with
  | ArgBuf b => ok b
  | _ => fail BadVariantAccess
  end.

Definition get_int64 (v : ArgValue) : Result Z :=
  match v with
  | ArgInt i => ok i
  | _ => fail BadVariantAccess
  end.

(** The external-call fallback of [computeConv2d]. *)
Definition conv2d_external (ResultBuf inp w b : BufHandle)
    (strides padding dilation : list Z) (groups : Z) : Tensor :=
  mkTensor ResultBuf
    (ExternalCall ResultBuf "nnc_aten_conv2d" [inp; w; b]
       [LongImm (at0 strides 0); LongImm (at0 strides 1);
        LongImm (at0 padding 0); LongImm (at0 padding 1);
        LongImm (at0 dilation 0); LongImm (at0 dilation 1);
        IntImm groups]).

Definition computeConv2d (inputs : list ArgValue) (outputShape : list Expr)
    (outputType : option ScalarType) : Result Tensor :=
  let dtype := match outputType with Some t => t | None => Float end in
  let ResultBuf := mkBuf "conv" outputShape dtype in
  a0 <- vec_at inputs 0 ;; inp <- get_BufHandle a0 ;;
  a1 <- vec_at inputs 1 ;; w <- get_BufHandle a1 ;;
  a2 <- vec_at inputs 2 ;; b <- get_BufHandle a2 ;;
  a3 <- vec_at inputs 3 ;; strides <- _pair_int a3 ;;
  a4 <- vec_at inputs 4 ;; padding <- _pair_int a4 ;;
  a5 <- vec_at inputs 5 ;; dilation <- _pair_int a5 ;;
  a6 <- vec_at inputs 6 ;; g <- get_int64 a6 ;;
  let groups := wrap32 g in
  let inpInfo := getTensorInfo inp in
  let wInfo := getTensorInfo w in
  let bInfo := getTensorInfo b in
  match inpInfo, wInfo, bInfo with
  | Some i, Some wi, Some bi =>
      if conv2dIsSupported i wi bi strides padding dilation groups
      then conv2d_depthwise_bias inp w b
             (wrap32 (at0 strides 0)) (wrap32 (at0 padding 0)) groups
      else ok (conv2d_external ResultBuf inp w b strides padding dilation groups)
  | _, _, _ =>
      ok (conv2d_external ResultBuf inp w b strides padding dilation groups)
  end.

(* ===================================================================== *)
(** * Vocabulary of the statements *)
(* ===================================================================== *)

(** The integer an expression evaluates to, whatever its width. *)
Definition eval_int (env : Env) (mem : Mem) (e : Expr) : option Z :=
  v <-? eval env mem e ;; int_of_value v.

(** The seven checks of the oracle, as propositions over its arguments. *)
Definition check_dtypes (input weight bias : TensorInfo) : Prop :=
  input.(dtype) = Float /\ weight.(dtype) = Float /\ bias.(dtype) = Float.

Definition check_ranks (input weight bias : TensorInfo) : Prop :=
  List.length input.(dims) = 4%nat /\ List.length weight.(dims) = 4%nat
  /\ List.length bias.(dims) = 1%nat.

Definition check_depthwise (input weight : TensorInfo) (groups : Z) : Prop :=
  at0 input.(dims) 1 = at0 weight.(dims) 0
  /\ at0 weight.(dims) 0 = groups
  /\ at0 weight.(dims) 1 = 1.

Definition check_kernel (weight : TensorInfo) : Prop :=
  at0 weight.(dims) 2 = 3 /\ at0 weight.(dims) 3 = 3.

(** A 2-element value with equal height and width components. *)
Definition isotropic (p : list Z) : Prop := exists a, p = [a; a].

Definition check_dilation (dilation : list Z) : Prop := dilation = [1; 1].

Definition msg_dtype : string := "conv2dIsSupported: only float32 allowed".
Definition msg_rank : string := "conv2dIsSupported: inputs are the wrong size".
Definition msg_depthwise : string := "conv2dIsSupported: not depthwise".
Definition msg_kernel : string := "conv2dIsSupported: not 3x3".
Definition msg_stride : string := "conv2dIsSupported: unsupported stride".
Definition msg_pad : string := "conv2dIsSupported: unsupported pad".
Definition msg_dilation : string := "conv2dIsSupported: unsupported dilation".

(** Example operands: the 1x4x8x8 input, 4x1x3x3 weight and 4-element bias
    of the depthwise scenario, and variations of them. *)
Definition ex_input : BufHandle :=
  mkBuf "input" [IntImm 1; IntImm 4; IntImm 8; IntImm 8] Float.
Definition ex_weight : BufHandle :=
  mkBuf "weight" [IntImm 4; IntImm 1; IntImm 3; IntImm 3] Float.
Definition ex_bias : BufHandle := mkBuf "bias" [IntImm 4] Float.
Definition ex_bias_sym : BufHandle := mkBuf "bias" [Var "K"] Float.

Definition ex_input_info : TensorInfo := mkTensorInfo [1; 4; 8; 8] Float.
Definition ex_weight_info : TensorInfo := mkTensorInfo [4; 1; 3; 3] Float.
Definition ex_bias_info : TensorInfo := mkTensorInfo [4] Float.
Definition ex_weight5_info : TensorInfo := mkTensorInfo [4; 1; 5; 5] Float.

Definition ex_inputs (stride pad dilation : ArgValue) (groups : Z)
  : list ArgValue :=
  [ArgBuf ex_input; ArgBuf ex_weight; ArgBuf ex_bias;
   stride; pad; dilation; ArgInt groups].

(** The dispatcher falls back when metadata is missing for an operand or
    the oracle rejects the configuration. *)
Definition falls_back (inp w b : BufHandle)
    (strides padding dilation : list Z) (groups : Z) : Prop :=
  getTensorInfo inp = None \/ getTensorInfo w = None
  \/ getTensorInfo b = None
  \/ exists i wi bi,
       getTensorInfo inp = Some i /\ getTensorInfo w = Some wi
       /\ getTensorInfo b = Some bi
       /\ conv2dIsSupported i wi bi strides padding dilation groups = false.

Definition output_dtype (outputType : option ScalarType) : ScalarType :=
  match outputType with Some t => t | None => Float end.

(** Positions of the output-height and output-width loops in the nest of
    the static reduction (below the root block: n, k, oh, ow). *)
Definition oh_loop : ForPtr := [0; 0; 0]%nat.
Definition ow_loop : ForPtr := [0; 0; 0; 0]%nat.

(** Peeling by position, without the bookkeeping of head and tail. *)
Definition peel_head (k : Z) (p : ForPtr) (nest : LoopNest) : LoopNest :=
  splice_at (slice_head_of k) p nest.
Definition peel_tail (k : Z) (p : ForPtr) (nest : LoopNest) : LoopNest :=
  splice_at (slice_tail_of k) p nest.

(** The innermost loop shared by all the given loop nests: the last loop of
    their longest common prefix. *)
Fixpoint common_loops (a b : list ForPtr) : list ForPtr :=
  match a, b with
  | p :: a', q :: b' =>
      if list_eq_dec Nat.eq_dec p q then p :: common_loops a' b' else []
  | _, _ => []
  end.

Definition innermost_common_loop (nests : list (list ForPtr))
  : option ForPtr :=
  match nests with
  | [] => None
  | n :: rest =>
      match rev (fold_left common_loops rest n) with
      | [] => None
      | l :: _ => Some l
      end
  end.

Definition loop_var (nest : LoopNest) (p : ForPtr) : option string :=
  match stmt_at nest p with
  | Some (For x _ _ _) => Some x
  | _ => None
  end.

(** No intermediate result of [(H - R + 2 * pad) / stride + 1] leaves the
    range of a C++ [int]. *)
Definition extent_no_overflow (H R pad stride : Z) : Prop :=
  in_int32 (H - R) /\ in_int32 (2 * pad) /\ in_int32 (H - R + 2 * pad)
  /\ in_int32 (Z.quot (H - R + 2 * pad) stride)
  /\ in_int32 (Z.quot (H - R + 2 * pad) stride + 1).

(** The division of the extent computation has a result: the stride is
    not zero and the dividend is not [INT_MIN] with a stride of -1. *)
Definition extent_defined (H R pad stride : Z) : bool :=
  quot_defined 32 (add32 (sub32 H R) (mul32 2 pad)) stride.

(** The same for the extent read from a dimension of a buffer. *)
Definition dim_extent_defined (e : Expr) (R pad stride : Z) : bool :=
  match immediateAs_int e with
  | inr H => extent_defined H R pad stride
  | inl _ => false
  end.

(** The four-way boundary test on the input offsets. *)
Definition out_of_bounds (ih iw H W : Z) : bool :=
  (ih <? 0) || (iw <? 0) || (ih >=? H) || (iw >=? W).

(** The index arithmetic [o * stride - pad + k] stays within a C++ [int]. *)
Definition index_fits (o stride pad k : Z) : Prop :=
  in_int32 (o * stride) /\ in_int32 (o * stride - pad)
  /\ in_int32 (o * stride - pad + k).

(** The index variables of the reduction, bound to integers. *)
Definition index_vars : list Expr :=
  [Var "n"; Var "k"; Var "oh"; Var "ow"; Var "c"; Var "r"; Var "s"].

Definition index_env (n k oh ow c r s : Z) : Env :=
  [("n", VInt n); ("k", VInt k); ("oh", VInt oh); ("ow", VInt ow);
   ("c", VInt c); ("r", VInt r); ("s", VInt s)].

(** The zero-padding law as the specification words it: an out-of-bounds
    contribution is zero whatever the weight. *)
Definition zero_padding_law : Prop :=
  forall (input weight : BufHandle) (mem : Mem)
         (n k oh ow c r s H W stride pad : Z),
    index_fits oh stride pad r -> index_fits ow stride pad s ->
    out_of_bounds (oh * stride - pad + r) (ow * stride - pad + s) H W = true ->
    exists z,
      eval (index_env n k oh ow c r s) mem
        (static_body input weight H W stride pad index_vars)
      = Some (VFloat z)
      /\ f32_is_zero z = true.

(** A memory whose weights are all infinite and whose other elements are 1. *)
Definition ex_mem_inf : Mem :=
  fun b _ => if String.eqb b "weight" then S754_infinity false else f32_of_Z 1.

(** A memory holding 1 everywhere. *)
Definition ex_mem_one : Mem := fun _ _ => f32_of_Z 1.

(** The reduction both builders state, over given extents: output index
    space (N,"n"), (K,"k"), (OH,"oh"), (OW,"ow"); reduction index space
    (Cg,"c"), (R,"r"), (S,"s"); sum; the given initializer; the masked
    product as contribution. *)
Definition depthwise_reduction (input weight : BufHandle)
    (init_func : InitFunc) (N K OH OW Cg R S H W stride pad : Expr) : Tensor :=
  Reduce "conv2d_depthwise"
    [(N, "n"); (K, "k"); (OH, "oh"); (OW, "ow")]
    (fun v => init_func v)
    (dynamic_body input weight H W stride pad)
    [(Cg, "c"); (R, "r"); (S, "s")].

(** The loop nest of that reduction, written out: the body of the
    output-width loop (the initialisation, then the reduction loops around
    the accumulation) and the four output loops around it. *)
Definition depthwise_inner (input weight : BufHandle) (init_func : InitFunc)
    (Cg R S H W stride pad : Expr) : list Stmt :=
  let out := [Var "n"; Var "k"; Var "oh"; Var "ow"] in
  [Store "conv2d_depthwise" out (Cast Float (init_func out));
   For "c" (IntImm 0) Cg
     [For "r" (IntImm 0) R
        [For "s" (IntImm 0) S
           [Store "conv2d_depthwise" out
              (ReduceOp
                 (Add (Load "conv2d_depthwise" out)
                    (dynamic_body input weight H W stride pad index_vars))
                 ["c"; "r"; "s"])]]]].

Definition depthwise_nest (input weight : BufHandle) (init_func : InitFunc)
    (N K OH OW Cg R S H W stride pad : Expr) : Stmt :=
  For "n" (IntImm 0) N
    [For "k" (IntImm 0) K
       [For "oh" (IntImm 0) OH
          [For "ow" (IntImm 0) OW
             (depthwise_inner input weight init_func Cg R S H W stride pad)]]].

(** Bounds made by peeling [k] iterations: the end of a head peeled from a
    loop starting at [start], and the start of a tail peeled from a loop
    between [start] and [stop]. *)
Definition head_end (start : Expr) (k : Z) (stop : Expr) : Expr :=
  Min (Add start (IntImm k)) stop.
Definition tail_start (start : Expr) (k : Z) (stop : Expr) : Expr :=
  Max start (Sub stop (IntImm k)).

(** The nest after Rule A: the output-height loop split into its first two
    iterations and the rest, each running the output-width loop split the
    same way. *)
Definition ruleA_nest (N K OH OW : Expr) (inner : list Stmt) : Stmt :=
  let z := IntImm 0 in
  let ow_loops :=
    [For "ow" z (head_end z 2 OW) inner;
     For "ow" (head_end z 2 OW) OW inner] in
  Block
    [For "n" z N
       [For "k" z K
          [For "oh" z (head_end z 2 OH) ow_loops;
           For "oh" (head_end z 2 OH) OH ow_loops]]].

(** The nest after Rule B: the output-height loop split into first
    iteration, interior and last iteration, each running the output-width
    loop split the same way. *)
Definition ruleB_nest (N K OH OW : Expr) (inner : list Stmt) : Stmt :=
  let z := IntImm 0 in
  let split3 (x : string) (stop : Expr) (body : list Stmt) :=
    let h := head_end z 1 stop in
    let t := tail_start h 1 stop in
    [For x z h body; For x h t body; For x t stop body] in
  Block
    [For "n" z N
       [For "k" z K (split3 "oh" OH (split3 "ow" OW inner))]].

(** The nest of the depthwise example (stride 1, padding 1, 4 groups). *)
Definition ex_shape : StaticShape := mkStaticShape 1 4 8 8 4 1 3 3 8 8 1.
Definition ex_conv : Tensor :=
  static_conv ex_input ex_weight (bias_init ex_bias) 1 1 ex_shape.
Definition ex_nest : LoopNest := mkLoopNest [ex_conv].

(** Statements with the same effect on every memory in every environment. *)
Definition block_equiv (l1 l2 : list Stmt) : Prop :=
  forall env m, exec_block env l1 m = exec_block env l2 m.

(** An expression that evaluates to the 32-bit integer [z] whatever the
    environment and the memory. *)
Definition const_int (e : Expr) (z : Z) : Prop :=
  forall env m, eval env m e = Some (VInt z).

(** Legal shapes: every dimension is a non-negative constant that fits a
    C++ [int]. *)
Definition legal_dim (e : Expr) : bool :=
  match intValue e with
  | Some z => (0 <=? z) && (z <? 2 ^ 31)
  | None => false
  end.

Definition legal_shape (b : BufHandle) : bool :=
  forallb legal_dim b.(buf_dims).

(** A small instance to run: a 1x1x3x3 input, a 3x3 kernel, one bias. *)
Definition tiny_input : BufHandle :=
  mkBuf "input" [IntImm 1; IntImm 1; IntImm 3; IntImm 3] Float.
Definition tiny_weight : BufHandle :=
  mkBuf "weight" [IntImm 1; IntImm 1; IntImm 3; IntImm 3] Float.
Definition tiny_bias : BufHandle := mkBuf "bias" [IntImm 1] Float.

Definition output_at (r : option Mem) (idx : list Z) : option float32 :=
  match r with
  | Some m => Some (m "conv2d_depthwise" idx)
  | None => None
  end.

(** The loop body as a function of the loop variable. *)
Definition loop_body (env : Env) (x : string) (bound : Value)
    (body : list Stmt) : Z -> Mem -> option Mem :=
  fun i => exec_block ((x, loop_var_value bound i) :: env) body.

(** The shape derived for the depthwise example at stride 2, padding 1. *)
Definition ex_shape_s2 : StaticShape := mkStaticShape 1 4 8 8 4 1 3 3 4 4 1.

(* ===================================================================== *)
(** * The prepacked operators *)
(* ===================================================================== *)

(** [computePrepackedConv2dClampRun]: the result buffer bound to an external
    call on the input and the prepacked context, with no scalar argument. *)
Definition computePrepackedConv2dClampRun (inputs : list ArgValue)
    (outputShape : list Expr) (outputType : option ScalarType)
  : Result Tensor :=
  let dtype := match outputType with Some t => t | None => Float end in
  let ResultBuf := mkBuf "prepacked_conv2d_clamp_run" outputShape dtype in
  a0 <- vec_at inputs 0 ;; inp <- get_BufHandle a0 ;;
  a1 <- vec_at inputs 1 ;; prepacked <- get_BufHandle a1 ;;
  ok (mkTensor ResultBuf
        (ExternalCall ResultBuf "nnc_prepacked_conv2d_clamp_run"
           [inp; prepacked] [])).

Definition computePrepackedLinearClampRun (inputs : list ArgValue)
    (outputShape : list Expr) (outputType : option ScalarType)
  : Result Tensor :=
  let dtype := match outputType with Some t => t | None => Float end in
  let ResultBuf := mkBuf "prepacked_linear_clamp_run" outputShape dtype in
  a0 <- vec_at inputs 0 ;; inp <- get_BufHandle a0 ;;
  a1 <- vec_at inputs 1 ;; prepacked <- get_BufHandle a1 ;;
  ok (mkTensor ResultBuf
        (ExternalCall ResultBuf "nnc_prepacked_linear_clamp_run"
           [inp; prepacked] [])).

(** The external call a prepacked operator makes. *)
Definition prepacked_call (result_name func_name : string)
    (inp prepacked : BufHandle) (outputShape : list Expr)
    (outputType : option ScalarType) : Tensor :=
  let ResultBuf := mkBuf result_name outputShape (output_dtype outputType) in
  mkTensor ResultBuf (ExternalCall ResultBuf func_name [inp; prepacked] []).

(** A 5x5 depthwise kernel for the example input. *)
Definition ex_weight5 : BufHandle :=
  mkBuf "weight" [IntImm 4; IntImm 1; IntImm 5; IntImm 5] Float.

(* ===================================================================== *)
(** * What the reduction computes *)
(* ===================================================================== *)

(** The name [Reduce] gives the result buffer of both builders. *)
Definition out_name : string := "conv2d_depthwise".

(** [fold_range n i g a] folds [g] over [i], [i+1], ..., [i+n-1]. *)
Fixpoint fold_range {A : Type} (n : nat) (i : Z) (g : Z -> A -> A) (a : A)
  : A :=
  match n with
  | O => a
  | S n' => fold_range n' (i + 1) g (g i a)
  end.

(** The masked product of one reduction step, read from a memory. *)
Definition contribution (mem : Mem) (input weight : BufHandle)
    (H W stride pad n k oh ow c r s : Z) : float32 :=
  let ih := oh * stride - pad + r in
  let iw := ow * stride - pad + s in
  f32_mul
    (if out_of_bounds ih iw H W then f32_zero
     else mem input.(buf_name) [n; k; ih; iw])
    (mem weight.(buf_name) [k; c; r; s]).

(** The value of one output element: the initial value, to which the
    contributions are added one by one, for c, then r, then s ascending
    (the order of the reduction loops). *)
Definition conv_sum (mem : Mem) (input weight : BufHandle)
    (Cg R S H W stride pad : Z) (init : float32) (n k oh ow : Z) : float32 :=
  fold_range (Z.to_nat Cg) 0
    (fun c acc =>
       fold_range (Z.to_nat R) 0
         (fun r acc =>
            fold_range (Z.to_nat S) 0
              (fun s acc =>
                 f32_add acc
                   (contribution mem input weight H W stride pad
                      n k oh ow c r s))
              acc)
         acc)
    init.

Definition conv_at (mem : Mem) (input weight : BufHandle)
    (init_value : Mem -> Z -> float32) (Cg R S H W stride pad : Z)
    (idx : list Z) : float32 :=
  match idx with
  | [n; k; oh; ow] =>
      conv_sum mem input weight Cg R S H W stride pad (init_value mem k)
        n k oh ow
  | _ => f32_zero
  end.

Definition interval (lo hi x : Z) : bool := (lo <=? x) && (x <? hi).

(** Four-dimensional indices within a box of half-open intervals. *)
Definition in_box4 (n0 n1 k0 k1 h0 h1 w0 w1 : Z) (idx : list Z) : bool :=
  match idx with
  | [n; k; oh; ow] =>
      interval n0 n1 n && interval k0 k1 k
      && interval h0 h1 oh && interval w0 w1 ow
  | _ => false
  end.

(** Memories with the same contents. *)
Definition mem_eq (m m' : Mem) : Prop := forall b idx, m b idx = m' b idx.

(** Memories with the same contents outside the result buffer. *)
Definition agree_off_out (m m' : Mem) : Prop :=
  forall b idx, b <> out_name -> m b idx = m' b idx.

(** The memory [mb] with the elements of the result buffer at the indices
    in [D] replaced by [val]. *)
Definition region_mem (mb : Mem) (D : list Z -> bool)
    (val : list Z -> float32) : Mem :=
  fun b idx => if String.eqb out_name b && D idx then val idx else mb b idx.

(** The environments of the loop bodies: the output indices, and the
    reduction indices on top of them. *)
Definition out_env (env : Env) (n k oh ow : Z) : Env :=
  ("ow", VInt ow) :: ("oh", VInt oh) :: ("k", VInt k) :: ("n", VInt n) :: env.

Definition red_env (env : Env) (n k oh ow c r s : Z) : Env :=
  ("s", VInt s) :: ("r", VInt r) :: ("c", VInt c) :: out_env env n k oh ow.

Definition output_vars : list Expr := [Var "n"; Var "k"; Var "oh"; Var "ow"].

(** The accumulating store of the reduction. *)
Definition update_stmt (input weight : BufHandle) (H W stride pad : Expr)
  : Stmt :=
  Store out_name output_vars
    (ReduceOp
       (Add (Load out_name output_vars)
          (dynamic_body input weight H W stride pad index_vars))
       ["c"; "r"; "s"]).

(** The values of the two initializers. *)
Definition bias_value (bias : BufHandle) : Mem -> Z -> float32 :=
  fun m k => m bias.(buf_name) [k].
Definition zero_value : Mem -> Z -> float32 := fun _ _ => f32_zero.

(** The names of the loop variables of the reduction. *)
Definition loop_names : list string := ["n"; "k"; "oh"; "ow"; "c"; "r"; "s"].

(** [extends env0 env]: [env] is [env0] with loop variables bound on top. *)
Inductive extends (env0 : Env) : Env -> Prop :=
| extends_refl : extends env0 env0
| extends_bind (x : string) (v : Value) (env : Env) :
    In x loop_names -> extends env0 env -> extends env0 ((x, v) :: env).

(** An expression that has the 32-bit value [z] in [env0], whatever the
    loop variables are bound to and whatever the memory holds: a constant,
    or an expression over shape variables bound in [env0]. *)
Definition stable_int (env0 : Env) (e : Expr) (z : Z) : Prop :=
  forall env m, extends env0 env -> eval env m e = Some (VInt z).


(** The index arithmetic of one spatial dimension stays within a C++ [int]
    for every output position and every kernel offset. *)
Definition indices_fit (O R stride pad : Z) : Prop :=
  forall o r, 0 <= o < O -> 0 <= r < R -> index_fits o stride pad r.

(** Running [s] from [m] in [env] ends, with the convolution in the N x K x
    OH x OW elements of the result buffer and every other element of the
    memory as it was. *)
Definition computes_conv (env : Env) (m : Mem) (s : Stmt)
    (input weight : BufHandle) (init_value : Mem -> Z -> float32)
    (N K OH OW Cg R S H W stride pad : Z) : Prop :=
  exists m',
    exec env s m = Some m'
    /\ mem_eq m'
         (region_mem m (in_box4 0 N 0 K 0 OH 0 OW)
            (conv_at m input weight init_value Cg R S H W stride pad)).

(** A memory whose bias is zero and whose other elements are 1. *)
Definition ex_mem_zero_bias : Mem :=
  fun b _ => if String.eqb b "bias" then f32_zero else f32_of_Z 1.

(** An input of height 1, for which a stride of -1 and a padding of
    -1073741823 make the dividend of the output height [INT_MIN]. *)
Definition ex_input_h1 : BufHandle :=
  mkBuf "input" [IntImm 1; IntImm 4; IntImm 1; IntImm 8] Float.
Definition ex_input_h1_info : TensorInfo := mkTensorInfo [1; 4; 1; 8] Float.

(* ===================================================================== *)
(** * Machine arithmetic *)
(* ===================================================================== *)

Lemma wrap32_id (z : Z) : in_int32 z -> wrap32 z = z.
Proof.
  unfold in_int32, wrap32, wrap. intros Hz.
  change (2 ^ (32 - 1)) with 2147483648.
  change (2 ^ 32) with 4294967296.
  change (2 ^ 31) with 2147483648 in Hz.
  rewrite Z.mod_small; lia.
Qed.

Lemma wrap64_id (z : Z) : in_int64 z -> wrap64 z = z.
Proof.
  unfold in_int64, wrap64, wrap. intros Hz.
  change (2 ^ (64 - 1)) with 9223372036854775808.
  change (2 ^ 64) with 18446744073709551616.
  change (2 ^ 63) with 9223372036854775808 in Hz.
  rewrite Z.mod_small; lia.
Qed.

Lemma wrap32_range (z : Z) : in_int32 (wrap32 z).
Proof.
  unfold in_int32, wrap32, wrap.
  change (2 ^ (32 - 1)) with 2147483648.
  change (2 ^ 32) with 4294967296.
  change (2 ^ 31) with 2147483648.
  pose proof (Z.mod_pos_bound (z + 2147483648) 4294967296 ltac:(lia)). lia.
Qed.

Lemma wrap32_idem (z : Z) : wrap32 (wrap32 z) = wrap32 z.
Proof. apply wrap32_id, wrap32_range. Qed.

Lemma in_int32_int64 (z : Z) : in_int32 z -> in_int64 z.
Proof. unfold in_int32, in_int64. lia. Qed.

(* ===================================================================== *)
(** * The oracle *)
(* ===================================================================== *)

Lemma ScalarType_eqb_eq (a b : ScalarType) :
  ScalarType_eqb a b = true <-> a = b.
Proof. destruct a, b; simpl; split; intros H; congruence. Qed.

Lemma sizeZ_eqb {A : Type} (l : list A) (n : nat) :
  (sizeZ l =? Z.of_nat n) = Nat.eqb (List.length l) n.
Proof.
  unfold sizeZ. destruct (Nat.eqb_spec (List.length l) n) as [->|Hne].
  - apply Z.eqb_refl.
  - apply Z.eqb_neq. lia.
Qed.

Lemma isotropic_spec (p : list Z) :
  isotropic p <->
  negb (sizeZ p =? 2) || negb (at0 p 0 =? at0 p 1) = false.
Proof.
  change 2 with (Z.of_nat 2). rewrite sizeZ_eqb. unfold isotropic, at0. split.
  - intros [a ->]. simpl. now rewrite Z.eqb_refl.
  - destruct p as [|a [|b [|c p]]]; simpl; try discriminate.
    intros H. rewrite negb_false_iff in H. apply Z.eqb_eq in H. subst b.
    now exists a.
Qed.

Lemma check_dilation_spec (d : list Z) :
  check_dilation d <->
  negb (sizeZ d =? 2) || negb (at0 d 0 =? 1) || negb (at0 d 1 =? 1) = false.
Proof.
  change 2 with (Z.of_nat 2). rewrite sizeZ_eqb. unfold check_dilation, at0.
  split.
  - intros ->. reflexivity.
  - destruct d as [|a [|b [|c d]]]; simpl; try discriminate.
    intros H. apply orb_false_iff in H as [Ha Hb].
    rewrite negb_false_iff in Ha, Hb.
    apply Z.eqb_eq in Ha, Hb. now subst.
Qed.

Lemma check_dtypes_spec (i w b : TensorInfo) :
  check_dtypes i w b <->
  negb (ScalarType_eqb i.(dtype) Float)
  || negb (ScalarType_eqb w.(dtype) Float)
  || negb (ScalarType_eqb b.(dtype) Float) = false.
Proof.
  unfold check_dtypes.
  rewrite !orb_false_iff, !negb_false_iff, !ScalarType_eqb_eq. tauto.
Qed.

Lemma check_ranks_spec (i w b : TensorInfo) :
  check_ranks i w b <->
  negb (sizeZ i.(dims) =? 4) || negb (sizeZ w.(dims) =? 4)
  || negb (sizeZ b.(dims) =? 1) = false.
Proof.
  unfold check_ranks.
  change 4 with (Z.of_nat 4). change 1 with (Z.of_nat 1).
  rewrite !sizeZ_eqb, !orb_false_iff, !negb_false_iff, !Nat.eqb_eq. tauto.
Qed.

Lemma check_depthwise_spec (i w : TensorInfo) (g : Z) :
  check_depthwise i w g <->
  negb (at0 i.(dims) 1 =? at0 w.(dims) 0) || negb (at0 i.(dims) 1 =? g)
  || negb (at0 w.(dims) 1 =? 1) = false.
Proof.
  unfold check_depthwise.
  rewrite !orb_false_iff, !negb_false_iff, !Z.eqb_eq. intuition congruence.
Qed.

Lemma check_kernel_spec (w : TensorInfo) :
  check_kernel w <->
  negb (at0 w.(dims) 2 =? 3) || negb (at0 w.(dims) 3 =? 3) = false.
Proof.
  unfold check_kernel.
  rewrite !orb_false_iff, !negb_false_iff, !Z.eqb_eq. tauto.
Qed.

(** The oracle is a cascade of seven tests, each logging its own message. *)
Lemma conv2dIsSupported_log_cascade (i w b : TensorInfo)
    (stride pad dilation : list Z) (g : Z) :
  conv2dIsSupported_log i w b stride pad dilation g =
  if negb (ScalarType_eqb i.(dtype) Float)
     || negb (ScalarType_eqb w.(dtype) Float)
     || negb (ScalarType_eqb b.(dtype) Float)
  then (false, Some msg_dtype)
  else if negb (sizeZ i.(dims) =? 4) || negb (sizeZ w.(dims) =? 4)
          || negb (sizeZ b.(dims) =? 1)
  then (false, Some msg_rank)
  else if negb (at0 i.(dims) 1 =? at0 w.(dims) 0)
          || negb (at0 i.(dims) 1 =? g) || negb (at0 w.(dims) 1 =? 1)
  then (false, Some msg_depthwise)
  else if negb (at0 w.(dims) 2 =? 3) || negb (at0 w.(dims) 3 =? 3)
  then (false, Some msg_kernel)
  else if negb (sizeZ stride =? 2) || negb (at0 stride 0 =? at0 stride 1)
  then (false, Some msg_stride)
  else if negb (sizeZ pad =? 2) || negb (at0 pad 0 =? at0 pad 1)
  then (false, Some msg_pad)
  else if negb (sizeZ dilation =? 2) || negb (at0 dilation 0 =? 1)
          || negb (at0 dilation 1 =? 1)
  then (false, Some msg_dilation)
  else (true, None).
Proof. reflexivity. Qed.

(** C2. [conv2dIsSupported] returns true exactly when all seven checks
    pass (float32 dtypes; ranks 4, 4 and 1; the depthwise condition; a 3x3
    kernel; isotropic stride; isotropic padding; dilation 1 in both
    dimensions), and a check that fails while those before it pass makes it
    return false, logging the message of that check. *)
Theorem conv2dIsSupported_seven_checks :
  forall (input weight bias : TensorInfo) (stride pad dilation : list Z)
         (groups : Z),
    let log :=
      conv2dIsSupported_log input weight bias stride pad dilation groups in
    let c1 := check_dtypes input weight bias in
    let c2 := check_ranks input weight bias in
    let c3 := check_depthwise input weight groups in
    let c4 := check_kernel weight in
    let c5 := isotropic stride in
    let c6 := isotropic pad in
    let c7 := check_dilation dilation in
    (conv2dIsSupported input weight bias stride pad dilation groups = true
     <-> c1 /\ c2 /\ c3 /\ c4 /\ c5 /\ c6 /\ c7)
    /\ (~ c1 -> log = (false, Some msg_dtype))
    /\ (c1 /\ ~ c2 -> log = (false, Some msg_rank))
    /\ (c1 /\ c2 /\ ~ c3 -> log = (false, Some msg_depthwise))
    /\ (c1 /\ c2 /\ c3 /\ ~ c4 -> log = (false, Some msg_kernel))
    /\ (c1 /\ c2 /\ c3 /\ c4 /\ ~ c5 -> log = (false, Some msg_stride))
    /\ (c1 /\ c2 /\ c3 /\ c4 /\ c5 /\ ~ c6 -> log = (false, Some msg_pad))
    /\ (c1 /\ c2 /\ c3 /\ c4 /\ c5 /\ c6 /\ ~ c7
        -> log = (false, Some msg_dilation)).
Proof.
  intros input weight bias stride pad dilation groups.
  cbv zeta. unfold conv2dIsSupported.
  rewrite conv2dIsSupported_log_cascade.
  rewrite check_dtypes_spec, check_ranks_spec, check_depthwise_spec,
    check_kernel_spec, !isotropic_spec, check_dilation_spec.
  repeat match goal with
         | |- context [if ?c then _ else _] => destruct c
         end; simpl.
  all: intuition congruence.
Qed.

(** The two rejection scenarios of the depthwise example: with a single
    group the depthwise check fails; a 5x5 kernel fails the kernel check. *)
Example conv2dIsSupported_accepts_depthwise :
  conv2dIsSupported_log ex_input_info ex_weight_info ex_bias_info
    [1; 1] [1; 1] [1; 1] 4 = (true, None).
Proof. reflexivity. Qed.

Example conv2dIsSupported_rejects_one_group :
  conv2dIsSupported_log ex_input_info ex_weight_info ex_bias_info
    [1; 1] [1; 1] [1; 1] 1 = (false, Some msg_depthwise).
Proof. reflexivity. Qed.

Example conv2dIsSupported_rejects_5x5 :
  conv2dIsSupported_log ex_input_info ex_weight5_info ex_bias_info
    [1; 1] [1; 1] [1; 1] 4 = (false, Some msg_kernel).
Proof. reflexivity. Qed.

(* ===================================================================== *)
(** * Scalar and pair arguments *)
(* ===================================================================== *)

Lemma pair_int_shape (v : ArgValue) (p : list Z) :
  _pair_int v = ok p -> exists a b, p = [a; b].
Proof.
  destruct v as [| | |i| | |l| |]; simpl; try discriminate.
  - intros H. injection H as <-. now exists i, i.
  - destruct l as [|a [|b l]]; simpl; try discriminate.
    intros H. injection H as <-. now exists a, b.
Qed.

(** C10. [_pair_int] maps a 2-element integer list to its two elements and
    a single integer [i] to the pair [i, i]; so a parameter supplied as a
    single integer gives a pair of length 2 with equal components, on which
    neither a size test nor an isotropy test of the oracle fires: the
    oracle never reports an unsupported stride or padding for it, and
    reports a scalar dilation only when it differs from 1. *)
Theorem pair_int_scalar_passes_size_and_isotropy :
  (forall a b : Z, _pair_int (ArgIntList [a; b]) = ok [a; b])
  /\ (forall i : Z, _pair_int (ArgInt i) = ok [i; i])
  /\ (forall (i : Z) (p : list Z),
         _pair_int (ArgInt i) = ok p ->
         List.length p = 2%nat /\ isotropic p
         /\ negb (sizeZ p =? 2) = false
         /\ negb (at0 p 0 =? at0 p 1) = false)
  /\ (forall (input weight bias : TensorInfo) (i : Z) (strides pad dilation : list Z)
             (groups : Z),
         _pair_int (ArgInt i) = ok strides ->
         snd (conv2dIsSupported_log input weight bias strides pad dilation groups)
         <> Some msg_stride)
  /\ (forall (input weight bias : TensorInfo) (i : Z) (stride padding dilation : list Z)
             (groups : Z),
         _pair_int (ArgInt i) = ok padding ->
         snd (conv2dIsSupported_log input weight bias stride padding dilation groups)
         <> Some msg_pad)
  /\ (forall (input weight bias : TensorInfo) (d : Z) (stride pad dilation : list Z)
             (groups : Z),
         _pair_int (ArgInt d) = ok dilation ->
         snd (conv2dIsSupported_log input weight bias stride pad dilation groups)
         = Some msg_dilation -> d <> 1).
Proof.
  refine (conj _ (conj _ (conj _ (conj _ (conj _ _))))).
  - reflexivity.
  - reflexivity.
  - intros i p H. injection H as <-. simpl. rewrite Z.eqb_refl.
    repeat split. now exists i.
  - intros input weight bias i strides pad dilation groups H.
    injection H as <-. rewrite conv2dIsSupported_log_cascade.
    replace (negb (sizeZ [i; i] =? 2) || negb (at0 [i; i] 0 =? at0 [i; i] 1))
      with false by (simpl; now rewrite Z.eqb_refl).
    repeat match goal with
           | |- context [if ?c then _ else _] => destruct c
           end; simpl; discriminate.
  - intros input weight bias i stride padding dilation groups H.
    injection H as <-. rewrite conv2dIsSupported_log_cascade.
    replace (negb (sizeZ [i; i] =? 2) || negb (at0 [i; i] 0 =? at0 [i; i] 1))
      with false by (simpl; now rewrite Z.eqb_refl).
    repeat match goal with
           | |- context [if ?c then _ else _] => destruct c
           end; simpl; discriminate.
  - intros input weight bias d stride pad dilation groups H.
    injection H as <-. rewrite conv2dIsSupported_log_cascade.
    intros Hlog ->. revert Hlog. simpl (negb (sizeZ [1; 1] =? 2) || _ || _).
    repeat match goal with
           | |- context [if ?c then _ else _] => destruct c
           end; simpl; discriminate.
Qed.

(* ===================================================================== *)
(** * The dispatcher: fallback path *)
(* ===================================================================== *)

Lemma computeConv2d_unfold (inp w b : BufHandle) (a3 a4 a5 : ArgValue)
    (g : Z) (outputShape : list Expr) (outputType : option ScalarType)
    (strides padding dilation : list Z) :
  _pair_int a3 = ok strides ->
  _pair_int a4 = ok padding ->
  _pair_int a5 = ok dilation ->
  computeConv2d [ArgBuf inp; ArgBuf w; ArgBuf b; a3; a4; a5; ArgInt g]
    outputShape outputType =
  let ResultBuf := mkBuf "conv" outputShape (output_dtype outputType) in
  let fallback :=
    ok (conv2d_external ResultBuf inp w b strides padding dilation (wrap32 g)) in
  match getTensorInfo inp, getTensorInfo w, getTensorInfo b with
  | Some i, Some wi, Some bi =>
      if conv2dIsSupported i wi bi strides padding dilation (wrap32 g)
      then conv2d_depthwise_bias inp w b
             (wrap32 (at0 strides 0)) (wrap32 (at0 padding 0)) (wrap32 g)
      else fallback
  | _, _, _ => fallback
  end.
Proof.
  intros H3 H4 H5. unfold computeConv2d. simpl.
  rewrite H3. simpl. rewrite H4. simpl. rewrite H5. simpl.
  reflexivity.
Qed.

Lemma static_builder_buffer (input weight : BufHandle) (init_func : InitFunc)
    (stride pad groups : Z) (t : Tensor) :
  conv2d_depthwise_static input weight init_func stride pad groups = ok t ->
  t.(buf).(buf_name) = "conv2d_depthwise"
  /\ exists root, t.(stmt) = root /\ exists sh,
       static_shape input weight stride pad groups = ok sh
       /\ static_slicing
            (mkLoopNest [static_conv input weight init_func stride pad sh])
            (static_conv input weight init_func stride pad sh)
            sh.(sR) stride pad = ok root.
Proof.
  unfold conv2d_depthwise_static.
  destruct (static_shape input weight stride pad groups) as [e|sh]; simpl;
    [discriminate|].
  destruct (static_slicing _ _ _ _ _) as [e|nest] eqn:Hs; simpl;
    [discriminate|].
  intros H. injection H as <-. simpl. split; [reflexivity|].
  exists nest. split; [reflexivity|]. exists sh. split; [reflexivity|].
  exact Hs.
Qed.

(** C3. When static metadata is unavailable for the input, the weight or
    the bias, or the oracle rejects the configuration, [computeConv2d]
    returns without error the result buffer bound to the external call
    "nnc_aten_conv2d" on the input, weight and bias buffers with the scalars
    stride_h, stride_w, pad_h, pad_w, dilation_h, dilation_w, groups in
    that order (groups as the C++ [int] it was read into, which is groups
    itself whenever it fits); the tensor returned is not one the builder
    makes. *)
Theorem computeConv2d_fallback :
  forall (inp w b : BufHandle) (a3 a4 a5 : ArgValue) (g : Z)
         (outputShape : list Expr) (outputType : option ScalarType)
         (strides padding dilation : list Z),
    _pair_int a3 = ok strides ->
    _pair_int a4 = ok padding ->
    _pair_int a5 = ok dilation ->
    falls_back inp w b strides padding dilation (wrap32 g) ->
    let ResultBuf := mkBuf "conv" outputShape (output_dtype outputType) in
    let result :=
      mkTensor ResultBuf
        (ExternalCall ResultBuf "nnc_aten_conv2d" [inp; w; b]
           [LongImm (at0 strides 0); LongImm (at0 strides 1);
            LongImm (at0 padding 0); LongImm (at0 padding 1);
            LongImm (at0 dilation 0); LongImm (at0 dilation 1);
            IntImm (wrap32 g)]) in
    computeConv2d [ArgBuf inp; ArgBuf w; ArgBuf b; a3; a4; a5; ArgInt g]
      outputShape outputType = ok result
    /\ (in_int32 g -> wrap32 g = g)
    /\ (forall stride pad groups,
          conv2d_depthwise_bias inp w b stride pad groups <> ok result).
Proof.
  intros inp w b a3 a4 a5 g outputShape outputType strides padding dilation
    H3 H4 H5 Hfb. cbv zeta.
  refine (conj _ (conj (wrap32_id g) _)).
  - rewrite (computeConv2d_unfold _ _ _ _ _ _ _ _ _ _ _ _ H3 H4 H5).
    cbv zeta. unfold conv2d_external.
    destruct Hfb as [-> | [Hw | [Hb | (i & wi & bi & -> & -> & -> & Hrej)]]].
    + reflexivity.
    + rewrite Hw. now destruct (getTensorInfo inp).
    + rewrite Hb.
      now destruct (getTensorInfo inp), (getTensorInfo w).
    + now rewrite Hrej.
  - intros stride pad groups Hb. unfold conv2d_depthwise_bias in Hb.
    destruct (assert_dims_constant b) as [e|[]]; simpl in Hb;
      [discriminate|].
    apply static_builder_buffer in Hb as [Hname _]. discriminate Hname.
Qed.

Lemma computeConv2d_fallback_witness :
  computeConv2d (ex_inputs (ArgInt 1) (ArgInt 1) (ArgIntList [1; 1]) 1)
    [IntImm 1; IntImm 4; IntImm 8; IntImm 8] None
  = ok (mkTensor
          (mkBuf "conv" [IntImm 1; IntImm 4; IntImm 8; IntImm 8] Float)
          (ExternalCall
             (mkBuf "conv" [IntImm 1; IntImm 4; IntImm 8; IntImm 8] Float)
             "nnc_aten_conv2d" [ex_input; ex_weight; ex_bias]
             [LongImm 1; LongImm 1; LongImm 1; LongImm 1;
              LongImm 1; LongImm 1; IntImm 1])).
Proof.
  apply (computeConv2d_fallback ex_input ex_weight ex_bias
           (ArgInt 1) (ArgInt 1) (ArgIntList [1; 1]) 1
           [IntImm 1; IntImm 4; IntImm 8; IntImm 8] None
           [1; 1] [1; 1] [1; 1]); try reflexivity.
  right. right. right.
  exists ex_input_info, ex_weight_info, ex_bias_info.
  repeat split; reflexivity.
Defined.

(* ===================================================================== *)
(** * The dispatcher: specialized path *)
(* ===================================================================== *)

Lemma intValues_Forall2 (l : list Expr) (zs : list Z) :
  intValues l = Some zs -> Forall2 (fun e z => intValue e = Some z) l zs.
Proof.
  revert zs. induction l as [|e l IH]; simpl; intros zs H.
  - injection H as <-. constructor.
  - destruct (intValue e) as [v|] eqn:He; simpl in H; [|discriminate].
    destruct (intValues l) as [vs|]; simpl in H; [|discriminate].
    injection H as <-. constructor; auto.
Qed.

Lemma intValue_isConstant (e : Expr) (z : Z) :
  intValue e = Some z -> isConstant e = true.
Proof. destruct e; simpl; congruence. Qed.

Lemma getTensorInfo_constant (b : BufHandle) (i : TensorInfo) :
  getTensorInfo b = Some i -> forallb isConstant b.(buf_dims) = true.
Proof.
  unfold getTensorInfo.
  destruct (intValues (buf_dims b)) as [zs|] eqn:Hz; simpl; [|discriminate].
  intros _. apply intValues_Forall2 in Hz.
  induction Hz as [|e z l zs He _ IH]; simpl; [reflexivity|].
  now rewrite (intValue_isConstant e z He).
Qed.

Lemma getTensorInfo_dims (b : BufHandle) (i : TensorInfo) :
  getTensorInfo b = Some i ->
  Forall2 (fun e z => intValue e = Some z) b.(buf_dims) i.(dims).
Proof.
  unfold getTensorInfo.
  destruct (intValues (buf_dims b)) as [zs|] eqn:Hz; simpl; [|discriminate].
  intros H. injection H as <-. simpl. now apply intValues_Forall2.
Qed.

(** Reading a constant dimension as a C++ [int] gives the value the
    metadata records whenever that value fits an [int]. *)
Lemma immediateAs_int_of_intValue (e : Expr) (z : Z) :
  intValue e = Some z -> in_int32 z -> immediateAs_int e = ok z.
Proof.
  destruct e; simpl; try discriminate; intros H Hz; injection H as ->.
  - reflexivity.
  - now rewrite wrap32_id.
Qed.

Lemma immediateAs_int_total (e : Expr) (z : Z) :
  intValue e = Some z -> exists z', immediateAs_int e = ok z'.
Proof.
  destruct e; simpl; try discriminate; intros _; eauto.
Qed.

(** On the nest of a static reduction the loop transformation always
    succeeds. *)
Lemma static_slicing_total (input weight : BufHandle) (init_func : InitFunc)
    (stride pad : Z) (sh : StaticShape) :
  exists nest,
    static_slicing
      (mkLoopNest [static_conv input weight init_func stride pad sh])
      (static_conv input weight init_func stride pad sh)
      sh.(sR) stride pad = ok nest.
Proof.
  unfold static_slicing.
  destruct ((sR sh =? 3) && (stride =? 2) && (pad =? 1));
    [eexists; reflexivity|].
  destruct ((sR sh =? 3) && (stride =? 1) && (pad =? 1));
    eexists; reflexivity.
Qed.

Lemma static_extent_not_assert (H R pad stride : Z) :
  is_assert_failure (static_extent H R pad stride) = false.
Proof.
  unfold static_extent, int_div, div32.
  destruct (quot_defined 32 _ stride); reflexivity.
Qed.

Lemma int_div_not_assert (a b : Z) : is_assert_failure (int_div a b) = false.
Proof. unfold int_div, div32. destruct (quot_defined 32 a b); reflexivity. Qed.

Lemma quot_defined_spec (bits a b : Z) :
  quot_defined bits a b = true
  <-> b <> 0 /\ ~ (a = - 2 ^ (bits - 1) /\ b = -1).
Proof.
  unfold quot_defined.
  destruct (Z.eqb_spec b 0), (Z.eqb_spec a (- 2 ^ (bits - 1))),
    (Z.eqb_spec b (-1)); cbn; split; try discriminate; try tauto;
    intros [? ?]; intuition congruence.
Qed.

(** A quotient that fits 32 bits is defined at both widths. *)
Lemma quot_defined_in_range (bits a b : Z) :
  bits = 32 \/ bits = 64 ->
  b <> 0 -> in_int32 (Z.quot a b) -> quot_defined bits a b = true.
Proof.
  intros Hbits Hb Hq. apply quot_defined_spec. split; [exact Hb|].
  intros [-> ->]. unfold in_int32 in Hq.
  destruct Hbits as [-> | ->]; vm_compute in Hq; destruct Hq as [_ Hq];
    discriminate Hq.
Qed.

Lemma int_div_same (g : Z) : g <> 0 -> int_div g g = ok 1.
Proof.
  intros Hg. unfold int_div, div32.
  assert (Hd : quot_defined 32 g g = true).
  { apply quot_defined_spec. split; [exact Hg|].
    intros [E1 E2]. rewrite E2 in E1. discriminate E1. }
  rewrite Hd, Z.quot_same by exact Hg. reflexivity.
Qed.

Lemma Forall2_length4 (l : list Expr) (zs : list Z) :
  Forall2 (fun e z => intValue e = Some z) l zs ->
  List.length zs = 4%nat ->
  exists e0 e1 e2 e3,
    l = [e0; e1; e2; e3]
    /\ intValue e0 = Some (at0 zs 0) /\ intValue e1 = Some (at0 zs 1)
    /\ intValue e2 = Some (at0 zs 2) /\ intValue e3 = Some (at0 zs 3).
Proof.
  intros HF Hlen.
  destruct zs as [|z0 [|z1 [|z2 [|z3 [|z4 zs]]]]]; try discriminate.
  inversion HF as [|e0 ? l0 ? H0 HF0]; subst.
  inversion HF0 as [|e1 ? l1 ? H1 HF1]; subst.
  inversion HF1 as [|e2 ? l2 ? H2 HF2]; subst.
  inversion HF2 as [|e3 ? l3 ? H3 HF3]; subst.
  inversion HF3; subst.
  exists e0, e1, e2, e3. repeat split; assumption.
Qed.

Lemma static_builder_not_assert (input weight : BufHandle)
    (init_func : InitFunc) (stride pad groups : Z) :
  is_assert_failure (static_shape input weight stride pad groups) = false ->
  is_assert_failure
    (conv2d_depthwise_static input weight init_func stride pad groups)
  = false.
Proof.
  intros Hs. unfold conv2d_depthwise_static.
  destruct (static_shape input weight stride pad groups) as [e|sh];
    [exact Hs|].
  unfold bind at 1.
  destruct (static_slicing_total input weight init_func stride pad sh)
    as [nest Hn].
  cbv zeta. rewrite Hn. reflexivity.
Qed.

(** What the oracle's acceptance says about the operands the static
    builder reads: ranks, constant dimensions, and the constants C, K,
    CperG, R and S. *)
Lemma specialized_operands (inp w b : BufHandle) (i wi bi : TensorInfo)
    (strides padding dilation : list Z) (groups : Z) :
  getTensorInfo inp = Some i ->
  getTensorInfo w = Some wi ->
  getTensorInfo b = Some bi ->
  in_int32 groups ->
  conv2dIsSupported i wi bi strides padding dilation groups = true ->
  (ndim inp =? 4) = true /\ (ndim w =? 4) = true
  /\ assert_dims_constant inp = ok tt
  /\ assert_dims_constant w = ok tt
  /\ assert_dims_constant b = ok tt
  /\ exists N H W,
       immediateAs_int (dim inp 0) = ok N
       /\ immediateAs_int (dim inp 1) = ok groups
       /\ immediateAs_int (dim inp 2) = ok H
       /\ immediateAs_int (dim inp 3) = ok W
       /\ immediateAs_int (dim w 0) = ok groups
       /\ immediateAs_int (dim w 1) = ok 1
       /\ immediateAs_int (dim w 2) = ok 3
       /\ immediateAs_int (dim w 3) = ok 3.
Proof.
  intros Hi Hw Hb Hg Hsup.
  assert (Hchecks :
    check_ranks i wi bi /\ check_depthwise i wi groups /\ check_kernel wi).
  { revert Hsup. unfold conv2dIsSupported.
    rewrite conv2dIsSupported_log_cascade.
    rewrite check_ranks_spec, check_depthwise_spec, check_kernel_spec.
    repeat match goal with
           | |- context [if ?c then _ else _] => destruct c
           end; simpl; intuition congruence. }
  destruct Hchecks as ((Hri & Hrw & _) & (Hc1 & Hc2 & Hc3) & (Hk1 & Hk2)).
  destruct (Forall2_length4 _ _ (getTensorInfo_dims _ _ Hi) Hri)
    as (e0 & e1 & e2 & e3 & Hdi & E0 & E1 & E2 & E3).
  destruct (Forall2_length4 _ _ (getTensorInfo_dims _ _ Hw) Hrw)
    as (f0 & f1 & f2 & f3 & Hdw & F0 & F1 & F2 & F3).
  assert (Hsmall : forall z, 0 <= z <= 3 -> in_int32 z).
  { unfold in_int32. change (2 ^ 31) with 2147483648. lia. }
  rewrite Hc1, Hc2 in E1. rewrite Hc2 in F0. rewrite Hc3 in F1.
  rewrite Hk1 in F2. rewrite Hk2 in F3.
  destruct (immediateAs_int_total _ _ E0) as [N HN].
  destruct (immediateAs_int_total _ _ E2) as [H HH].
  destruct (immediateAs_int_total _ _ E3) as [W HW].
  unfold ndim, dim, assert_dims_constant.
  rewrite (getTensorInfo_constant _ _ Hi), (getTensorInfo_constant _ _ Hw),
    (getTensorInfo_constant _ _ Hb), Hdi, Hdw.
  cbn [List.length nth].
  repeat (split; [reflexivity|]).
  exists N, H, W.
  repeat split; try assumption;
    apply immediateAs_int_of_intValue; try assumption; apply Hsmall; lia.
Qed.

(** On accepted operands the static builder's assertions pass and only
    the extents and the channels per group remain to be computed. *)
Lemma specialized_static_shape (inp w b : BufHandle) (i wi bi : TensorInfo)
    (strides padding dilation : list Z) (groups : Z) :
  getTensorInfo inp = Some i ->
  getTensorInfo w = Some wi ->
  getTensorInfo b = Some bi ->
  in_int32 groups ->
  conv2dIsSupported i wi bi strides padding dilation groups = true ->
  exists N H W, forall stride pad,
    static_shape inp w stride pad groups
    = (OH <- static_extent H 3 pad stride ;;
       OW <- static_extent W 3 pad stride ;;
       Cg <- int_div groups groups ;;
       ok (mkStaticShape N groups H W groups 1 3 3 OH OW Cg)).
Proof.
  intros Hi Hw Hb Hg Hsup.
  destruct (specialized_operands _ _ _ _ _ _ _ _ _ _ Hi Hw Hb Hg Hsup)
    as (Hndi & Hndw & Hci & Hcw & _
        & N & H & W & HN & HC & HH & HW & HK & HG & HR & HS).
  exists N, H, W. intros stride pad. unfold static_shape.
  rewrite Hndi, Hndw, Hci, Hcw. cbn [TORCH_INTERNAL_ASSERT bind ok].
  rewrite HN, HC, HH, HW, HK, HG, HR, HS. cbn [bind ok].
  rewrite !Z.eqb_refl. reflexivity.
Qed.

(** C9. When [computeConv2d] takes the specialized path (metadata is
    available for input, weight and bias and the oracle accepts), every
    assertion of the static builder holds: input and weight have rank 4,
    the dimensions of input, weight and bias are constant,
    C == K == groups, CperG == 1 and R == S; so the call does not end in
    an assertion failure. *)
Theorem specialized_path_assertions_hold :
  forall (inp w b : BufHandle) (a3 a4 a5 : ArgValue) (g : Z)
         (outputShape : list Expr) (outputType : option ScalarType)
         (strides padding dilation : list Z) (i wi bi : TensorInfo),
    _pair_int a3 = ok strides ->
    _pair_int a4 = ok padding ->
    _pair_int a5 = ok dilation ->
    getTensorInfo inp = Some i ->
    getTensorInfo w = Some wi ->
    getTensorInfo b = Some bi ->
    conv2dIsSupported i wi bi strides padding dilation (wrap32 g) = true ->
    let stride := wrap32 (at0 strides 0) in
    let pad := wrap32 (at0 padding 0) in
    let groups := wrap32 g in
    let call :=
      computeConv2d [ArgBuf inp; ArgBuf w; ArgBuf b; a3; a4; a5; ArgInt g]
        outputShape outputType in
    call = conv2d_depthwise_bias inp w b stride pad groups
    /\ (ndim inp =? 4) = true /\ (ndim w =? 4) = true
    /\ assert_dims_constant inp = ok tt
    /\ assert_dims_constant w = ok tt
    /\ assert_dims_constant b = ok tt
    /\ (exists N C H W K CperG R S,
          immediateAs_int (dim inp 0) = ok N
          /\ immediateAs_int (dim inp 1) = ok C
          /\ immediateAs_int (dim inp 2) = ok H
          /\ immediateAs_int (dim inp 3) = ok W
          /\ immediateAs_int (dim w 0) = ok K
          /\ immediateAs_int (dim w 1) = ok CperG
          /\ immediateAs_int (dim w 2) = ok R
          /\ immediateAs_int (dim w 3) = ok S
          /\ (C =? K) && (K =? groups) && (CperG =? 1) = true
          /\ (R =? S) = true)
    /\ is_assert_failure call = false.
Proof.
  intros inp w b a3 a4 a5 g outputShape outputType strides padding dilation
    i wi bi H3 H4 H5 Hi Hw Hb Hsup. cbv zeta.
  assert (Hcall :
    computeConv2d [ArgBuf inp; ArgBuf w; ArgBuf b; a3; a4; a5; ArgInt g]
      outputShape outputType
    = conv2d_depthwise_bias inp w b (wrap32 (at0 strides 0))
        (wrap32 (at0 padding 0)) (wrap32 g)).
  { rewrite (computeConv2d_unfold _ _ _ _ _ _ _ _ _ _ _ _ H3 H4 H5).
    cbv zeta. now rewrite Hi, Hw, Hb, Hsup. }
  destruct (specialized_operands _ _ _ _ _ _ _ _ _ _ Hi Hw Hb
              (wrap32_range g) Hsup)
    as (Hndi & Hndw & Hci & Hcw & Hcb
        & N & H & W & HN & HC & HH & HW & HK & HG & HR & HS).
  refine (conj Hcall (conj Hndi (conj Hndw (conj Hci (conj Hcw
            (conj Hcb (conj _ _))))))).
  - exists N, (wrap32 g), H, W, (wrap32 g), 1, 3, 3.
    rewrite !Z.eqb_refl. repeat split; assumption.
  - rewrite Hcall. unfold conv2d_depthwise_bias. rewrite Hcb. cbn [bind].
    apply static_builder_not_assert.
    destruct (specialized_static_shape _ _ _ _ _ _ _ _ _ _ Hi Hw Hb
                (wrap32_range g) Hsup) as (N' & H' & W' & Hshape).
    rewrite Hshape.
    pose proof (static_extent_not_assert H' 3 (wrap32 (at0 padding 0))
                  (wrap32 (at0 strides 0))) as A1.
    destruct (static_extent H' 3 _ _) as [x1|OH]; [exact A1|].
    pose proof (static_extent_not_assert W' 3 (wrap32 (at0 padding 0))
                  (wrap32 (at0 strides 0))) as A2.
    destruct (static_extent W' 3 _ _) as [x2|OW]; [exact A2|].
    pose proof (int_div_not_assert (wrap32 g) (wrap32 g)) as A3.
    destruct (int_div (wrap32 g) (wrap32 g)) as [x3|Cg]; [exact A3|].
    reflexivity.
Qed.

Lemma specialized_path_assertions_hold_witness :
  (ndim ex_input =? 4) = true
  /\ is_assert_failure
       (computeConv2d (ex_inputs (ArgInt 1) (ArgInt 1) (ArgIntList [1; 1]) 4)
          [] None) = false.
Proof.
  destruct (specialized_path_assertions_hold ex_input ex_weight ex_bias
              (ArgInt 1) (ArgInt 1) (ArgIntList [1; 1]) 4 [] None
              [1; 1] [1; 1] [1; 1] ex_input_info ex_weight_info ex_bias_info
              eq_refl eq_refl eq_refl eq_refl eq_refl eq_refl eq_refl)
    as (_ & Hn & _ & _ & _ & _ & _ & Hok).
  exact (conj Hn Hok).
Defined.

(* ===================================================================== *)
(** * Integer evaluation of index expressions *)
(* ===================================================================== *)

Lemma eval_binop_int (op : BinOp) (a b : Value) (x y z : Z) :
  int_of_value a = Some x -> int_of_value b = Some y ->
  (forall bits, bits = 32 \/ bits = 64 -> int_op bits op x y = Some z) ->
  in_int32 z ->
  exists v, eval_binop op a b = Some v /\ int_of_value v = Some z.
Proof.
  intros Ha Hb Hop Hz.
  destruct a as [a|a|a], b as [b|b|b]; simpl in Ha, Hb; try discriminate;
    injection Ha as ->; injection Hb as ->; cbn [eval_binop];
    rewrite ?(Hop 32 (or_introl eq_refl)), ?(Hop 64 (or_intror eq_refl));
    simpl;
    eexists; (split; [reflexivity|]); simpl;
    rewrite ?(wrap32_id z Hz), ?(wrap64_id z (in_int32_int64 z Hz));
    reflexivity.
Qed.

Section EvalInt.
Variables (env : Env) (mem : Mem).

Lemma eval_int_node (op : BinOp) (node : Expr -> Expr -> Expr)
    (a b : Expr) (x y z : Z) :
  (forall v w,
      eval env mem a = Some v -> eval env mem b = Some w ->
      eval env mem (node a b) = eval_binop op v w) ->
  eval_int env mem a = Some x -> eval_int env mem b = Some y ->
  (forall bits, bits = 32 \/ bits = 64 -> int_op bits op x y = Some z) ->
  in_int32 z ->
  eval_int env mem (node a b) = Some z.
Proof.
  unfold eval_int. intros Hnode Ha Hb Hop Hz.
  destruct (eval env mem a) as [va|] eqn:Ea; simpl in Ha; [|discriminate].
  destruct (eval env mem b) as [vb|] eqn:Eb; simpl in Hb; [|discriminate].
  rewrite (Hnode va vb eq_refl eq_refl).
  destruct (eval_binop_int op va vb x y z Ha Hb Hop Hz) as (v & -> & Hv).
  exact Hv.
Qed.

Lemma eval_int_Add (a b : Expr) (x y : Z) :
  eval_int env mem a = Some x -> eval_int env mem b = Some y ->
  in_int32 (x + y) -> eval_int env mem (Add a b) = Some (x + y).
Proof.
  intros Ha Hb Hz. apply (eval_int_node OpAdd Add a b x y); auto.
  intros v w Ev Ew. simpl. now rewrite Ev, Ew.
Qed.

Lemma eval_int_Sub (a b : Expr) (x y : Z) :
  eval_int env mem a = Some x -> eval_int env mem b = Some y ->
  in_int32 (x - y) -> eval_int env mem (Sub a b) = Some (x - y).
Proof.
  intros Ha Hb Hz. apply (eval_int_node OpSub Sub a b x y); auto.
  intros v w Ev Ew. simpl. now rewrite Ev, Ew.
Qed.

Lemma eval_int_Mul (a b : Expr) (x y : Z) :
  eval_int env mem a = Some x -> eval_int env mem b = Some y ->
  in_int32 (x * y) -> eval_int env mem (Mul a b) = Some (x * y).
Proof.
  intros Ha Hb Hz. apply (eval_int_node OpMul Mul a b x y); auto.
  intros v w Ev Ew. simpl. now rewrite Ev, Ew.
Qed.


End EvalInt.

(* ===================================================================== *)
(** * Output extents *)
(* ===================================================================== *)

Lemma static_extent_exact (H R pad stride : Z) :
  stride <> 0 ->
  extent_no_overflow H R pad stride ->
  static_extent H R pad stride = ok (Z.quot (H - R + 2 * pad) stride + 1).
Proof.
  intros Hs (F1 & F2 & F3 & F4 & F5).
  unfold static_extent, int_div, div32, add32, sub32, mul32.
  rewrite (wrap32_id (H - R) F1), (wrap32_id (2 * pad) F2),
    (wrap32_id _ F3).
  rewrite (quot_defined_in_range 32 _ _ (or_introl eq_refl) Hs F4).
  rewrite (wrap32_id _ F4).
  unfold bind, ok. now rewrite (wrap32_id _ F5).
Qed.




(** On a negative dividend that the stride does not divide, C++ division
    rounds toward zero: the extent is not the floor formula, in either
    variant. *)
Example output_extent_truncates_toward_zero :
  static_extent 2 3 0 2 = ok 1
  /\ eval_int [] (fun _ _ => f32_zero)
       (dynamic_extent (IntImm 2) (IntImm 3) (IntImm 0) (IntImm 2)) = Some 1
  /\ (2 - 3 + 2 * 0) / 2 + 1 = 0.
Proof. repeat split. Qed.

(* ===================================================================== *)
(** * The per-element contribution *)
(* ===================================================================== *)

Lemma eval_int_value (env : Env) (mem : Mem) (e : Expr) (z : Z) :
  eval_int env mem e = Some z ->
  exists v, eval env mem e = Some v /\ int_of_value v = Some z.
Proof.
  unfold eval_int. destruct (eval env mem e) as [v|]; simpl; [|discriminate].
  intros H. now exists v.
Qed.

Lemma eval_compare_int (op : CompareSelectOperation) (a b : Value) (x y : Z) :
  int_of_value a = Some x -> int_of_value b = Some y ->
  eval_compare op a b = Some (cmp_holds op (x ?= y)).
Proof.
  destruct a, b; simpl; intros Ha Hb; try discriminate;
    injection Ha as ->; injection Hb as ->; reflexivity.
Qed.

Lemma eval_CompareSelect_int (env : Env) (mem : Mem) (lhs rhs ret2 : Expr)
    (op : CompareSelectOperation) (x y c : Z) :
  eval_int env mem lhs = Some x -> eval_int env mem rhs = Some y ->
  eval env mem ret2 = Some (VInt c) ->
  eval env mem (CompareSelect lhs rhs (IntImm 1) ret2 op)
  = Some (VInt (if cmp_holds op (x ?= y) then 1 else c)).
Proof.
  intros Hl Hr H2.
  destruct (eval_int_value _ _ _ _ Hl) as (vl & El & Il).
  destruct (eval_int_value _ _ _ _ Hr) as (vr & Er & Ir).
  simpl. rewrite El, Er, H2. simpl.
  rewrite (eval_compare_int op vl vr x y Il Ir). simpl.
  now destruct (cmp_holds op (x ?= y)).
Qed.

Lemma eval_Load4 (env : Env) (mem : Mem) (b : string) (e1 e2 e3 e4 : Expr)
    (z1 z2 z3 z4 : Z) :
  eval_int env mem e1 = Some z1 -> eval_int env mem e2 = Some z2 ->
  eval_int env mem e3 = Some z3 -> eval_int env mem e4 = Some z4 ->
  eval env mem (Load b [e1; e2; e3; e4])
  = Some (VFloat (mem b [z1; z2; z3; z4])).
Proof.
  intros H1 H2 H3 H4.
  destruct (eval_int_value _ _ _ _ H1) as (v1 & E1 & I1).
  destruct (eval_int_value _ _ _ _ H2) as (v2 & E2 & I2).
  destruct (eval_int_value _ _ _ _ H3) as (v3 & E3 & I3).
  destruct (eval_int_value _ _ _ _ H4) as (v4 & E4 & I4).
  simpl. rewrite E1, E2, E3, E4. simpl. rewrite I1, I2, I3, I4. reflexivity.
Qed.

Lemma out_of_bounds_select (ih iw H W : Z) :
  (if cmp_holds kGE (iw ?= W) then 1
   else if cmp_holds kGE (ih ?= H) then 1
        else if cmp_holds kLT (iw ?= 0) then 1
             else if cmp_holds kLT (ih ?= 0) then 1 else 0)
  = if out_of_bounds ih iw H W then 1 else 0.
Proof.
  unfold out_of_bounds, Z.ltb, Z.geb.
  destruct (iw ?= W), (ih ?= H), (iw ?= 0), (ih ?= 0); reflexivity.
Qed.

Lemma index_expr_eval (env : Env) (mem : Mem) (o se pe k : Expr)
    (ov stride pad kv : Z) :
  eval_int env mem o = Some ov -> eval_int env mem se = Some stride ->
  eval_int env mem pe = Some pad -> eval_int env mem k = Some kv ->
  index_fits ov stride pad kv ->
  eval_int env mem (Add (Sub (Mul o se) pe) k) = Some (ov * stride - pad + kv).
Proof.
  intros Ho Hs Hp Hk (F1 & F2 & F3).
  apply eval_int_Add; [|exact Hk|exact F3].
  apply eval_int_Sub; [|exact Hp|exact F2].
  now apply eval_int_Mul.
Qed.

(** The body of the dynamic builder evaluates to the masked input times the
    weight. *)
Lemma dynamic_body_eval (input weight : BufHandle) (env : Env) (mem : Mem)
    (He We se pe : Expr) (v : list Expr)
    (n k oh ow c r s H W stride pad : Z) :
  Forall2 (fun e z => eval_int env mem e = Some z) v [n; k; oh; ow; c; r; s] ->
  eval_int env mem He = Some H -> eval_int env mem We = Some W ->
  eval_int env mem se = Some stride -> eval_int env mem pe = Some pad ->
  index_fits oh stride pad r -> index_fits ow stride pad s ->
  let ih := oh * stride - pad + r in
  let iw := ow * stride - pad + s in
  eval env mem (dynamic_body input weight He We se pe v)
  = Some (VFloat
            (f32_mul
               (if out_of_bounds ih iw H W then f32_zero
                else mem input.(buf_name) [n; k; ih; iw])
               (mem weight.(buf_name) [k; c; r; s]))).
Proof.
  intros Hv EH EW Es Ep Fh Fw ih iw.
  inversion Hv as [|en ? v1 ? Hn Hv1]; subst.
  inversion Hv1 as [|ek ? v2 ? Hk Hv2]; subst.
  inversion Hv2 as [|eoh ? v3 ? Hoh Hv3]; subst.
  inversion Hv3 as [|eow ? v4 ? How Hv4]; subst.
  inversion Hv4 as [|ec ? v5 ? Hc Hv5]; subst.
  inversion Hv5 as [|er ? v6 ? Hr Hv6]; subst.
  inversion Hv6 as [|es ? v7 ? Hs Hv7]; subst.
  inversion Hv7; subst.
  unfold dynamic_body, load. cbn [nth].
  pose proof (index_expr_eval env mem eoh se pe er oh stride pad r
                Hoh Es Ep Hr Fh) as Eih.
  pose proof (index_expr_eval env mem eow se pe es ow stride pad s
                How Es Ep Hs Fw) as Eiw.
  fold ih in Eih. fold iw in Eiw.
  set (IH := Add (Sub (Mul eoh se) pe) er) in *.
  set (IW := Add (Sub (Mul eow se) pe) es) in *.
  assert (Econd :
    eval env mem
      (CompareSelect IW We (IntImm 1)
         (CompareSelect IH He (IntImm 1)
            (CompareSelect IW (IntImm 0) (IntImm 1)
               (CompareSelect IH (IntImm 0) (IntImm 1) (IntImm 0) kLT) kLT)
            kGE) kGE)
    = Some (VInt (if out_of_bounds ih iw H W then 1 else 0))).
  { rewrite <- out_of_bounds_select.
    apply eval_CompareSelect_int; [exact Eiw|exact EW|].
    apply eval_CompareSelect_int; [exact Eih|exact EH|].
    apply eval_CompareSelect_int; [exact Eiw|reflexivity|].
    apply eval_CompareSelect_int; [exact Eih|reflexivity|reflexivity]. }
  pose proof (eval_Load4 env mem (buf_name input) en ek IH IW n k ih iw
                Hn Hk Eih Eiw) as Ein.
  pose proof (eval_Load4 env mem (buf_name weight) ek ec er es k c r s
                Hk Hc Hr Hs) as Ewt.
  change (eval env mem (Mul ?a ?b))
    with (opt_bind (eval env mem a)
            (fun x => opt_bind (eval env mem b) (fun y => eval_binop OpMul x y))).
  change (eval env mem (IfThenElse ?c ?t ?f))
    with (opt_bind (eval env mem c)
            (fun vc => opt_bind (int_of_value vc)
               (fun z => if z =? 0 then eval env mem f else eval env mem t))).
  rewrite Econd, Ewt. cbn [opt_bind int_of_value].
  destruct (out_of_bounds ih iw H W); cbn [Z.eqb].
  - reflexivity.
  - rewrite Ein. reflexivity.
Qed.

Lemma static_body_is_dynamic_body (input weight : BufHandle)
    (H W stride pad : Z) (v : list Expr) :
  static_body input weight H W stride pad v
  = dynamic_body input weight (IntImm H) (IntImm W) (IntImm stride)
      (IntImm pad) v.
Proof. reflexivity. Qed.

Lemma f32_zero_mul_finite (w : float32) :
  f32_is_finite w = true -> f32_is_zero (f32_mul f32_zero w) = true.
Proof. destruct w; simpl; intros H; try discriminate; reflexivity. Qed.

(** C1 (as amended). For output indices (n,k,oh,ow) and reduction indices
    (c,r,s), with ih = oh*stride - pad + r and iw = ow*stride - pad + s, the
    contribution built by the static and by the dynamic builder is
    [input[n,k,ih,iw] * weight[k,c,r,s]] when (ih,iw) is within
    [0,H) x [0,W), and [0.f * weight[k,c,r,s]] when ih < 0 or iw < 0 or
    ih >= H or iw >= W: a zero for every finite weight, NaN for an infinite
    or NaN weight. *)
Theorem contribution_is_masked_product :
  forall (input weight : BufHandle) (env : Env) (mem : Mem) (v : list Expr)
         (n k oh ow c r s H W stride pad : Z),
    Forall2 (fun e z => eval_int env mem e = Some z) v
      [n; k; oh; ow; c; r; s] ->
    index_fits oh stride pad r ->
    index_fits ow stride pad s ->
    let ih := oh * stride - pad + r in
    let iw := ow * stride - pad + s in
    let x := mem input.(buf_name) [n; k; ih; iw] in
    let wt := mem weight.(buf_name) [k; c; r; s] in
    let contribution :=
      if out_of_bounds ih iw H W then f32_mul f32_zero wt else f32_mul x wt in
    eval env mem (static_body input weight H W stride pad v)
    = Some (VFloat contribution)
    /\ (forall He We se pe : Expr,
           eval_int env mem He = Some H -> eval_int env mem We = Some W ->
           eval_int env mem se = Some stride ->
           eval_int env mem pe = Some pad ->
           eval env mem (dynamic_body input weight He We se pe v)
           = Some (VFloat contribution))
    /\ (out_of_bounds ih iw H W = true -> f32_is_finite wt = true ->
        f32_is_zero contribution = true)
    /\ (out_of_bounds ih iw H W = true -> f32_is_finite wt = false ->
        contribution = S754_nan).
Proof.
  intros input weight env mem v n k oh ow c r s H W stride pad Hv Fh Fw.
  cbv zeta.
  assert (Hdyn : forall He We se pe : Expr,
    eval_int env mem He = Some H -> eval_int env mem We = Some W ->
    eval_int env mem se = Some stride -> eval_int env mem pe = Some pad ->
    eval env mem (dynamic_body input weight He We se pe v)
    = Some (VFloat
        (if out_of_bounds (oh * stride - pad + r) (ow * stride - pad + s) H W
         then f32_mul f32_zero (mem (buf_name weight) [k; c; r; s])
         else f32_mul
                (mem (buf_name input)
                   [n; k; oh * stride - pad + r; ow * stride - pad + s])
                (mem (buf_name weight) [k; c; r; s])))).
  { intros He We se pe EH EW Es Ep.
    rewrite (dynamic_body_eval input weight env mem He We se pe v
               n k oh ow c r s H W stride pad Hv EH EW Es Ep Fh Fw).
    now destruct (out_of_bounds _ _ H W). }
  refine (conj _ (conj Hdyn (conj _ _))).
  - rewrite static_body_is_dynamic_body. apply Hdyn; reflexivity.
  - intros -> Hfin. now apply f32_zero_mul_finite.
  - intros -> Hinf.
    destruct (mem (buf_name weight) [k; c; r; s]); simpl in Hinf;
      try discriminate; reflexivity.
Qed.

Lemma contribution_is_masked_product_witness :
  eval (index_env 0 2 0 5 0 0 1) ex_mem_one
    (static_body ex_input ex_weight 8 8 1 1 index_vars)
  = Some (VFloat f32_zero).
Proof.
  destruct (contribution_is_masked_product ex_input ex_weight
              (index_env 0 2 0 5 0 0 1) ex_mem_one index_vars
              0 2 0 5 0 0 1 8 8 1 1) as (Hs & _).
  - repeat constructor.
  - repeat split; now vm_compute.
  - repeat split; now vm_compute.
  - exact Hs.
Defined.

(** The zero-padding law fails as worded: with an infinite weight the
    out-of-bounds contribution [0.f * weight] is NaN. *)
Lemma zero_padding_law_fails : ~ zero_padding_law.
Proof.
  intros Hlaw.
  destruct (Hlaw ex_input ex_weight ex_mem_inf 0 2 0 5 0 0 1 8 8 1 1)
    as (z & Hz & Hzero).
  - repeat split; now vm_compute.
  - repeat split; now vm_compute.
  - reflexivity.
  - vm_compute in Hz. injection Hz as <-. discriminate Hzero.
Qed.

Lemma zero_padding_counterexample :
  out_of_bounds (0 * 1 - 1 + 0) (5 * 1 - 1 + 1) 8 8 = true
  /\ eval (index_env 0 2 0 5 0 0 1) ex_mem_inf
       (static_body ex_input ex_weight 8 8 1 1 index_vars)
     = Some (VFloat S754_nan)
  /\ f32_is_zero S754_nan = false.
Proof. repeat split. Qed.

(* ===================================================================== *)
(** * The dynamic builder *)
(* ===================================================================== *)

Lemma depthwise_reduction_stmt (input weight : BufHandle)
    (init_func : InitFunc) (N K OH OW Cg R S H W stride pad : Expr) :
  (depthwise_reduction input weight init_func N K OH OW Cg R S H W stride pad)
    .(stmt)
  = depthwise_nest input weight init_func N K OH OW Cg R S H W stride pad.
Proof. reflexivity. Qed.

Lemma static_conv_is_depthwise_reduction (input weight : BufHandle)
    (init_func : InitFunc) (stride pad : Z) (sh : StaticShape) :
  static_conv input weight init_func stride pad sh
  = depthwise_reduction input weight init_func
      (IntImm sh.(sN)) (IntImm sh.(sK)) (IntImm sh.(sOH)) (IntImm sh.(sOW))
      (IntImm sh.(sCg)) (IntImm sh.(sR)) (IntImm sh.(sS))
      (IntImm sh.(sH)) (IntImm sh.(sW)) (IntImm stride) (IntImm pad).
Proof. reflexivity. Qed.

(** On constants the symbolic extent evaluates to what the static builder
    computes, wrap-around and undefined division included. *)
Lemma dynamic_extent_matches_static (env : Env) (mem : Mem)
    (H R pad stride : Z) :
  match static_extent H R pad stride with
  | inr OH =>
      eval env mem
        (dynamic_extent (IntImm H) (IntImm R) (IntImm pad) (IntImm stride))
      = Some (VInt OH)
  | inl _ =>
      eval env mem
        (dynamic_extent (IntImm H) (IntImm R) (IntImm pad) (IntImm stride))
      = None
  end.
Proof.
  unfold static_extent, int_div, div32, dynamic_extent, add32, sub32, mul32.
  cbn [eval opt_bind eval_binop int_op].
  replace (pad * 2) with (2 * pad) by lia.
  destruct (quot_defined 32 _ stride); reflexivity.
Qed.

Lemma static_shape_extents (input weight : BufHandle)
    (stride pad groups : Z) (sh : StaticShape) :
  static_shape input weight stride pad groups = ok sh ->
  static_extent sh.(sH) sh.(sR) pad stride = ok sh.(sOH)
  /\ static_extent sh.(sW) sh.(sS) pad stride = ok sh.(sOW)
  /\ int_div sh.(sC) groups = ok sh.(sCg).
Proof.
  unfold static_shape.
  repeat match goal with
         | |- bind ?m _ = _ -> _ =>
             let x := fresh "x" in let E := fresh "E" in
             destruct m as [?|x] eqn:E; cbn [bind]; [discriminate|]
         end.
  intros Hsh. injection Hsh as <-. cbn. auto.
Qed.

(** C8 (as amended). The dynamic builder makes no constant-shape assertion
    on the input or the weight and applies no loop transformation: with
    operands of rank 4, whatever their dimensions, the overload without
    bias returns the plain loop nest of the reduction; the overload with
    bias does the same when the dimensions of the bias are constant and
    fails its assertion otherwise.  The reduction is the one of the static
    variant: the static builder states the same reduction over the
    constants it derived. *)
Theorem dynamic_builder_no_assert_no_slicing :
  forall (input weight bias : BufHandle)
         (N C H W K CperG R S stride pad groups : Expr),
    ndim input = 4 -> ndim weight = 4 ->
    let red := fun init =>
      depthwise_reduction input weight init N K
        (dynamic_extent H R pad stride) (dynamic_extent W S pad stride)
        (Div C groups) R S H W stride pad in
    conv2d_depthwise_nobias_dyn input weight
      N C H W K CperG R S stride pad groups = ok (red zero_init)
    /\ conv2d_depthwise_bias_dyn input weight bias
         N C H W K CperG R S stride pad groups
       = (if forallb isConstant bias.(buf_dims)
          then ok (red (bias_init bias))
          else fail (InternalAssert "dim->isConstant()"))
    /\ (forall init,
          (red init).(stmt)
          = depthwise_nest input weight init N K
              (dynamic_extent H R pad stride) (dynamic_extent W S pad stride)
              (Div C groups) R S H W stride pad)
    /\ (forall init s p g sh,
          static_shape input weight s p g = ok sh ->
          static_conv input weight init s p sh
          = depthwise_reduction input weight init
              (IntImm sh.(sN)) (IntImm sh.(sK))
              (IntImm sh.(sOH)) (IntImm sh.(sOW))
              (IntImm sh.(sCg)) (IntImm sh.(sR)) (IntImm sh.(sS))
              (IntImm sh.(sH)) (IntImm sh.(sW)) (IntImm s) (IntImm p)
          /\ forall env mem,
               eval env mem
                 (dynamic_extent (IntImm sh.(sH)) (IntImm sh.(sR))
                    (IntImm p) (IntImm s)) = Some (VInt sh.(sOH))
               /\ eval env mem
                    (dynamic_extent (IntImm sh.(sW)) (IntImm sh.(sS))
                       (IntImm p) (IntImm s)) = Some (VInt sh.(sOW))).
Proof.
  intros input weight bias N C H W K CperG R S stride pad groups Hi Hw.
  cbv zeta. refine (conj _ (conj _ (conj _ _))).
  - unfold conv2d_depthwise_nobias_dyn, conv2d_depthwise_dynamic.
    rewrite Hi, Hw. reflexivity.
  - unfold conv2d_depthwise_bias_dyn, conv2d_depthwise_dynamic,
      assert_dims_constant.
    rewrite Hi, Hw. now destruct (forallb isConstant (buf_dims bias)).
  - intros init. reflexivity.
  - intros init s p g sh Hsh. split; [reflexivity|]. intros env mem.
    destruct (static_shape_extents _ _ _ _ _ _ Hsh) as (EH & EW & _).
    pose proof (dynamic_extent_matches_static env mem (sH sh) (sR sh) p s)
      as DH.
    pose proof (dynamic_extent_matches_static env mem (sW sh) (sS sh) p s)
      as DW.
    rewrite EH in DH. rewrite EW in DW. now split.
Qed.

Lemma dynamic_builder_no_assert_no_slicing_witness :
  conv2d_depthwise_nobias_dyn
    (mkBuf "input" [Var "N"; Var "C"; Var "H"; Var "W"] Float)
    (mkBuf "weight" [Var "K"; IntImm 1; IntImm 3; IntImm 3] Float)
    (Var "N") (Var "C") (Var "H") (Var "W") (Var "K") (IntImm 1)
    (IntImm 3) (IntImm 3) (Var "stride") (Var "pad") (Var "C")
  = ok (depthwise_reduction
          (mkBuf "input" [Var "N"; Var "C"; Var "H"; Var "W"] Float)
          (mkBuf "weight" [Var "K"; IntImm 1; IntImm 3; IntImm 3] Float)
          zero_init (Var "N") (Var "K")
          (dynamic_extent (Var "H") (IntImm 3) (Var "pad") (Var "stride"))
          (dynamic_extent (Var "W") (IntImm 3) (Var "pad") (Var "stride"))
          (Div (Var "C") (Var "C")) (IntImm 3) (IntImm 3)
          (Var "H") (Var "W") (Var "stride") (Var "pad")).
Proof.
  destruct (dynamic_builder_no_assert_no_slicing
              (mkBuf "input" [Var "N"; Var "C"; Var "H"; Var "W"] Float)
              (mkBuf "weight" [Var "K"; IntImm 1; IntImm 3; IntImm 3] Float)
              ex_bias_sym
              (Var "N") (Var "C") (Var "H") (Var "W") (Var "K") (IntImm 1)
              (IntImm 3) (IntImm 3) (Var "stride") (Var "pad") (Var "C")
              eq_refl eq_refl) as (Hn & _).
  exact Hn.
Defined.

(** The overload with bias does assert a constant shape: on a bias whose
    dimension is symbolic it fails, although input and weight have rank 4. *)
Lemma dynamic_bias_asserts_constant_counterexample :
  conv2d_depthwise_bias_dyn ex_input ex_weight ex_bias_sym
    (IntImm 1) (IntImm 4) (IntImm 8) (IntImm 8) (Var "K") (IntImm 1)
    (IntImm 3) (IntImm 3) (IntImm 1) (IntImm 1) (IntImm 4)
  = fail (InternalAssert "dim->isConstant()").
Proof. reflexivity. Qed.

(* ===================================================================== *)
(** * Execution of loop nests *)
(* ===================================================================== *)

Lemma exec_Block (env : Env) (ss : list Stmt) (m : Mem) :
  exec env (Block ss) m = exec_block env ss m.
Proof.
  revert m. induction ss as [|c ss IH]; intros m; [reflexivity|].
  change (exec env (Block (c :: ss)) m)
    with (opt_bind (exec env c m) (fun m1 => exec env (Block ss) m1)).
  simpl. destruct (exec env c m) as [m1|]; simpl; [apply IH|reflexivity].
Qed.

Lemma for_range_ext (f g : Z -> Mem -> option Mem) :
  (forall i m, f i m = g i m) ->
  forall n i m, for_range n i f m = for_range n i g m.
Proof.
  intros Hfg n. induction n as [|n IH]; intros i m; simpl; [reflexivity|].
  rewrite Hfg. destruct (g i m); simpl; auto.
Qed.

Lemma for_range_app (f : Z -> Mem -> option Mem) (n1 n2 : nat) :
  forall i m,
    for_range (n1 + n2) i f m
    = opt_bind (for_range n1 i f m) (for_range n2 (i + Z.of_nat n1) f).
Proof.
  induction n1 as [|n1 IH]; intros i m.
  - simpl. now rewrite Z.add_0_r.
  - change (for_range (S n1 + n2) i f m)
      with (opt_bind (f i m) (for_range (n1 + n2) (i + 1) f)).
    change (for_range (S n1) i f m)
      with (opt_bind (f i m) (for_range n1 (i + 1) f)).
    destruct (f i m) as [m1|]; simpl; [|reflexivity].
    rewrite IH. now replace (i + 1 + Z.of_nat n1) with (i + Z.pos (Pos.of_succ_nat n1)) by lia.
Qed.

Lemma exec_For (env : Env) (x : string) (a b : Expr) (body : list Stmt)
    (m : Mem) :
  exec env (For x a b body) m
  = (va <-? eval env m a ;; lo <-? int_of_value va ;;
     vb <-? eval env m b ;; hi <-? int_of_value vb ;;
     for_range (Z.to_nat (hi - lo)) lo (loop_body env x va body) m).
Proof.
  simpl. destruct (eval env m a) as [va|]; simpl; [|reflexivity].
  destruct (int_of_value va) as [lo|]; simpl; [|reflexivity].
  destruct (eval env m b) as [vb|]; simpl; [|reflexivity].
  destruct (int_of_value vb) as [hi|]; simpl; [|reflexivity].
  apply for_range_ext. intros i m0. unfold loop_body.
  rewrite <- exec_Block. reflexivity.
Qed.

Lemma exec_block_app (env : Env) (l1 l2 : list Stmt) (m : Mem) :
  exec_block env (l1 ++ l2) m
  = opt_bind (exec_block env l1 m) (exec_block env l2).
Proof.
  revert m. induction l1 as [|c l1 IH]; intros m; simpl; [reflexivity|].
  destruct (exec env c m); simpl; auto.
Qed.

Lemma exec_with_children (s : Stmt) (cs : list Stmt) :
  block_equiv cs (children s) ->
  forall env m, exec env (with_children s cs) m = exec env s m.
Proof.
  intros Heq env m. destruct s as [b i v|x a b body|ss|]; simpl in Heq.
  - reflexivity.
  - cbn [with_children]. rewrite !exec_For.
    destruct (eval env m a) as [va|]; simpl; [|reflexivity].
    destruct (int_of_value va) as [lo|]; simpl; [|reflexivity].
    destruct (eval env m b) as [vb|]; simpl; [|reflexivity].
    destruct (int_of_value vb) as [hi|]; simpl; [|reflexivity].
    apply for_range_ext. intros i m0. apply Heq.
  - cbn [with_children]. rewrite !exec_Block. apply Heq.
  - reflexivity.
Qed.

Lemma splice_nth_equiv (g : Stmt -> list Stmt) (c : Stmt) :
  block_equiv (g c) [c] ->
  forall cs i, nth_error cs i = Some c -> block_equiv (splice_nth g i cs) cs.
Proof.
  intros Hg cs. induction cs as [|d cs IH]; intros i Hi env m.
  - destruct i; discriminate.
  - destruct i as [|i]; simpl in Hi.
    + injection Hi as ->. cbn [splice_nth]. rewrite exec_block_app.
      rewrite (Hg env m). simpl. now destruct (exec env c m).
    + cbn [splice_nth]. simpl. destruct (exec env d m); simpl; [|reflexivity].
      now apply IH.
Qed.

Lemma update_nth_equiv (f : Stmt -> Stmt) (c : Stmt) :
  (forall env m, exec env (f c) m = exec env c m) ->
  forall cs i, nth_error cs i = Some c -> block_equiv (update_nth f i cs) cs.
Proof.
  intros Hf cs. induction cs as [|d cs IH]; intros i Hi env m.
  - destruct i; discriminate.
  - destruct i as [|i]; simpl in Hi.
    + injection Hi as ->. cbn [update_nth]. simpl. now rewrite Hf.
    + cbn [update_nth]. simpl. destruct (exec env d m); simpl; [|reflexivity].
      now apply IH.
Qed.

(** Replacing a statement of the nest by statements with the same effect
    does not change the effect of the nest. *)
Lemma exec_splice_at (g : Stmt -> list Stmt) (c : Stmt) :
  block_equiv (g c) [c] ->
  forall p s, p <> [] -> stmt_at s p = Some c ->
  forall env m, exec env (splice_at g p s) m = exec env s m.
Proof.
  intros Hg p. induction p as [|i p IH]; intros s Hp Hat; [contradiction|].
  cbn [stmt_at] in Hat.
  destruct (nth_error (children s) i) as [ci|] eqn:Hi; [|discriminate].
  destruct p as [|j p].
  - cbn [stmt_at] in Hat. injection Hat as ->.
    cbn [splice_at]. apply exec_with_children.
    now apply (splice_nth_equiv g c Hg).
  - change (splice_at g (i :: j :: p) s)
      with (with_children s
              (update_nth (splice_at g (j :: p)) i (children s))).
    apply exec_with_children.
    apply (update_nth_equiv _ ci); [|exact Hi].
    apply IH; [discriminate|exact Hat].
Qed.

(* ===================================================================== *)
(** * Peeling preserves the effect of a loop *)
(* ===================================================================== *)

Lemma opt_bind_Some {A : Type} (x : option A) : opt_bind x Some = x.
Proof. now destruct x. Qed.

Lemma for_range_split (f : Z -> Mem -> option Mem) (lo mid hi : Z) (m : Mem) :
  lo <= mid <= hi \/ (hi <= lo /\ (mid = lo \/ mid = hi)) ->
  for_range (Z.to_nat (hi - lo)) lo f m
  = opt_bind (for_range (Z.to_nat (mid - lo)) lo f m)
      (for_range (Z.to_nat (hi - mid)) mid f).
Proof.
  intros [Hmid | [Hempty Hm]].
  - replace (Z.to_nat (hi - lo))
      with (Z.to_nat (mid - lo) + Z.to_nat (hi - mid))%nat by lia.
    rewrite for_range_app.
    now replace (lo + Z.of_nat (Z.to_nat (mid - lo))) with mid by lia.
  - replace (Z.to_nat (hi - lo)) with 0%nat by lia.
    replace (Z.to_nat (mid - lo)) with 0%nat by lia.
    replace (Z.to_nat (hi - mid)) with 0%nat by lia.
    reflexivity.
Qed.

Lemma const_int_IntImm (z : Z) : const_int (IntImm z) z.
Proof. intros env m. reflexivity. Qed.

Lemma const_int_head_end (a b : Expr) (lo hi k : Z) :
  const_int a lo -> const_int b hi ->
  in_int32 (lo + k) -> in_int32 hi ->
  const_int (head_end a k b) (Z.min (lo + k) hi).
Proof.
  intros Ha Hb Hk Hhi env m. unfold head_end. simpl.
  rewrite Ha, Hb. simpl. rewrite (wrap32_id _ Hk).
  rewrite wrap32_id; [reflexivity|]. unfold in_int32 in *. lia.
Qed.

Lemma const_int_tail_start (a b : Expr) (lo hi k : Z) :
  const_int a lo -> const_int b hi ->
  in_int32 lo -> in_int32 (hi - k) ->
  const_int (tail_start a k b) (Z.max lo (hi - k)).
Proof.
  intros Ha Hb Hlo Hk env m. unfold tail_start. simpl.
  rewrite Ha, Hb. simpl. rewrite (wrap32_id _ Hk).
  rewrite wrap32_id; [reflexivity|]. unfold in_int32 in *. lia.
Qed.

Lemma exec_For_const (env : Env) (x : string) (a b : Expr) (lo hi : Z)
    (body : list Stmt) (m : Mem) :
  const_int a lo -> const_int b hi ->
  exec env (For x a b body) m
  = for_range (Z.to_nat (hi - lo)) lo (loop_body env x (VInt 0) body) m.
Proof.
  intros Ha Hb. rewrite exec_For, Ha, Hb. reflexivity.
Qed.

Lemma split_loop_equiv (x : string) (a mid_e b : Expr) (lo mid hi : Z)
    (body : list Stmt) :
  const_int a lo -> const_int mid_e mid -> const_int b hi ->
  lo <= mid <= hi \/ (hi <= lo /\ (mid = lo \/ mid = hi)) ->
  block_equiv [For x a mid_e body; For x mid_e b body] [For x a b body].
Proof.
  intros Ha Hm Hb Hsplit env m.
  cbn [exec_block].
  rewrite (exec_For_const env x a mid_e lo mid body m Ha Hm).
  rewrite (exec_For_const env x a b lo hi body m Ha Hb).
  rewrite opt_bind_Some.
  rewrite (for_range_split _ lo mid hi m Hsplit).
  destruct (for_range (Z.to_nat (mid - lo)) lo _ m) as [m1|];
    cbn [opt_bind]; [|reflexivity].
  rewrite (exec_For_const env x mid_e b mid hi body m1 Hm Hb).
  apply opt_bind_Some.
Qed.

Lemma slice_head_equiv (x : string) (a b : Expr) (lo hi k : Z)
    (body : list Stmt) :
  const_int a lo -> const_int b hi ->
  0 <= k -> in_int32 (lo + k) -> in_int32 hi ->
  block_equiv (slice_head_of k (For x a b body)) [For x a b body].
Proof.
  intros Ha Hb Hk Hlk Hhi. cbn [slice_head_of].
  apply (split_loop_equiv x a _ b lo (Z.min (lo + k) hi) hi); auto.
  - now apply const_int_head_end.
  - lia.
Qed.

Lemma slice_tail_equiv (x : string) (a b : Expr) (lo hi k : Z)
    (body : list Stmt) :
  const_int a lo -> const_int b hi ->
  0 <= k -> in_int32 lo -> in_int32 (hi - k) ->
  block_equiv (slice_tail_of k (For x a b body)) [For x a b body].
Proof.
  intros Ha Hb Hk Hlo Hhk. cbn [slice_tail_of].
  apply (split_loop_equiv x a _ b lo (Z.max lo (hi - k)) hi); auto.
  - now apply const_int_tail_start.
  - lia.
Qed.

Lemma peel_head_preserves (nest : LoopNest) (p : ForPtr) (x : string)
    (a b : Expr) (lo hi k : Z) (body : list Stmt) :
  stmt_at nest p = Some (For x a b body) -> p <> [] ->
  const_int a lo -> const_int b hi ->
  0 <= k -> in_int32 (lo + k) -> in_int32 hi ->
  forall env m, exec env (peel_head k p nest) m = exec env nest m.
Proof.
  intros Hat Hp Ha Hb Hk Hlk Hhi. unfold peel_head.
  apply (exec_splice_at _ (For x a b body)); auto.
  now apply (slice_head_equiv x a b lo hi k).
Qed.

Lemma peel_tail_preserves (nest : LoopNest) (p : ForPtr) (x : string)
    (a b : Expr) (lo hi k : Z) (body : list Stmt) :
  stmt_at nest p = Some (For x a b body) -> p <> [] ->
  const_int a lo -> const_int b hi ->
  0 <= k -> in_int32 lo -> in_int32 (hi - k) ->
  forall env m, exec env (peel_tail k p nest) m = exec env nest m.
Proof.
  intros Hat Hp Ha Hb Hk Hlo Hhk. unfold peel_tail.
  apply (exec_splice_at _ (For x a b body)); auto.
  now apply (slice_tail_equiv x a b lo hi k).
Qed.

(* ===================================================================== *)
(** * The loop specialization of the static builder *)
(* ===================================================================== *)

Lemma assert_ok (c : bool) (what : string) (u : unit) :
  TORCH_INTERNAL_ASSERT c what = inr u -> c = true.
Proof. unfold TORCH_INTERNAL_ASSERT. now destruct c. Qed.

Lemma static_shape_inv (input weight : BufHandle) (stride pad groups : Z)
    (sh : StaticShape) :
  static_shape input weight stride pad groups = ok sh ->
  (ndim input =? 4) = true
  /\ immediateAs_int (dim input 2) = ok sh.(sH)
  /\ immediateAs_int (dim input 3) = ok sh.(sW)
  /\ sh.(sR) = sh.(sS)
  /\ static_extent sh.(sH) sh.(sR) pad stride = ok sh.(sOH)
  /\ static_extent sh.(sW) sh.(sS) pad stride = ok sh.(sOW).
Proof.
  unfold static_shape.
  repeat match goal with
         | |- bind ?m _ = _ -> _ =>
             let x := fresh "x" in let E := fresh "E" in
             destruct m as [?|x] eqn:E; cbn [bind]; [discriminate|]
         end.
  intros Hsh. injection Hsh as <-. cbn.
  apply assert_ok in E, E12.
  apply Z.eqb_eq in E12. auto 10.
Qed.

Lemma bind_ok {A B : Type} (m : Result A) (k : A -> Result B) (b : B) :
  bind m k = ok b -> exists a, m = ok a /\ k a = ok b.
Proof. destruct m as [e|a]; simpl; [discriminate|]. intros H. now exists a. Qed.

Lemma static_shape_inv_full (input weight : BufHandle)
    (stride pad groups : Z) (sh : StaticShape) :
  static_shape input weight stride pad groups = ok sh ->
  (ndim input =? 4) = true /\ (ndim weight =? 4) = true
  /\ forallb isConstant input.(buf_dims) = true
  /\ forallb isConstant weight.(buf_dims) = true
  /\ immediateAs_int (dim input 0) = ok sh.(sN)
  /\ immediateAs_int (dim input 1) = ok sh.(sC)
  /\ immediateAs_int (dim input 2) = ok sh.(sH)
  /\ immediateAs_int (dim input 3) = ok sh.(sW)
  /\ immediateAs_int (dim weight 0) = ok sh.(sK)
  /\ immediateAs_int (dim weight 1) = ok sh.(sCperG)
  /\ immediateAs_int (dim weight 2) = ok sh.(sR)
  /\ immediateAs_int (dim weight 3) = ok sh.(sS)
  /\ sh.(sC) = sh.(sK) /\ sh.(sK) = groups /\ sh.(sCperG) = 1
  /\ sh.(sR) = sh.(sS)
  /\ static_extent sh.(sH) sh.(sR) pad stride = ok sh.(sOH)
  /\ static_extent sh.(sW) sh.(sS) pad stride = ok sh.(sOW)
  /\ int_div sh.(sC) groups = ok sh.(sCg).
Proof.
  unfold static_shape, assert_dims_constant. intros H.
  apply bind_ok in H as ([] & A1 & H). apply assert_ok in A1.
  apply bind_ok in H as ([] & A2 & H). apply assert_ok in A2.
  apply bind_ok in H as ([] & A3 & H). apply assert_ok in A3.
  apply bind_ok in H as ([] & A4 & H). apply assert_ok in A4.
  apply bind_ok in H as (N & EN & H). apply bind_ok in H as (C & EC & H).
  apply bind_ok in H as (Hh & EH & H). apply bind_ok in H as (W & EW & H).
  apply bind_ok in H as (K & EK & H). apply bind_ok in H as (G & EG & H).
  apply bind_ok in H as (R & ER & H). apply bind_ok in H as (S & ES & H).
  apply bind_ok in H as ([] & A5 & H). apply assert_ok in A5.
  apply bind_ok in H as ([] & A6 & H). apply assert_ok in A6.
  apply bind_ok in H as (OH & EOH & H). apply bind_ok in H as (OW & EOW & H).
  apply bind_ok in H as (Cg & ECg & H). injection H as <-. cbn.
  apply andb_true_iff in A5 as [A5 A5c].
  apply andb_true_iff in A5 as [A5a A5b].
  apply Z.eqb_eq in A5a, A5b, A5c, A6.
  repeat split; assumption.
Qed.

Lemma static_extent_range (H R pad stride OH : Z) :
  static_extent H R pad stride = ok OH -> in_int32 OH.
Proof.
  unfold static_extent, int_div.
  destruct (div32 _ stride) as [q|]; cbn [bind]; [|discriminate].
  intros E. injection E as <-. apply wrap32_range.
Qed.

(** With a 3x3 kernel, stride 1 and padding 1 the output extent is the
    input extent. *)
Lemma static_extent_same (H OH : Z) :
  0 <= H < 2 ^ 31 -> static_extent H 3 1 1 = ok OH -> OH = H.
Proof.
  intros HH E.
  assert (Hq : Z.quot (H - 3 + 2 * 1) 1 = H - 1)
    by (rewrite Z.quot_1_r; lia).
  rewrite static_extent_exact in E.
  - rewrite Hq in E. injection E as <-. lia.
  - lia.
  - unfold extent_no_overflow. rewrite Hq. unfold in_int32.
    change (2 ^ 31) with 2147483648 in *. lia.
Qed.

Lemma legal_dim_value (e : Expr) :
  legal_dim e = true ->
  exists z, immediateAs_int e = ok z /\ 0 <= z < 2 ^ 31.
Proof.
  unfold legal_dim. destruct (intValue e) as [z|] eqn:He; [|discriminate].
  intros Hz. apply andb_true_iff in Hz as [Hlo Hhi].
  apply Z.leb_le in Hlo. apply Z.ltb_lt in Hhi.
  exists z. split; [|lia].
  apply immediateAs_int_of_intValue; [exact He|]. unfold in_int32. lia.
Qed.

Lemma legal_shape_spatial (input weight : BufHandle)
    (stride pad groups : Z) (sh : StaticShape) :
  legal_shape input = true ->
  static_shape input weight stride pad groups = ok sh ->
  0 <= sh.(sH) < 2 ^ 31 /\ 0 <= sh.(sW) < 2 ^ 31.
Proof.
  intros Hl Hsh.
  destruct (static_shape_inv _ _ _ _ _ _ Hsh) as (Hn & EH & EW & _).
  unfold legal_shape in Hl. unfold ndim in Hn. unfold dim in EH, EW.
  apply Z.eqb_eq in Hn.
  assert (Hlen : List.length (buf_dims input) = 4%nat) by lia. clear Hn.
  destruct (buf_dims input) as [|e0 [|e1 [|e2 [|e3 [|e4 l]]]]];
    try discriminate Hlen.
  cbn [forallb] in Hl. cbn [nth] in EH, EW.
  repeat (apply andb_true_iff in Hl as [? Hl]).
  destruct (legal_dim_value e2) as (z2 & E2 & R2); [assumption|].
  destruct (legal_dim_value e3) as (z3 & E3 & R3); [assumption|].
  rewrite E2 in EH. rewrite E3 in EW.
  injection EH as <-. injection EW as <-. split; assumption.
Qed.

Section StaticNest.
Variables (input weight : BufHandle) (init_func : InitFunc).
Variables (stride pad : Z) (sh : StaticShape).

Local Abbreviation conv := (static_conv input weight init_func stride pad sh).
Local Abbreviation nest := (mkLoopNest [conv]).
Local Abbreviation inner :=
  (depthwise_inner input weight init_func
     (IntImm sh.(sCg)) (IntImm sh.(sR)) (IntImm sh.(sS))
     (IntImm sh.(sH)) (IntImm sh.(sW)) (IntImm stride) (IntImm pad)).

Lemma static_nest_shape :
  nest = Block
           [depthwise_nest input weight init_func
              (IntImm sh.(sN)) (IntImm sh.(sK))
              (IntImm sh.(sOH)) (IntImm sh.(sOW))
              (IntImm sh.(sCg)) (IntImm sh.(sR)) (IntImm sh.(sS))
              (IntImm sh.(sH)) (IntImm sh.(sW))
              (IntImm stride) (IntImm pad)].
Proof. reflexivity. Qed.

Lemma ruleA_nest_is_two_peels :
  peel_head 2 oh_loop (peel_head 2 ow_loop nest)
  = ruleA_nest (IntImm sh.(sN)) (IntImm sh.(sK))
      (IntImm sh.(sOH)) (IntImm sh.(sOW)) inner.
Proof. reflexivity. Qed.

Lemma ruleB_nest_is_four_peels :
  peel_tail 1 [0; 0; 1]%nat
    (peel_head 1 oh_loop
       (peel_tail 1 [0; 0; 0; 1]%nat (peel_head 1 ow_loop nest)))
  = ruleB_nest (IntImm sh.(sN)) (IntImm sh.(sK))
      (IntImm sh.(sOH)) (IntImm sh.(sOW)) inner.
Proof. reflexivity. Qed.

Lemma static_slicing_ruleA :
  static_slicing nest conv 3 2 1
  = ok (peel_head 2 oh_loop (peel_head 2 ow_loop nest)).
Proof. reflexivity. Qed.

Lemma static_slicing_ruleB :
  static_slicing nest conv 3 1 1
  = ok (peel_tail 1 [0; 0; 1]%nat
          (peel_head 1 oh_loop
             (peel_tail 1 [0; 0; 0; 1]%nat (peel_head 1 ow_loop nest)))).
Proof. reflexivity. Qed.

Lemma static_slicing_cases (R : Z) :
  static_slicing nest conv R stride pad
  = if (R =? 3) && (stride =? 2) && (pad =? 1)
    then static_slicing nest conv 3 2 1
    else if (R =? 3) && (stride =? 1) && (pad =? 1)
         then static_slicing nest conv 3 1 1
         else ok nest.
Proof. reflexivity. Qed.

Lemma ruleA_preserves :
  in_int32 sh.(sOH) -> in_int32 sh.(sOW) ->
  forall env m,
    exec env (peel_head 2 oh_loop (peel_head 2 ow_loop nest)) m
    = exec env nest m.
Proof.
  intros HOH HOW env m.
  erewrite peel_head_preserves;
    [ | reflexivity | discriminate | apply const_int_IntImm
      | apply const_int_IntImm | lia | now vm_compute | exact HOH ].
  erewrite peel_head_preserves;
    [ | reflexivity | discriminate | apply const_int_IntImm
      | apply const_int_IntImm | lia | now vm_compute | exact HOW ].
  reflexivity.
Qed.

Lemma ruleB_preserves :
  in_int32 sh.(sOH) -> in_int32 sh.(sOW) ->
  in_int32 (sh.(sOH) - 1) -> in_int32 (sh.(sOW) - 1) ->
  forall env m,
    exec env
      (peel_tail 1 [0; 0; 1]%nat
         (peel_head 1 oh_loop
            (peel_tail 1 [0; 0; 0; 1]%nat (peel_head 1 ow_loop nest)))) m
    = exec env nest m.
Proof.
  intros HOH HOW HOH1 HOW1 env m.
  assert (Hmin : forall z, in_int32 z -> in_int32 (Z.min (0 + 1) z))
    by (unfold in_int32; intros; lia).
  erewrite peel_tail_preserves;
    [ | reflexivity | discriminate
      | apply (const_int_head_end _ _ 0 sh.(sOH) 1);
        [apply const_int_IntImm | apply const_int_IntImm
        | now vm_compute | exact HOH]
      | apply const_int_IntImm | lia | now apply Hmin | exact HOH1 ].
  erewrite peel_head_preserves;
    [ | reflexivity | discriminate | apply const_int_IntImm
      | apply const_int_IntImm | lia | now vm_compute | exact HOH ].
  erewrite peel_tail_preserves;
    [ | reflexivity | discriminate
      | apply (const_int_head_end _ _ 0 sh.(sOW) 1);
        [apply const_int_IntImm | apply const_int_IntImm
        | now vm_compute | exact HOW]
      | apply const_int_IntImm | lia | now apply Hmin | exact HOW1 ].
  erewrite peel_head_preserves;
    [ | reflexivity | discriminate | apply const_int_IntImm
      | apply const_int_IntImm | lia | now vm_compute | exact HOW ].
  reflexivity.
Qed.
End StaticNest.

Lemma static_builder_unfold (input weight : BufHandle) (init_func : InitFunc)
    (stride pad groups : Z) (sh : StaticShape) :
  static_shape input weight stride pad groups = ok sh ->
  conv2d_depthwise_static input weight init_func stride pad groups
  = (nest <- static_slicing
               (mkLoopNest [static_conv input weight init_func stride pad sh])
               (static_conv input weight init_func stride pad sh)
               sh.(sR) stride pad ;;
     ok (mkTensor (static_conv input weight init_func stride pad sh).(buf)
           nest)).
Proof. intros Hsh. unfold conv2d_depthwise_static. now rewrite Hsh. Qed.



(** C6. In a static lowering with R == 3, stride == 2 and pad == 1 the
    loop at position kLoopW of the nest is the output-width loop; its
    first 2 iterations are peeled into a preceding head loop; then the loop
    at position kLoopH, the output-height loop, is peeled the same way;
    the tensor returned carries exactly that nest, whose head loops run
    from 0 to min(2, extent).  When neither rule matches the tensor carries
    the loop nest unmodified. *)
Theorem ruleA_peels_width_then_height :
  forall (input weight : BufHandle) (init_func : InitFunc)
         (stride pad groups : Z) (sh : StaticShape),
    static_shape input weight stride pad groups = ok sh ->
    let conv := static_conv input weight init_func stride pad sh in
    let nest := mkLoopNest [conv] in
    let inner :=
      depthwise_inner input weight init_func
        (IntImm sh.(sCg)) (IntImm sh.(sR)) (IntImm sh.(sS))
        (IntImm sh.(sH)) (IntImm sh.(sW)) (IntImm stride) (IntImm pad) in
    (sh.(sR) = 3 -> stride = 2 -> pad = 1 ->
       vec_at (getLoopStmtsFor nest conv) kLoopW = ok ow_loop
       /\ loop_var nest ow_loop = Some "ow"
       /\ sliceHead nest ow_loop 2
          = ok (peel_head 2 ow_loop nest, ow_loop, [0; 0; 0; 1]%nat)
       /\ vec_at (getLoopStmtsFor (peel_head 2 ow_loop nest) conv) kLoopH
          = ok oh_loop
       /\ loop_var (peel_head 2 ow_loop nest) oh_loop = Some "oh"
       /\ conv2d_depthwise_static input weight init_func stride pad groups
          = ok (mkTensor conv.(buf)
                  (peel_head 2 oh_loop (peel_head 2 ow_loop nest)))
       /\ peel_head 2 oh_loop (peel_head 2 ow_loop nest)
          = ruleA_nest (IntImm sh.(sN)) (IntImm sh.(sK))
              (IntImm sh.(sOH)) (IntImm sh.(sOW)) inner
       /\ const_int (head_end (IntImm 0) 2 (IntImm sh.(sOW)))
            (Z.min 2 sh.(sOW))
       /\ const_int (head_end (IntImm 0) 2 (IntImm sh.(sOH)))
            (Z.min 2 sh.(sOH)))
    /\ ((sh.(sR) =? 3) && (pad =? 1) && ((stride =? 2) || (stride =? 1))
        = false ->
        conv2d_depthwise_static input weight init_func stride pad groups
        = ok (mkTensor conv.(buf) nest)).
Proof.
  intros input weight init_func stride pad groups sh Hsh. cbv zeta. split.
  - intros HR -> ->.
    destruct (static_shape_inv _ _ _ _ _ _ Hsh) as (_ & _ & _ & _ & EOH & EOW).
    refine (conj _ (conj _ (conj _ (conj _ (conj _ (conj _ (conj _
              (conj _ _))))))));
      try reflexivity.
    + rewrite (static_builder_unfold _ _ _ _ _ _ _ Hsh), static_slicing_cases.
      rewrite HR. reflexivity.
    + apply (const_int_head_end _ _ 0 (sOW sh) 2);
        [apply const_int_IntImm | apply const_int_IntImm | now vm_compute
        | exact (static_extent_range _ _ _ _ _ EOW)].
    + apply (const_int_head_end _ _ 0 (sOH sh) 2);
        [apply const_int_IntImm | apply const_int_IntImm | now vm_compute
        | exact (static_extent_range _ _ _ _ _ EOH)].
  - intros Hno.
    rewrite (static_builder_unfold _ _ _ _ _ _ _ Hsh), static_slicing_cases.
    destruct (sR sh =? 3), (pad =? 1), (stride =? 2), (stride =? 1);
      try discriminate Hno; reflexivity.
Qed.

Lemma ruleA_peels_width_then_height_witness :
  conv2d_depthwise_static ex_input ex_weight (bias_init ex_bias) 2 1 4
  = ok (mkTensor
          (static_conv ex_input ex_weight (bias_init ex_bias) 2 1 ex_shape_s2)
            .(buf)
          (peel_head 2 oh_loop
             (peel_head 2 ow_loop
                (mkLoopNest
                   [static_conv ex_input ex_weight (bias_init ex_bias) 2 1
                      ex_shape_s2])))).
Proof.
  destruct (ruleA_peels_width_then_height ex_input ex_weight
              (bias_init ex_bias) 2 1 4 ex_shape_s2 eq_refl) as [HA _].
  destruct (HA eq_refl eq_refl eq_refl) as (_ & _ & _ & _ & _ & Hres & _).
  exact Hres.
Defined.

(** C7. In a static lowering with R == 3, stride == 1 and pad == 1
    exactly Rule B is applied.  The buffer is written by two loop nests
    (initialisation and accumulation); the loop located is the innermost
    loop among them, the last loop enclosing every write to the buffer:
    the one at position kLoopW of the second nest, the output-width loop.
    Exactly one iteration is peeled off its head and one off its tail,
    then one off the head and one off the tail of its immediate parent,
    the output-height loop; the tensor returned carries exactly that nest.
    On a legal input shape the three loops of an extent X run over
    [0, min(1,X)), [min(1,X), max(min(1,X), X-1)) and the rest up to X. *)
Theorem ruleB_peels_width_and_parent :
  forall (input weight : BufHandle) (init_func : InitFunc)
         (stride pad groups : Z) (sh : StaticShape),
    static_shape input weight stride pad groups = ok sh ->
    sh.(sR) = 3 -> stride = 1 -> pad = 1 ->
    let conv := static_conv input weight init_func stride pad sh in
    let nest := mkLoopNest [conv] in
    let inner :=
      depthwise_inner input weight init_func
        (IntImm sh.(sCg)) (IntImm sh.(sR)) (IntImm sh.(sS))
        (IntImm sh.(sH)) (IntImm sh.(sW)) (IntImm stride) (IntImm pad) in
    let loops := getAllLoopNestsWritingToBuf nest conv.(buf) in
    let nest1 := peel_head 1 ow_loop nest in
    let nest2 := peel_tail 1 [0; 0; 0; 1]%nat nest1 in
    let nest3 := peel_head 1 oh_loop nest2 in
    let nest4 := peel_tail 1 [0; 0; 1]%nat nest3 in
    List.length loops = 2%nat
    /\ (loops1 <- vec_at loops 1 ;; vec_at loops1 kLoopW) = ok ow_loop
    /\ innermost_common_loop loops = Some ow_loop
    /\ loop_var nest ow_loop = Some "ow"
    /\ sliceHead nest ow_loop 1 = ok (nest1, ow_loop, [0; 0; 0; 1]%nat)
    /\ sliceTail nest1 [0; 0; 0; 1]%nat 1
       = ok (nest2, [0; 0; 0; 1]%nat, [0; 0; 0; 2]%nat)
    /\ getParentLoop nest2 [0; 0; 0; 1]%nat = Some oh_loop
    /\ loop_var nest2 oh_loop = Some "oh"
    /\ sliceHead nest2 oh_loop 1 = ok (nest3, oh_loop, [0; 0; 1]%nat)
    /\ sliceTail nest3 [0; 0; 1]%nat 1
       = ok (nest4, [0; 0; 1]%nat, [0; 0; 2]%nat)
    /\ conv2d_depthwise_static input weight init_func stride pad groups
       = ok (mkTensor conv.(buf) nest4)
    /\ nest4 = ruleB_nest (IntImm sh.(sN)) (IntImm sh.(sK))
                 (IntImm sh.(sOH)) (IntImm sh.(sOW)) inner
    /\ (legal_shape input = true ->
        sh.(sOW) = sh.(sW) /\ sh.(sOH) = sh.(sH)
        /\ forall OX, OX = sh.(sOW) \/ OX = sh.(sOH) ->
             let h := head_end (IntImm 0) 1 (IntImm OX) in
             const_int h (Z.min 1 OX)
             /\ const_int (tail_start h 1 (IntImm OX))
                  (Z.max (Z.min 1 OX) (OX - 1))).
Proof.
  intros input weight init_func stride pad groups sh Hsh HR -> ->. cbv zeta.
  refine (conj _ (conj _ (conj _ (conj _ (conj _ (conj _ (conj _ (conj _
            (conj _ (conj _ (conj _ (conj _ _))))))))))));
    try reflexivity.
  - rewrite (static_builder_unfold _ _ _ _ _ _ _ Hsh), static_slicing_cases.
    rewrite HR. reflexivity.
  - intros Hl.
    destruct (static_shape_inv _ _ _ _ _ _ Hsh)
      as (_ & _ & _ & HRS & EOH & EOW).
    destruct (legal_shape_spatial _ _ _ _ _ _ Hl Hsh) as [RH RW].
    rewrite <- HRS, HR in EOW. rewrite HR in EOH.
    apply (static_extent_same _ _ RH) in EOH.
    apply (static_extent_same _ _ RW) in EOW.
    refine (conj EOW (conj EOH _)). intros OX HOX.
    assert (ROX : 0 <= OX < 2 ^ 31) by (destruct HOX; subst OX; congruence).
    assert (Hh : const_int (head_end (IntImm 0) 1 (IntImm OX)) (Z.min 1 OX)).
    { apply (const_int_head_end _ _ 0 OX 1);
        [apply const_int_IntImm | apply const_int_IntImm | now vm_compute|].
      unfold in_int32. change (2 ^ 31) with 2147483648 in *. lia. }
    split; [exact Hh|].
    apply (const_int_tail_start _ _ (Z.min 1 OX) OX 1);
      [exact Hh | apply const_int_IntImm | |];
      unfold in_int32; change (2 ^ 31) with 2147483648 in *; lia.
Qed.

Lemma ruleB_peels_width_and_parent_witness :
  conv2d_depthwise_static ex_input ex_weight (bias_init ex_bias) 1 1 4
  = ok (mkTensor ex_conv.(buf)
          (peel_tail 1 [0; 0; 1]%nat
             (peel_head 1 oh_loop
                (peel_tail 1 [0; 0; 0; 1]%nat
                   (peel_head 1 ow_loop ex_nest))))).
Proof.
  destruct (ruleB_peels_width_and_parent ex_input ex_weight
              (bias_init ex_bias) 1 1 4 ex_shape eq_refl eq_refl eq_refl
              eq_refl)
    as (_ & _ & _ & _ & _ & _ & _ & _ & _ & _ & Hres & _).
  exact Hres.
Defined.

(** Whatever rule applies, the nest the static builder returns has the
    effect of the untransformed nest of its reduction. *)
Lemma static_builder_slicing_sound (input weight : BufHandle)
    (init_func : InitFunc) (stride pad groups : Z) (sh : StaticShape) :
  legal_shape input = true ->
  static_shape input weight stride pad groups = ok sh ->
  exists t,
    conv2d_depthwise_static input weight init_func stride pad groups = ok t
    /\ t.(buf) = (static_conv input weight init_func stride pad sh).(buf)
    /\ forall env m,
         exec env t.(stmt) m
         = exec env
             (root_stmt
                (mkLoopNest [static_conv input weight init_func stride pad sh]))
             m.
Proof.
  intros Hl Hsh.
  rewrite (static_builder_unfold _ _ _ _ _ _ _ Hsh), static_slicing_cases.
  destruct (static_shape_inv _ _ _ _ _ _ Hsh) as (_ & _ & _ & HRS & EOH & EOW).
  pose proof (static_extent_range _ _ _ _ _ EOH) as ROH.
  pose proof (static_extent_range _ _ _ _ _ EOW) as ROW.
  destruct ((sR sh =? 3) && (stride =? 2) && (pad =? 1)) eqn:HA.
  - rewrite static_slicing_ruleA. eexists. split; [reflexivity|].
    split; [reflexivity|]. intros env m. cbn [stmt root_stmt].
    now apply ruleA_preserves.
  - destruct ((sR sh =? 3) && (stride =? 1) && (pad =? 1)) eqn:HB.
    + rewrite static_slicing_ruleB. eexists. split; [reflexivity|].
      split; [reflexivity|]. intros env m. cbn [stmt root_stmt].
      apply andb_true_iff in HB as [HB Hp].
      apply andb_true_iff in HB as [HR Hs].
      apply Z.eqb_eq in HR, Hs, Hp. subst stride pad.
      rewrite <- HRS, HR in EOW. rewrite HR in EOH.
      destruct (legal_shape_spatial _ _ _ _ _ _ Hl Hsh) as [RH RW].
      apply (static_extent_same _ _ RH) in EOH.
      apply (static_extent_same _ _ RW) in EOW.
      apply ruleB_preserves; auto; rewrite ?EOH, ?EOW; unfold in_int32;
        change (2 ^ 31) with 2147483648 in *; lia.
    + eexists. split; [reflexivity|]. split; reflexivity.
Qed.

Lemma static_extent_defined (H R pad stride : Z) :
  extent_defined H R pad stride = true ->
  exists OH, static_extent H R pad stride = ok OH.
Proof.
  unfold extent_defined, static_extent, int_div, div32.
  intros ->. eexists. reflexivity.
Qed.

Lemma dim_extent_defined_inv (e : Expr) (R pad stride H : Z) :
  dim_extent_defined e R pad stride = true ->
  immediateAs_int e = ok H -> extent_defined H R pad stride = true.
Proof. unfold dim_extent_defined. intros Hd E. now rewrite E in Hd. Qed.

Lemma specialized_shape_of_dims (inp w b : BufHandle) (i wi bi : TensorInfo)
    (strides padding dilation : list Z) (groups : Z) :
  getTensorInfo inp = Some i ->
  getTensorInfo w = Some wi ->
  getTensorInfo b = Some bi ->
  in_int32 groups ->
  conv2dIsSupported i wi bi strides padding dilation groups = true ->
  exists N H W,
    immediateAs_int (dim inp 0) = ok N
    /\ immediateAs_int (dim inp 2) = ok H
    /\ immediateAs_int (dim inp 3) = ok W
    /\ forall stride pad,
         static_shape inp w stride pad groups
         = (OH <- static_extent H 3 pad stride ;;
            OW <- static_extent W 3 pad stride ;;
            Cg <- int_div groups groups ;;
            ok (mkStaticShape N groups H W groups 1 3 3 OH OW Cg)).
Proof.
  intros Hi Hw Hb Hg Hsup.
  destruct (specialized_operands _ _ _ _ _ _ _ _ _ _ Hi Hw Hb Hg Hsup)
    as (Hndi & Hndw & Hci & Hcw & _
        & N & H & W & HN & HC & HH & HW & HK & HG & HR & HS).
  exists N, H, W. refine (conj HN (conj HH (conj HW _))).
  intros stride pad. unfold static_shape.
  rewrite Hndi, Hndw, Hci, Hcw. cbn [TORCH_INTERNAL_ASSERT bind ok].
  rewrite HN, HC, HH, HW, HK, HG, HR, HS. cbn [bind ok].
  rewrite !Z.eqb_refl. reflexivity.
Qed.

(** C4. For every configuration the oracle accepts (with a legal input
    shape, extents whose division has a result, that is a stride that is
    not zero and no [INT_MIN / -1], and a group count that is not zero),
    [computeConv2d] returns the tensor of the static lowering, and its
    loop nest, sliced under Rule A or Rule B or left as it is, has on
    every memory the same effect as the untransformed loop nest of the
    same reduction; the same holds for the static builder with any
    initializer, whenever it derives its constants. *)
Theorem sliced_nest_same_output :
  forall (inp w b : BufHandle) (a3 a4 a5 : ArgValue) (g : Z)
         (outputShape : list Expr) (outputType : option ScalarType)
         (strides padding dilation : list Z) (i wi bi : TensorInfo),
    _pair_int a3 = ok strides ->
    _pair_int a4 = ok padding ->
    _pair_int a5 = ok dilation ->
    getTensorInfo inp = Some i ->
    getTensorInfo w = Some wi ->
    getTensorInfo b = Some bi ->
    conv2dIsSupported i wi bi strides padding dilation (wrap32 g) = true ->
    legal_shape inp = true ->
    dim_extent_defined (dim inp 2) 3
      (wrap32 (at0 padding 0)) (wrap32 (at0 strides 0)) = true ->
    dim_extent_defined (dim inp 3) 3
      (wrap32 (at0 padding 0)) (wrap32 (at0 strides 0)) = true ->
    wrap32 g <> 0 ->
    let stride := wrap32 (at0 strides 0) in
    let pad := wrap32 (at0 padding 0) in
    let groups := wrap32 g in
    (exists t sh,
        computeConv2d [ArgBuf inp; ArgBuf w; ArgBuf b; a3; a4; a5; ArgInt g]
          outputShape outputType = ok t
        /\ static_shape inp w stride pad groups = ok sh
        /\ t.(buf) = (static_conv inp w (bias_init b) stride pad sh).(buf)
        /\ forall env m,
             exec env t.(stmt) m
             = exec env
                 (root_stmt
                    (mkLoopNest
                       [static_conv inp w (bias_init b) stride pad sh])) m)
    /\ (forall (input weight : BufHandle) (init_func : InitFunc)
               (stride pad groups : Z) (sh : StaticShape),
          legal_shape input = true ->
          static_shape input weight stride pad groups = ok sh ->
          exists t,
            conv2d_depthwise_static input weight init_func stride pad groups
            = ok t
            /\ t.(buf)
               = (static_conv input weight init_func stride pad sh).(buf)
            /\ forall env m,
                 exec env t.(stmt) m
                 = exec env
                     (root_stmt
                        (mkLoopNest
                           [static_conv input weight init_func stride pad sh]))
                     m).
Proof.
  intros inp w b a3 a4 a5 g outputShape outputType strides padding dilation
    i wi bi H3 H4 H5 Hi Hw Hb Hsup Hl HdH HdW Hg. cbv zeta.
  split; [|exact static_builder_slicing_sound].
  destruct (specialized_shape_of_dims _ _ _ _ _ _ _ _ _ _ Hi Hw Hb
              (wrap32_range g) Hsup) as (N & H & W & _ & EH & EW & Hshape).
  destruct (static_extent_defined H 3 (wrap32 (at0 padding 0)) _
              (dim_extent_defined_inv _ _ _ _ _ HdH EH)) as [OH EOH].
  destruct (static_extent_defined W 3 (wrap32 (at0 padding 0)) _
              (dim_extent_defined_inv _ _ _ _ _ HdW EW)) as [OW EOW].
  assert (Hsh :
    static_shape inp w (wrap32 (at0 strides 0)) (wrap32 (at0 padding 0))
      (wrap32 g)
    = ok (mkStaticShape N (wrap32 g) H W (wrap32 g) 1 3 3 OH OW 1)).
  { rewrite Hshape, EOH, EOW, (int_div_same _ Hg). reflexivity. }
  destruct (static_builder_slicing_sound inp w (bias_init b) _ _ _ _ Hl Hsh)
    as (t & Ht & Hbuf & Hexec).
  exists t. eexists. split; [|split; [exact Hsh|split; [exact Hbuf|exact Hexec]]].
  rewrite (computeConv2d_unfold _ _ _ _ _ _ _ _ _ _ _ _ H3 H4 H5).
  cbv zeta. rewrite Hi, Hw, Hb, Hsup.
  unfold conv2d_depthwise_bias, assert_dims_constant.
  rewrite (getTensorInfo_constant _ _ Hb). exact Ht.
Qed.

Lemma sliced_nest_same_output_witness :
  exists t sh,
    computeConv2d (ex_inputs (ArgInt 1) (ArgInt 1) (ArgIntList [1; 1]) 4)
      [] None = ok t
    /\ static_shape ex_input ex_weight 1 1 4 = ok sh
    /\ t.(buf) = (static_conv ex_input ex_weight (bias_init ex_bias) 1 1 sh).(buf)
    /\ forall env m,
         exec env t.(stmt) m
         = exec env
             (root_stmt
                (mkLoopNest
                   [static_conv ex_input ex_weight (bias_init ex_bias) 1 1 sh]))
             m.
Proof.
  refine (proj1 (sliced_nest_same_output ex_input ex_weight ex_bias
           (ArgInt 1) (ArgInt 1) (ArgIntList [1; 1]) 4 [] None
           [1; 1] [1; 1] [1; 1] ex_input_info ex_weight_info ex_bias_info
           eq_refl eq_refl eq_refl eq_refl eq_refl eq_refl eq_refl eq_refl
           eq_refl eq_refl _)); now vm_compute.
Defined.

(** The depthwise scenario run on a small instance (3x3 input, all ones,
    bias one): a corner of the output sums the 2x2 block of the kernel that
    meets the input, the centre sums all nine products; the sliced nests
    of stride 1 and stride 2 compute them. *)
Example tiny_conv_stride1 :
  forall t,
    conv2d_depthwise_bias tiny_input tiny_weight tiny_bias 1 1 1 = ok t ->
    output_at (exec [] t.(stmt) ex_mem_one) [0; 0; 0; 0] = Some (f32_of_Z 5)
    /\ output_at (exec [] t.(stmt) ex_mem_one) [0; 0; 1; 1]
       = Some (f32_of_Z 10).
Proof.
  intros t H. vm_compute in H. injection H as <-.
  split; vm_compute; reflexivity.
Qed.

Example tiny_conv_stride2 :
  forall t,
    conv2d_depthwise_bias tiny_input tiny_weight tiny_bias 2 1 1 = ok t ->
    output_at (exec [] t.(stmt) ex_mem_one) [0; 0; 0; 0] = Some (f32_of_Z 5)
    /\ output_at (exec [] t.(stmt) ex_mem_one) [0; 0; 1; 1]
       = Some (f32_of_Z 5).
Proof.
  intros t H. vm_compute in H. injection H as <-.
  split; vm_compute; reflexivity.
Qed.

(* ===================================================================== *)
(** * Further properties: arguments and errors *)
(* ===================================================================== *)

(** X1. [_pair_int] succeeds exactly on a single integer, giving the pair
    of it with itself, and on an integer list of at least two elements,
    giving its first two (the others are dropped); a shorter list reads
    past its end, and any other kind of argument is a bad variant access. *)
Theorem pair_int_characterised :
  (forall (v : ArgValue) (p : list Z),
      _pair_int v = ok p <->
      (exists i, v = ArgInt i /\ p = [i; i])
      \/ (exists a b rest, v = ArgIntList (a :: b :: rest) /\ p = [a; b]))
  /\ (forall l, (List.length l < 2)%nat ->
        _pair_int (ArgIntList l)
        = fail (Undefined "vector index out of range"))
  /\ (forall v,
        (forall i, v <> ArgInt i) -> (forall l, v <> ArgIntList l) ->
        _pair_int v = fail BadVariantAccess).
Proof.
  refine (conj _ (conj _ _)).
  - intros v p. split.
    + destruct v as [| | |i| | |l| |]; simpl; try discriminate.
      * intros H. injection H as <-. left. now exists i.
      * destruct l as [|a [|b rest]]; simpl; try discriminate.
        intros H. injection H as <-. right. now exists a, b, rest.
    + intros [(i & -> & ->) | (a & b & rest & -> & ->)]; reflexivity.
  - intros l Hl. destruct l as [|a [|b rest]]; simpl in *;
      [reflexivity | reflexivity | lia].
  - intros v Hi Hl. destruct v as [| | |i| | |l| |]; try reflexivity.
    + now destruct (Hi i).
    + now destruct (Hl l).
Qed.

Lemma get_BufHandle_ok (v : ArgValue) (b : BufHandle) :
  get_BufHandle v = ok b -> v = ArgBuf b.
Proof. destruct v; simpl; try discriminate. intros H. now injection H as ->. Qed.

Lemma get_int64_ok (v : ArgValue) (i : Z) :
  get_int64 v = ok i -> v = ArgInt i.
Proof. destruct v; simpl; try discriminate. intros H. now injection H as ->. Qed.

(** X2. [computeConv2d] returns a tensor only on at least seven arguments
    of which the first three are buffers, the next three are accepted by
    [_pair_int] and the seventh is an integer; arguments after the seventh
    are never looked at.  In particular a missing bias (None in place of
    the buffer) is a bad variant access. *)
Theorem computeConv2d_argument_types :
  (forall (inputs : list ArgValue) (outputShape : list Expr)
          (outputType : option ScalarType) (t : Tensor),
      computeConv2d inputs outputShape outputType = ok t ->
      exists inp w b a3 a4 a5 g rest strides padding dilation,
        inputs = ArgBuf inp :: ArgBuf w :: ArgBuf b :: a3 :: a4 :: a5
                 :: ArgInt g :: rest
        /\ _pair_int a3 = ok strides /\ _pair_int a4 = ok padding
        /\ _pair_int a5 = ok dilation)
  /\ (forall a0 a1 a2 a3 a4 a5 a6 rest outputShape outputType,
        computeConv2d (a0 :: a1 :: a2 :: a3 :: a4 :: a5 :: a6 :: rest)
          outputShape outputType
        = computeConv2d [a0; a1; a2; a3; a4; a5; a6] outputShape outputType)
  /\ (forall inp w a3 a4 a5 a6 outputShape outputType,
        computeConv2d [ArgBuf inp; ArgBuf w; ArgNone; a3; a4; a5; a6]
          outputShape outputType = fail BadVariantAccess).
Proof.
  refine (conj _ (conj _ _)).
  - intros inputs outputShape outputType t. unfold computeConv2d.
    cbv zeta. intros H.
    repeat match type of H with
           | bind _ _ = ok _ =>
               let x := fresh "x" in let E := fresh "E" in
               apply bind_ok in H as (x & E & H)
           end.
    unfold vec_at in *.
    destruct inputs as [|a0 [|a1 [|a2 [|a3 [|a4 [|a5 [|a6 rest]]]]]]];
      simpl in *; try discriminate.
    repeat match goal with
           | E : ok _ = ok _ |- _ => injection E as <-
           end.
    repeat match goal with
           | E : get_BufHandle _ = ok _ |- _ => apply get_BufHandle_ok in E
           | E : get_int64 _ = ok _ |- _ => apply get_int64_ok in E
           end.
    subst. repeat eexists; eassumption.
  - reflexivity.
  - reflexivity.
Qed.

Lemma computeConv2d_argument_types_witness :
  exists inp w b a3 a4 a5 g rest strides padding dilation,
    ex_inputs (ArgInt 1) (ArgInt 1) (ArgIntList [1; 1]) 1
    = ArgBuf inp :: ArgBuf w :: ArgBuf b :: a3 :: a4 :: a5
      :: ArgInt g :: rest
    /\ _pair_int a3 = ok strides /\ _pair_int a4 = ok padding
    /\ _pair_int a5 = ok dilation.
Proof.
  destruct computeConv2d_argument_types as (H & _).
  exact (H (ex_inputs (ArgInt 1) (ArgInt 1) (ArgIntList [1; 1]) 1)
           [] None _ eq_refl).
Defined.

(** X3. Each prepacked operator returns a tensor exactly when its first
    two arguments are buffers, and then it is the result buffer (of the
    requested shape, and of the requested dtype, float when none is
    requested) bound to one external call on just these two buffers, with
    no scalar argument; further arguments are never looked at. *)
Theorem prepacked_operators_characterised :
  forall (inputs : list ArgValue) (outputShape : list Expr)
         (outputType : option ScalarType) (t : Tensor),
    (computePrepackedConv2dClampRun inputs outputShape outputType = ok t
     <-> exists inp prepacked rest,
           inputs = ArgBuf inp :: ArgBuf prepacked :: rest
           /\ t = prepacked_call "prepacked_conv2d_clamp_run"
                    "nnc_prepacked_conv2d_clamp_run" inp prepacked
                    outputShape outputType)
    /\ (computePrepackedLinearClampRun inputs outputShape outputType = ok t
        <-> exists inp prepacked rest,
              inputs = ArgBuf inp :: ArgBuf prepacked :: rest
              /\ t = prepacked_call "prepacked_linear_clamp_run"
                       "nnc_prepacked_linear_clamp_run" inp prepacked
                       outputShape outputType).
Proof.
  intros inputs outputShape outputType t.
  split; (split;
    [ intros H;
      destruct inputs as [|a0 [|a1 rest]];
        [discriminate H | destruct a0; discriminate H |];
      destruct a0 as [inp| | | | | | | |]; try discriminate H;
      destruct a1 as [pre| | | | | | | |]; try discriminate H;
      injection H as <-; exists inp, pre, rest; split; reflexivity
    | intros (inp & pre & rest & -> & ->); reflexivity ]).
Qed.

(* ===================================================================== *)
(** * Further properties: the oracle and the specialized path *)
(* ===================================================================== *)

(** X4. The oracle looks at neither the batch size nor the spatial sizes of
    the input, nor at the magnitude of an isotropic stride or padding:
    changing them never changes its answer (so a kernel larger than the
    input, a zero stride or a negative padding are not rejected). *)
Theorem conv2dIsSupported_ignores_sizes :
  forall (dt : ScalarType) (weight bias : TensorInfo)
         (N C H W N' H' W' s p s' p' : Z) (dilation : list Z) (groups : Z),
    conv2dIsSupported (mkTensorInfo [N; C; H; W] dt) weight bias
      [s; s] [p; p] dilation groups
    = conv2dIsSupported (mkTensorInfo [N'; C; H'; W'] dt) weight bias
        [s'; s'] [p'; p'] dilation groups.
Proof.
  intros. unfold conv2dIsSupported.
  rewrite !conv2dIsSupported_log_cascade. cbn [dims dtype].
  unfold sizeZ, at0. cbn [List.length nth]. rewrite !Z.eqb_refl.
  reflexivity.
Qed.

Lemma int_div_defined_iff (a b : Z) :
  (exists q, int_div a b = ok q) <-> quot_defined 32 a b = true.
Proof.
  unfold int_div, div32. destruct (quot_defined 32 a b); split.
  - reflexivity.
  - intros _. eexists. reflexivity.
  - intros [q Hq]. discriminate Hq.
  - discriminate.
Qed.

Lemma int_div_undefined (a b : Z) :
  quot_defined 32 a b = false ->
  int_div a b = fail (Undefined "integer division").
Proof. unfold int_div, div32. now intros ->. Qed.

Lemma static_extent_defined_iff (H R pad stride : Z) :
  (exists OH, static_extent H R pad stride = ok OH)
  <-> extent_defined H R pad stride = true.
Proof.
  split; [|apply static_extent_defined].
  unfold extent_defined, static_extent, int_div, div32.
  destruct (quot_defined 32 _ stride); [reflexivity|].
  intros [OH E]. discriminate E.
Qed.

Lemma static_extent_undefined (H R pad stride : Z) :
  extent_defined H R pad stride = false ->
  static_extent H R pad stride = fail (Undefined "integer division").
Proof.
  unfold extent_defined, static_extent. intros Hd.
  now rewrite (int_div_undefined _ _ Hd).
Qed.

Lemma dim_extent_defined_eq (e : Expr) (R pad stride H : Z) :
  immediateAs_int e = ok H ->
  dim_extent_defined e R pad stride = extent_defined H R pad stride.
Proof. unfold dim_extent_defined. now intros ->. Qed.

Lemma quot_defined_nonzero (bits a b : Z) :
  quot_defined bits a b = true -> b <> 0.
Proof. intros Hd. now apply quot_defined_spec in Hd. Qed.

Lemma quot_defined_same (g : Z) : quot_defined 32 g g = negb (g =? 0).
Proof.
  unfold quot_defined.
  destruct (Z.eqb_spec g 0), (Z.eqb_spec g (- 2 ^ (32 - 1))),
    (Z.eqb_spec g (-1)); try reflexivity.
  match goal with
  | E1 : g = - 2 ^ (32 - 1), E2 : g = -1 |- _ =>
      rewrite E2 in E1; discriminate E1
  end.
Qed.

Lemma static_extent_fails (H R pad : Z) :
  static_extent H R pad 0 = fail (Undefined "integer division").
Proof. reflexivity. Qed.

(** X5. Whenever the static builder returns a tensor, its preconditions
    held: input and weight have rank 4 and constant dimensions,
    C == K == groups, CperG == 1, R == S, and stride and groups are not
    zero; the tensor is on the buffer "conv2d_depthwise" of shape
    [N, K, OH, OW] and float dtype.  The kernel need not be 3x3. *)
Theorem static_builder_postconditions :
  forall (input weight : BufHandle) (init_func : InitFunc)
         (stride pad groups : Z) (t : Tensor),
    conv2d_depthwise_static input weight init_func stride pad groups = ok t ->
    exists sh,
      static_shape input weight stride pad groups = ok sh
      /\ ndim input = 4 /\ ndim weight = 4
      /\ forallb isConstant input.(buf_dims) = true
      /\ forallb isConstant weight.(buf_dims) = true
      /\ sh.(sC) = groups /\ sh.(sK) = groups /\ sh.(sCperG) = 1
      /\ sh.(sR) = sh.(sS)
      /\ stride <> 0 /\ groups <> 0
      /\ t.(buf)
         = mkBuf "conv2d_depthwise"
             [IntImm sh.(sN); IntImm sh.(sK);
              IntImm sh.(sOH); IntImm sh.(sOW)] Float.
Proof.
  intros input weight init_func stride pad groups t Ht.
  destruct (static_builder_buffer _ _ _ _ _ _ _ Ht)
    as (_ & root & _ & sh & Hsh & Hroot).
  rewrite (static_builder_unfold _ _ _ _ _ _ _ Hsh), Hroot in Ht.
  injection Ht as <-.
  destruct (static_shape_inv_full _ _ _ _ _ _ Hsh)
    as (N1 & N2 & C1 & C2 & _ & _ & _ & _ & _ & _ & _ & _
        & HCK & HKg & HG & HRS & EOH & _ & ECg).
  exists sh. apply Z.eqb_eq in N1, N2.
  repeat split; try assumption; try congruence.
  - intros ->. rewrite static_extent_fails in EOH. discriminate EOH.
  - apply (quot_defined_nonzero 32 (sC sh)).
    apply int_div_defined_iff. now exists (sCg sh).
Qed.

Lemma static_builder_postconditions_witness :
  exists sh,
    static_shape ex_input ex_weight5 1 2 4 = ok sh
    /\ sh.(sR) = 5
    /\ sh.(sOH) = 8.
Proof.
  destruct (conv2d_depthwise_static ex_input ex_weight5 zero_init 1 2 4)
    as [e|t] eqn:Ht; [discriminate Ht|].
  destruct (static_builder_postconditions _ _ _ _ _ _ _ Ht)
    as (sh & Hsh & _).
  exists sh. split; [exact Hsh|].
  vm_compute in Hsh. injection Hsh as <-. split; reflexivity.
Defined.

Lemma specialized_call (inp w b : BufHandle) (a3 a4 a5 : ArgValue) (g : Z)
    (outputShape : list Expr) (outputType : option ScalarType)
    (strides padding dilation : list Z) (i wi bi : TensorInfo) :
  _pair_int a3 = ok strides ->
  _pair_int a4 = ok padding ->
  _pair_int a5 = ok dilation ->
  getTensorInfo inp = Some i ->
  getTensorInfo w = Some wi ->
  getTensorInfo b = Some bi ->
  conv2dIsSupported i wi bi strides padding dilation (wrap32 g) = true ->
  computeConv2d [ArgBuf inp; ArgBuf w; ArgBuf b; a3; a4; a5; ArgInt g]
    outputShape outputType
  = conv2d_depthwise_static inp w (bias_init b)
      (wrap32 (at0 strides 0)) (wrap32 (at0 padding 0)) (wrap32 g).
Proof.
  intros H3 H4 H5 Hi Hw Hb Hsup.
  rewrite (computeConv2d_unfold _ _ _ _ _ _ _ _ _ _ _ _ H3 H4 H5).
  cbv zeta. rewrite Hi, Hw, Hb, Hsup.
  unfold conv2d_depthwise_bias, assert_dims_constant.
  now rewrite (getTensorInfo_constant _ _ Hb).
Qed.

(** X6. On the specialized path (metadata available, oracle accepting)
    [computeConv2d] has a tensor as its result exactly when the two
    divisions of the extent computation and the division C / groups have
    a result: the stride, as a C++ [int], is not zero, neither dividend
    [H - 3 + 2 * pad], [W - 3 + 2 * pad] is [INT_MIN] with a stride of -1,
    and the group count is not zero.  Otherwise, on operands the oracle
    does not reject, the static builder performs an integer division
    without a defined result. *)
Theorem specialized_path_returns_iff :
  forall (inp w b : BufHandle) (a3 a4 a5 : ArgValue) (g : Z)
         (outputShape : list Expr) (outputType : option ScalarType)
         (strides padding dilation : list Z) (i wi bi : TensorInfo),
    _pair_int a3 = ok strides ->
    _pair_int a4 = ok padding ->
    _pair_int a5 = ok dilation ->
    getTensorInfo inp = Some i ->
    getTensorInfo w = Some wi ->
    getTensorInfo b = Some bi ->
    conv2dIsSupported i wi bi strides padding dilation (wrap32 g) = true ->
    let stride := wrap32 (at0 strides 0) in
    let pad := wrap32 (at0 padding 0) in
    let groups := wrap32 g in
    let call :=
      computeConv2d [ArgBuf inp; ArgBuf w; ArgBuf b; a3; a4; a5; ArgInt g]
        outputShape outputType in
    let defined :=
      dim_extent_defined (dim inp 2) 3 pad stride
      && dim_extent_defined (dim inp 3) 3 pad stride
      && negb (groups =? 0) in
    ((exists t, call = ok t) <-> defined = true)
    /\ (defined = false -> call = fail (Undefined "integer division"))
    /\ (stride = 0 \/ groups = 0 -> defined = false).
Proof.
  intros inp w b a3 a4 a5 g outputShape outputType strides padding dilation
    i wi bi H3 H4 H5 Hi Hw Hb Hsup. cbv zeta.
  rewrite (specialized_call _ _ _ _ _ _ _ outputShape outputType
             _ _ _ _ _ _ H3 H4 H5 Hi Hw Hb Hsup).
  destruct (specialized_shape_of_dims _ _ _ _ _ _ _ _ _ _ Hi Hw Hb
              (wrap32_range g) Hsup) as (N & H & W & _ & EH & EW & Hshape).
  set (stride := wrap32 (at0 strides 0)) in *.
  set (pad := wrap32 (at0 padding 0)) in *.
  set (groups := wrap32 g) in *.
  rewrite (dim_extent_defined_eq _ 3 pad stride _ EH),
    (dim_extent_defined_eq _ 3 pad stride _ EW).
  assert (Hundef :
    extent_defined H 3 pad stride && extent_defined W 3 pad stride
    && negb (groups =? 0) = false ->
    conv2d_depthwise_static inp w (bias_init b) stride pad groups
    = fail (Undefined "integer division")).
  { intros Hz. unfold conv2d_depthwise_static. rewrite Hshape.
    destruct (extent_defined H 3 pad stride) eqn:DH;
      [|now rewrite (static_extent_undefined _ _ _ _ DH)].
    destruct (static_extent_defined _ _ _ _ DH) as [OH ->].
    destruct (extent_defined W 3 pad stride) eqn:DW;
      [|now rewrite (static_extent_undefined _ _ _ _ DW)].
    destruct (static_extent_defined _ _ _ _ DW) as [OW ->].
    cbn [andb] in Hz. rewrite <- quot_defined_same in Hz.
    now rewrite (int_div_undefined _ _ Hz). }
  refine (conj _ (conj Hundef _)).
  - split.
    + intros [t Ht].
      destruct (extent_defined H 3 pad stride && extent_defined W 3 pad stride
                && negb (groups =? 0)); [reflexivity|].
      rewrite (Hundef eq_refl) in Ht. discriminate Ht.
    + intros Hd.
      apply andb_true_iff in Hd as [Hd Hg].
      apply andb_true_iff in Hd as [DH DW].
      apply negb_true_iff, Z.eqb_neq in Hg.
      destruct (static_extent_defined _ _ _ _ DH) as [OH EOH].
      destruct (static_extent_defined _ _ _ _ DW) as [OW EOW].
      assert (Hsh : static_shape inp w stride pad groups
                    = ok (mkStaticShape N groups H W groups 1 3 3 OH OW 1))
        by now rewrite Hshape, EOH, EOW, (int_div_same _ Hg).
      rewrite (static_builder_unfold _ _ _ _ _ _ _ Hsh).
      destruct (static_slicing_total inp w (bias_init b) stride pad
                  (mkStaticShape N groups H W groups 1 3 3 OH OW 1))
        as [nest ->].
      eexists. reflexivity.
  - intros [Hz | Hz]; rewrite Hz.
    + unfold extent_defined, quot_defined. cbn [Z.eqb negb andb].
      reflexivity.
    + cbn [Z.eqb negb]. now rewrite !andb_false_r.
Qed.

Lemma specialized_path_returns_iff_witness :
  computeConv2d
    [ArgBuf ex_input_h1; ArgBuf ex_weight; ArgBuf ex_bias;
     ArgInt (-1); ArgInt (-1073741823); ArgIntList [1; 1]; ArgInt 4]
    [] None = fail (Undefined "integer division").
Proof.
  destruct (specialized_path_returns_iff ex_input_h1 ex_weight ex_bias
              (ArgInt (-1)) (ArgInt (-1073741823)) (ArgIntList [1; 1]) 4
              [] None [-1; -1] [-1073741823; -1073741823] [1; 1]
              ex_input_h1_info ex_weight_info ex_bias_info
              eq_refl eq_refl eq_refl eq_refl eq_refl eq_refl eq_refl)
    as (_ & Hundef & _).
  apply Hundef. reflexivity.
Defined.

(** X7. On the specialized path the requested output shape and dtype are
    not used: the call gives the same result whatever they are, and a
    tensor it returns is on the float buffer "conv2d_depthwise" of shape
    [N, groups, OH, OW], with N, H and W read from the input and the
    extents computed from H, W, the padding and the stride for the 3x3
    kernel. *)
Theorem specialized_path_output_buffer :
  forall (inp w b : BufHandle) (a3 a4 a5 : ArgValue) (g : Z)
         (outputShape : list Expr) (outputType : option ScalarType)
         (strides padding dilation : list Z) (i wi bi : TensorInfo),
    _pair_int a3 = ok strides ->
    _pair_int a4 = ok padding ->
    _pair_int a5 = ok dilation ->
    getTensorInfo inp = Some i ->
    getTensorInfo w = Some wi ->
    getTensorInfo b = Some bi ->
    conv2dIsSupported i wi bi strides padding dilation (wrap32 g) = true ->
    let stride := wrap32 (at0 strides 0) in
    let pad := wrap32 (at0 padding 0) in
    let inputs := [ArgBuf inp; ArgBuf w; ArgBuf b; a3; a4; a5; ArgInt g] in
    (forall shape' type',
        computeConv2d inputs shape' type'
        = computeConv2d inputs outputShape outputType)
    /\ (forall t,
          computeConv2d inputs outputShape outputType = ok t ->
          exists N H W OH OW,
            immediateAs_int (dim inp 0) = ok N
            /\ immediateAs_int (dim inp 2) = ok H
            /\ immediateAs_int (dim inp 3) = ok W
            /\ static_extent H 3 pad stride = ok OH
            /\ static_extent W 3 pad stride = ok OW
            /\ t.(buf)
               = mkBuf "conv2d_depthwise"
                   [IntImm N; IntImm (wrap32 g); IntImm OH; IntImm OW] Float).
Proof.
  intros inp w b a3 a4 a5 g outputShape outputType strides padding dilation
    i wi bi H3 H4 H5 Hi Hw Hb Hsup. cbv zeta. split.
  - intros shape' type'.
    now rewrite !(specialized_call _ _ _ _ _ _ _ _ _ _ _ _ _ _ _
                    H3 H4 H5 Hi Hw Hb Hsup).
  - intros t.
    rewrite (specialized_call _ _ _ _ _ _ _ _ _ _ _ _ _ _ _
               H3 H4 H5 Hi Hw Hb Hsup).
    intros Ht.
    destruct (static_builder_buffer _ _ _ _ _ _ _ Ht)
      as (_ & root & _ & sh & Hsh & Hroot).
    rewrite (static_builder_unfold _ _ _ _ _ _ _ Hsh), Hroot in Ht.
    injection Ht as <-.
    destruct (static_shape_inv_full _ _ _ _ _ _ Hsh)
      as (_ & _ & _ & _ & EN & _ & EH & EW & _ & _ & ER & ES & _ & HK & _
          & _ & EOH & EOW & _).
    assert (Hbuf :
      (static_conv inp w (bias_init b) (wrap32 (at0 strides 0))
         (wrap32 (at0 padding 0)) sh).(buf)
      = mkBuf "conv2d_depthwise"
          [IntImm (sN sh); IntImm (sK sh); IntImm (sOH sh); IntImm (sOW sh)]
          Float) by reflexivity.
    cbn [buf]. fold (buf (static_conv inp w (bias_init b)
                            (wrap32 (at0 strides 0))
                            (wrap32 (at0 padding 0)) sh)).
    destruct (specialized_operands _ _ _ _ _ _ _ _ _ _ Hi Hw Hb
                (wrap32_range g) Hsup)
      as (_ & _ & _ & _ & _ & N' & H' & W' & _ & _ & _ & _ & _ & _ & ER' & ES').
    rewrite ER in ER'. rewrite ES in ES'.
    injection ER' as ER'. injection ES' as ES'.
    rewrite ER' in EOH. rewrite ES' in EOW. rewrite HK in Hbuf.
    exists (sN sh), (sH sh), (sW sh), (sOH sh), (sOW sh).
    repeat split; assumption.
Qed.

Lemma specialized_path_output_buffer_witness :
  exists t N H W OH OW,
    computeConv2d (ex_inputs (ArgInt 2) (ArgInt 1) (ArgIntList [1; 1]) 4)
      [IntImm 7] (Some Double) = ok t
    /\ immediateAs_int (dim ex_input 0) = ok N
    /\ immediateAs_int (dim ex_input 2) = ok H
    /\ immediateAs_int (dim ex_input 3) = ok W
    /\ static_extent H 3 1 2 = ok OH
    /\ static_extent W 3 1 2 = ok OW
    /\ t.(buf)
       = mkBuf "conv2d_depthwise"
           [IntImm N; IntImm 4; IntImm OH; IntImm OW] Float.
Proof.
  destruct (computeConv2d
              (ex_inputs (ArgInt 2) (ArgInt 1) (ArgIntList [1; 1]) 4)
              [IntImm 7] (Some Double)) as [e|t] eqn:Ht; [discriminate Ht|].
  destruct (proj2 (specialized_path_output_buffer ex_input ex_weight ex_bias
              (ArgInt 2) (ArgInt 1) (ArgIntList [1; 1]) 4 [IntImm 7]
              (Some Double) [2; 2] [1; 1] [1; 1]
              ex_input_info ex_weight_info ex_bias_info
              eq_refl eq_refl eq_refl eq_refl eq_refl eq_refl eq_refl) t Ht)
    as (N & H & W & OH & OW & HN & HH & HW & HOH & HOW & Hbuf).
  exists t, N, H, W, OH, OW. repeat split; assumption.
Defined.

(* ===================================================================== *)
(** * Further properties: extents and where the mask fires *)
(* ===================================================================== *)

(** X8. For the two configurations the loop specialization recognises
    (3x3 kernel, padding 1): at stride 1 the output extent is the input
    extent; at stride 2 it is (H + 1) / 2 for a non-empty input, but an
    empty input (H = 0) gets the extent 1, because the C++ division rounds
    -1 / 2 to 0. *)
Theorem recognised_configurations_extents :
  forall H : Z,
    0 <= H < 2 ^ 31 ->
    static_extent H 3 1 1 = ok H
    /\ (1 <= H -> static_extent H 3 1 2 = ok ((H + 1) / 2))
    /\ (H = 0 -> static_extent H 3 1 2 = ok 1).
Proof.
  intros H HH. change (2 ^ 31) with 2147483648 in HH.
  refine (conj _ (conj _ _)).
  - assert (Hq : Z.quot (H - 3 + 2 * 1) 1 = H - 1)
      by (rewrite Z.quot_1_r; lia).
    rewrite static_extent_exact.
    + rewrite Hq. f_equal. lia.
    + lia.
    + unfold extent_no_overflow. rewrite Hq. unfold in_int32.
      change (2 ^ 31) with 2147483648. lia.
  - intros H1.
    assert (Hq : Z.quot (H - 3 + 2 * 1) 2 = (H + 1) / 2 - 1).
    { rewrite Z.quot_div_nonneg by lia.
      replace (H + 1) with (H - 3 + 2 * 1 + 1 * 2) by lia.
      rewrite Z.div_add by lia. lia. }
    pose proof (Z.div_pos (H + 1) 2 ltac:(lia) ltac:(lia)) as Hpos.
    pose proof (Z.div_le_upper_bound (H + 1) 2 H ltac:(lia) ltac:(lia)) as Hup.
    rewrite static_extent_exact.
    + rewrite Hq. f_equal. lia.
    + lia.
    + unfold extent_no_overflow. rewrite Hq. unfold in_int32.
      change (2 ^ 31) with 2147483648. lia.
  - intros ->. reflexivity.
Qed.

Lemma recognised_configurations_extents_witness :
  static_extent 7 3 1 1 = ok 7 /\ static_extent 7 3 1 2 = ok 4.
Proof.
  destruct (recognised_configurations_extents 7) as (H1 & H2 & _).
  - now vm_compute.
  - split; [exact H1|]. apply H2. lia.
Defined.

Lemma out_of_bounds_true_iff (ih iw H W : Z) :
  out_of_bounds ih iw H W = true <-> ih < 0 \/ iw < 0 \/ H <= ih \/ W <= iw.
Proof.
  unfold out_of_bounds.
  rewrite !orb_true_iff, !Z.ltb_lt, !Z.geb_le. tauto.
Qed.

Lemma out_of_bounds_false_iff (ih iw H W : Z) :
  out_of_bounds ih iw H W = false <-> 0 <= ih < H /\ 0 <= iw < W.
Proof.
  rewrite <- not_true_iff_false, out_of_bounds_true_iff. lia.
Qed.

(** Where the boundary test is false the contribution is the plain
    product. *)
Lemma static_body_unmasked (input weight : BufHandle) (env : Env) (mem : Mem)
    (v : list Expr) (n k oh ow c r s H W stride pad : Z) :
  Forall2 (fun e z => eval_int env mem e = Some z) v [n; k; oh; ow; c; r; s] ->
  index_fits oh stride pad r -> index_fits ow stride pad s ->
  out_of_bounds (oh * stride - pad + r) (ow * stride - pad + s) H W = false ->
  eval env mem (static_body input weight H W stride pad v)
  = Some (VFloat
            (f32_mul
               (mem input.(buf_name)
                  [n; k; oh * stride - pad + r; ow * stride - pad + s])
               (mem weight.(buf_name) [k; c; r; s]))).
Proof.
  intros Hv Fh Fw Hin. rewrite static_body_is_dynamic_body.
  rewrite (dynamic_body_eval input weight env mem
             (IntImm H) (IntImm W) (IntImm stride) (IntImm pad) v
             n k oh ow c r s H W stride pad Hv
             eq_refl eq_refl eq_refl eq_refl Fh Fw).
  cbv zeta. now rewrite Hin.
Qed.

(** X9. At stride 1 and padding 1 with a 3x3 kernel, over the output
    positions 0 <= oh < H, 0 <= ow < W the boundary test is true exactly
    at the first row with r = 0, the last row with r = 2, the first column
    with s = 0 and the last column with s = 2.  Hence in the main loops
    that Rule B leaves between the peeled first and last iterations, every
    contribution is the unmasked product input * weight. *)
Theorem stride1_mask_only_at_edges :
  forall (H W oh ow r s : Z),
    0 <= H < 2 ^ 31 -> 0 <= W < 2 ^ 31 ->
    0 <= oh < H -> 0 <= ow < W -> 0 <= r < 3 -> 0 <= s < 3 ->
    (out_of_bounds (oh * 1 - 1 + r) (ow * 1 - 1 + s) H W = true
     <-> (oh = 0 /\ r = 0) \/ (oh = H - 1 /\ r = 2)
         \/ (ow = 0 /\ s = 0) \/ (ow = W - 1 /\ s = 2))
    /\ (Z.min 1 H <= oh < Z.max (Z.min 1 H) (H - 1) ->
        Z.min 1 W <= ow < Z.max (Z.min 1 W) (W - 1) ->
        forall (input weight : BufHandle) (env : Env) (mem : Mem)
               (v : list Expr) (n k c : Z),
          Forall2 (fun e z => eval_int env mem e = Some z) v
            [n; k; oh; ow; c; r; s] ->
          eval env mem (static_body input weight H W 1 1 v)
          = Some (VFloat
                    (f32_mul
                       (mem input.(buf_name)
                          [n; k; oh * 1 - 1 + r; ow * 1 - 1 + s])
                       (mem weight.(buf_name) [k; c; r; s])))).
Proof.
  intros H W oh ow r s HH HW Hoh How Hr Hs.
  change (2 ^ 31) with 2147483648 in *. split.
  - rewrite out_of_bounds_true_iff. lia.
  - intros Mh Mw input weight env mem v n k c Hv.
    apply static_body_unmasked; [exact Hv| | |].
    + unfold index_fits, in_int32. change (2 ^ 31) with 2147483648. lia.
    + unfold index_fits, in_int32. change (2 ^ 31) with 2147483648. lia.
    + apply out_of_bounds_false_iff. lia.
Qed.

Lemma stride1_mask_only_at_edges_witness :
  out_of_bounds (0 * 1 - 1 + 0) (3 * 1 - 1 + 1) 8 8 = true
  /\ eval (index_env 0 2 3 4 0 0 2) ex_mem_one
       (static_body ex_input ex_weight 8 8 1 1 index_vars)
     = Some (VFloat (f32_of_Z 1)).
Proof.
  split.
  - apply (proj1 (stride1_mask_only_at_edges 8 8 0 3 0 1
                    ltac:(now vm_compute) ltac:(now vm_compute)
                    ltac:(lia) ltac:(lia) ltac:(lia) ltac:(lia))).
    left. split; reflexivity.
  - apply (proj2 (stride1_mask_only_at_edges 8 8 3 4 0 2
                    ltac:(now vm_compute) ltac:(now vm_compute)
                    ltac:(lia) ltac:(lia) ltac:(lia) ltac:(lia))
             ltac:(now vm_compute) ltac:(now vm_compute)
             ex_input ex_weight (index_env 0 2 3 4 0 0 2) ex_mem_one
             index_vars 0 2 0).
    repeat constructor.
Defined.

(** Where the boundary test is true the contribution is 0.f times the
    weight. *)
Lemma static_body_masked (input weight : BufHandle) (env : Env) (mem : Mem)
    (v : list Expr) (n k oh ow c r s H W stride pad : Z) :
  Forall2 (fun e z => eval_int env mem e = Some z) v [n; k; oh; ow; c; r; s] ->
  index_fits oh stride pad r -> index_fits ow stride pad s ->
  out_of_bounds (oh * stride - pad + r) (ow * stride - pad + s) H W = true ->
  eval env mem (static_body input weight H W stride pad v)
  = Some (VFloat (f32_mul f32_zero (mem weight.(buf_name) [k; c; r; s]))).
Proof.
  intros Hv Fh Fw Hout. rewrite static_body_is_dynamic_body.
  rewrite (dynamic_body_eval input weight env mem
             (IntImm H) (IntImm W) (IntImm stride) (IntImm pad) v
             n k oh ow c r s H W stride pad Hv
             eq_refl eq_refl eq_refl eq_refl Fh Fw).
  cbv zeta. now rewrite Hout.
Qed.

(** X10. At stride 2 and padding 1 with a 3x3 kernel, over the output
    positions 0 <= oh < (H+1)/2, 0 <= ow < (W+1)/2, the body built by the
    static builder evaluates to 0.f * weight exactly at oh = 0 with r = 0,
    at ow = 0 with s = 0, and, when the input extent is odd, at the last
    position with r = 2 (2*oh = H - 1) or s = 2 (2*ow = W - 1); everywhere
    else it evaluates to the product input * weight.  So in the loops Rule
    A leaves after the two peeled iterations every contribution is the
    unmasked product when H and W are even, while for an odd H >= 5 their
    last iteration still holds a masked contribution. *)
Theorem stride2_mask_positions :
  forall (H W oh ow r s : Z),
    1 <= H < 2 ^ 31 -> 1 <= W < 2 ^ 31 ->
    0 <= oh < (H + 1) / 2 -> 0 <= ow < (W + 1) / 2 ->
    0 <= r < 3 -> 0 <= s < 3 ->
    forall (input weight : BufHandle) (env : Env) (mem : Mem)
           (v : list Expr) (n k c : Z),
      Forall2 (fun e z => eval_int env mem e = Some z) v
        [n; k; oh; ow; c; r; s] ->
      let masked :=
        (oh = 0 /\ r = 0) \/ (2 * oh = H - 1 /\ r = 2)
        \/ (ow = 0 /\ s = 0) \/ (2 * ow = W - 1 /\ s = 2) in
      let body := static_body input weight H W 2 1 v in
      let zero_product :=
        Some (VFloat (f32_mul f32_zero (mem weight.(buf_name) [k; c; r; s]))) in
      let product :=
        Some (VFloat
                (f32_mul
                   (mem input.(buf_name)
                      [n; k; oh * 2 - 1 + r; ow * 2 - 1 + s])
                   (mem weight.(buf_name) [k; c; r; s]))) in
      (out_of_bounds (oh * 2 - 1 + r) (ow * 2 - 1 + s) H W = true <-> masked)
      /\ (masked -> eval env mem body = zero_product)
      /\ (~ masked -> eval env mem body = product)
      /\ (H mod 2 = 0 -> W mod 2 = 0 -> 2 <= oh -> 2 <= ow ->
          eval env mem body = product)
      /\ (H mod 2 = 1 -> 5 <= H -> oh = (H - 1) / 2 -> r = 2 ->
          2 <= oh /\ eval env mem body = zero_product).
Proof.
  intros H W oh ow r s H1 W1 Hoh How Hr Hs input weight env mem v n k c Hv.
  cbv zeta. change (2 ^ 31) with 2147483648 in *.
  pose proof (Z.div_mod (H + 1) 2 ltac:(lia)) as DH.
  pose proof (Z.mod_pos_bound (H + 1) 2 ltac:(lia)) as MH.
  pose proof (Z.div_mod (W + 1) 2 ltac:(lia)) as DW.
  pose proof (Z.mod_pos_bound (W + 1) 2 ltac:(lia)) as MW.
  pose proof (Z.div_mod H 2 ltac:(lia)) as EH.
  pose proof (Z.div_mod W 2 ltac:(lia)) as EW.
  pose proof (Z.div_mod (H - 1) 2 ltac:(lia)) as PH.
  pose proof (Z.mod_pos_bound (H - 1) 2 ltac:(lia)) as QH.
  assert (Fh : index_fits oh 2 1 r).
  { unfold index_fits, in_int32. change (2 ^ 31) with 2147483648. lia. }
  assert (Fw : index_fits ow 2 1 s).
  { unfold index_fits, in_int32. change (2 ^ 31) with 2147483648. lia. }
  assert (Hiff :
    out_of_bounds (oh * 2 - 1 + r) (ow * 2 - 1 + s) H W = true
    <-> (oh = 0 /\ r = 0) \/ (2 * oh = H - 1 /\ r = 2)
        \/ (ow = 0 /\ s = 0) \/ (2 * ow = W - 1 /\ s = 2)).
  { rewrite out_of_bounds_true_iff. lia. }
  refine (conj Hiff (conj _ (conj _ (conj _ _)))).
  - intros Hm.
    apply (static_body_masked input weight env mem v n k oh ow c r s
             H W 2 1 Hv Fh Fw).
    now apply Hiff.
  - intros Hm. apply static_body_unmasked; auto.
    apply not_true_iff_false. intros Ho. apply Hm. now apply Hiff.
  - intros Ev Ew Ho Hw. apply static_body_unmasked; auto.
    apply out_of_bounds_false_iff. lia.
  - intros Od H5 Eoh Er. split; [lia|].
    apply (static_body_masked input weight env mem v n k oh ow c r s
             H W 2 1 Hv Fh Fw).
    apply out_of_bounds_true_iff. lia.
Qed.

Lemma stride2_mask_positions_witness :
  eval (index_env 0 2 2 1 0 2 1) ex_mem_one
    (static_body ex_input ex_weight 5 8 2 1 index_vars)
  = Some (VFloat (f32_mul f32_zero (f32_of_Z 1)))
  /\ eval (index_env 0 2 3 2 0 2 0) ex_mem_one
       (static_body ex_input ex_weight 8 8 2 1 index_vars)
     = Some (VFloat (f32_of_Z 1)).
Proof.
  split.
  - apply (proj1 (proj2 (stride2_mask_positions 5 8 2 1 2 1
                    ltac:(now vm_compute) ltac:(now vm_compute)
                    ltac:(now vm_compute) ltac:(now vm_compute)
                    ltac:(lia) ltac:(lia)
                    ex_input ex_weight (index_env 0 2 2 1 0 2 1) ex_mem_one
                    index_vars 0 2 0 ltac:(repeat constructor)))).
    right. left. split; reflexivity.
  - apply (proj1 (proj2 (proj2 (proj2 (stride2_mask_positions 8 8 3 2 2 0
                    ltac:(now vm_compute) ltac:(now vm_compute)
                    ltac:(now vm_compute) ltac:(now vm_compute)
                    ltac:(lia) ltac:(lia)
                    ex_input ex_weight (index_env 0 2 3 2 0 2 0) ex_mem_one
                    index_vars 0 2 0 ltac:(repeat constructor))))));
      try reflexivity; lia.
Defined.

(* ===================================================================== *)
(** * Further properties: what the loop nest computes *)
(* ===================================================================== *)

Lemma for_range_inv (I : Z -> Mem -> Prop) (f : Z -> Mem -> option Mem) :
  forall (n : nat) (lo : Z) (m : Mem),
    I lo m ->
    (forall i m0, lo <= i < lo + Z.of_nat n -> I i m0 ->
                  exists m1, f i m0 = Some m1 /\ I (i + 1) m1) ->
    exists m', for_range n lo f m = Some m' /\ I (lo + Z.of_nat n) m'.
Proof.
  induction n as [|n IH]; intros lo m H0 Hstep.
  - exists m. split; [reflexivity|]. now rewrite Z.add_0_r.
  - destruct (Hstep lo m ltac:(lia) H0) as (m1 & E1 & I1).
    destruct (IH (lo + 1) m1 I1) as (m' & E' & I').
    { intros i m0 Hi. apply Hstep. lia. }
    exists m'. split.
    + cbn [for_range]. rewrite E1. exact E'.
    + now replace (lo + Z.of_nat (S n)) with (lo + 1 + Z.of_nat n) by lia.
Qed.

Lemma fold_range_snoc {A : Type} (g : Z -> A -> A) :
  forall (n : nat) (lo : Z) (a : A),
    fold_range (S n) lo g a = g (lo + Z.of_nat n) (fold_range n lo g a).
Proof.
  induction n as [|n IH]; intros lo a.
  - cbn. now rewrite Z.add_0_r.
  - change (fold_range (S (S n)) lo g a)
      with (fold_range (S n) (lo + 1) g (g lo a)).
    rewrite IH. cbn [fold_range].
    now replace (lo + 1 + Z.of_nat n) with (lo + Z.of_nat (S n)) by lia.
Qed.

Lemma fold_range_ext {A : Type} (g h : Z -> A -> A) :
  (forall i a, g i a = h i a) ->
  forall n lo a, fold_range n lo g a = fold_range n lo h a.
Proof.
  intros Hgh n. induction n as [|n IH]; intros lo a; cbn; [reflexivity|].
  now rewrite Hgh, IH.
Qed.

Lemma index_eqb_refl (idx : list Z) : index_eqb idx idx = true.
Proof.
  induction idx as [|x idx IH]; cbn; [reflexivity|].
  now rewrite Z.eqb_refl.
Qed.

Lemma index_eqb_eq : forall a b : list Z, index_eqb a b = true -> a = b.
Proof.
  induction a as [|x a IH]; intros [|y b] E; cbn in E; try discriminate.
  - reflexivity.
  - apply andb_true_iff in E as [E1 E2].
    apply Z.eqb_eq in E1. apply IH in E2. now subst.
Qed.

Lemma mem_eq_refl (m : Mem) : mem_eq m m.
Proof. intros b idx. reflexivity. Qed.

Lemma mem_eq_trans (m1 m2 m3 : Mem) :
  mem_eq m1 m2 -> mem_eq m2 m3 -> mem_eq m1 m3.
Proof. intros H12 H23 b idx. now rewrite H12. Qed.

Lemma mem_store_same (m : Mem) (b : string) (idx : list Z) (v : float32) :
  mem_store m b idx v b idx = v.
Proof. unfold mem_store. now rewrite String.eqb_refl, index_eqb_refl. Qed.

Lemma mem_store_other (m : Mem) (b b' : string) (idx idx' : list Z)
    (v : float32) :
  b' <> b -> mem_store m b idx v b' idx' = m b' idx'.
Proof.
  intros Hb. unfold mem_store.
  destruct (String.eqb_spec b b') as [->|_]; [contradiction|reflexivity].
Qed.

Lemma mem_store_overwrite (m mb : Mem) (b : string) (idx : list Z)
    (a v : float32) :
  mem_eq m (mem_store mb b idx a) ->
  mem_eq (mem_store m b idx v) (mem_store mb b idx v).
Proof.
  intros Hm b' idx'. unfold mem_store.
  destruct (String.eqb b b' && index_eqb idx idx') eqn:E; [reflexivity|].
  rewrite Hm. unfold mem_store. now rewrite E.
Qed.

(** A loop whose every iteration rewrites one element of the result buffer
    from its previous value leaves the fold of these rewritings there. *)
Lemma accumulate_loop (f : Z -> Mem -> option Mem)
    (g : Z -> float32 -> float32) (mb : Mem) (idx0 : list Z) (n : nat) :
  (forall i m a, 0 <= i < Z.of_nat n ->
                 mem_eq m (mem_store mb out_name idx0 a) ->
                 exists m', f i m = Some m'
                            /\ mem_eq m' (mem_store mb out_name idx0 (g i a))) ->
  forall m a,
    mem_eq m (mem_store mb out_name idx0 a) ->
    exists m', for_range n 0 f m = Some m'
               /\ mem_eq m' (mem_store mb out_name idx0 (fold_range n 0 g a)).
Proof.
  intros Hstep m a Hm.
  destruct (for_range_inv
              (fun i m' =>
                 mem_eq m' (mem_store mb out_name idx0
                              (fold_range (Z.to_nat i) 0 g a)))
              f n 0 m Hm) as (m' & E & Hm').
  - intros i m0 Hi Hm0.
    destruct (Hstep i m0 _ ltac:(lia) Hm0) as (m1 & E1 & Hm1).
    exists m1. split; [exact E1|].
    replace (Z.to_nat (i + 1)) with (S (Z.to_nat i)) by lia.
    rewrite fold_range_snoc.
    now replace (0 + Z.of_nat (Z.to_nat i)) with i by lia.
  - exists m'. split; [exact E|].
    now replace (Z.to_nat (0 + Z.of_nat n)) with n in Hm' by lia.
Qed.

Lemma region_mem_off_out (mb : Mem) (D : list Z -> bool)
    (val : list Z -> float32) :
  agree_off_out (region_mem mb D val) mb.
Proof.
  intros b idx Hb. unfold region_mem.
  destruct (String.eqb_spec out_name b) as [E|_]; [|reflexivity].
  now destruct Hb.
Qed.

Lemma region_mem_ext (mb : Mem) (D D' : list Z -> bool)
    (val : list Z -> float32) :
  (forall idx, D idx = D' idx) ->
  mem_eq (region_mem mb D val) (region_mem mb D' val).
Proof. intros HD b idx. unfold region_mem. now rewrite HD. Qed.

(** A loop whose iteration [i] fills the region [Dstep i] of the result
    buffer with values that depend only on the other buffers fills the
    union of these regions. *)
Lemma region_loop (f : Z -> Mem -> option Mem)
    (val : Mem -> list Z -> float32) (Dstep Dacc : Z -> list Z -> bool)
    (n : nat) :
  (forall m m', agree_off_out m m' -> forall idx, val m idx = val m' idx) ->
  (forall idx, Dacc 0 idx = false) ->
  (forall i idx, 0 <= i < Z.of_nat n ->
                 Dacc (i + 1) idx = Dacc i idx || Dstep i idx) ->
  (forall i m, 0 <= i < Z.of_nat n ->
               exists m', f i m = Some m'
                          /\ mem_eq m' (region_mem m (Dstep i) (val m))) ->
  forall m,
    exists m', for_range n 0 f m = Some m'
               /\ mem_eq m' (region_mem m (Dacc (Z.of_nat n)) (val m)).
Proof.
  intros Hval H0 Hacc Hstep m.
  destruct (for_range_inv
              (fun i m' => mem_eq m' (region_mem m (Dacc i) (val m)))
              f n 0 m) as (m' & E & Hm').
  - intros b idx. unfold region_mem. rewrite H0.
    now rewrite andb_false_r.
  - intros i m0 Hi Hm0.
    destruct (Hstep i m0 ltac:(lia)) as (m1 & E1 & Hm1).
    exists m1. split; [exact E1|].
    assert (Hagree : agree_off_out m0 m).
    { intros b idx Hb. rewrite Hm0. now apply region_mem_off_out. }
    intros b idx. rewrite Hm1. unfold region_mem.
    rewrite (Hval m0 m Hagree), Hacc by lia.
    rewrite Hm0. unfold region_mem.
    destruct (String.eqb out_name b), (Dacc i idx), (Dstep i idx);
      reflexivity.
  - exists m'. split; [exact E|]. exact Hm'.
Qed.

Lemma interval_empty (x : Z) : interval 0 0 x = false.
Proof.
  unfold interval. destruct (Z.leb_spec 0 x), (Z.ltb_spec x 0);
    try reflexivity; lia.
Qed.

Lemma interval_split (i x : Z) :
  0 <= i -> interval 0 (i + 1) x = interval 0 i x || interval i (i + 1) x.
Proof.
  intros Hi. unfold interval.
  destruct (Z.leb_spec 0 x), (Z.ltb_spec x (i + 1)), (Z.ltb_spec x i),
    (Z.leb_spec i x); try reflexivity; lia.
Qed.

Lemma interval_to_nat (X x : Z) :
  interval 0 (Z.of_nat (Z.to_nat X)) x = interval 0 X x.
Proof.
  unfold interval.
  destruct (Z.leb_spec 0 x), (Z.ltb_spec x (Z.of_nat (Z.to_nat X))),
    (Z.ltb_spec x X); try reflexivity; lia.
Qed.

Lemma interval_point (i x : Z) : interval i (i + 1) x = (i =? x).
Proof.
  unfold interval.
  destruct (Z.leb_spec i x), (Z.ltb_spec x (i + 1)), (Z.eqb_spec i x);
    try reflexivity; lia.
Qed.

Lemma in_box4_point (n k oh ow : Z) (idx : list Z) :
  in_box4 n (n + 1) k (k + 1) oh (oh + 1) ow (ow + 1) idx
  = index_eqb [n; k; oh; ow] idx.
Proof.
  destruct idx as [|a [|b [|c [|d [|e l]]]]]; cbn [in_box4 index_eqb];
    try reflexivity; rewrite ?interval_point;
    repeat match goal with
           | |- context [?x =? ?y] => destruct (x =? y)
           end; reflexivity.
Qed.

Lemma mem_store_as_region (m : Mem) (n k oh ow : Z)
    (val : list Z -> float32) :
  mem_eq (mem_store m out_name [n; k; oh; ow] (val [n; k; oh; ow]))
    (region_mem m (in_box4 n (n + 1) k (k + 1) oh (oh + 1) ow (ow + 1)) val).
Proof.
  intros b idx. unfold mem_store, region_mem. rewrite in_box4_point.
  destruct (String.eqb out_name b); [|reflexivity]. cbn [andb].
  destruct (index_eqb [n; k; oh; ow] idx) eqn:E; [|reflexivity].
  now apply index_eqb_eq in E as <-.
Qed.

Lemma exec_Store (env : Env) (b : string) (i : list Expr) (v : Expr)
    (m : Mem) :
  exec env (Store b i v) m
  = (idx <-? eval_indices env m i ;; x <-? eval env m v ;;
     match x with
     | VFloat f => Some (mem_store m b idx f)
     | _ => None
     end).
Proof. reflexivity. Qed.

Lemma eval_accumulate (env : Env) (m : Mem) (b : string)
    (e1 e2 e3 e4 body : Expr) (l : list string) (z1 z2 z3 z4 : Z)
    (x : float32) :
  eval_int env m e1 = Some z1 -> eval_int env m e2 = Some z2 ->
  eval_int env m e3 = Some z3 -> eval_int env m e4 = Some z4 ->
  eval env m body = Some (VFloat x) ->
  eval env m (ReduceOp (Add (Load b [e1; e2; e3; e4]) body) l)
  = Some (VFloat (f32_add (m b [z1; z2; z3; z4]) x)).
Proof.
  intros H1 H2 H3 H4 Hb.
  change (eval env m (ReduceOp (Add (Load b [e1; e2; e3; e4]) body) l))
    with (opt_bind (eval env m (Load b [e1; e2; e3; e4]))
            (fun x => opt_bind (eval env m body)
                        (fun y => eval_binop OpAdd x y))).
  rewrite (eval_Load4 _ _ _ _ _ _ _ _ _ _ _ H1 H2 H3 H4), Hb. reflexivity.
Qed.

Lemma exec_block_single (env : Env) (s : Stmt) (m m' : Mem) :
  exec env s m = Some m' -> exec_block env [s] m = Some m'.
Proof. intros E. cbn [exec_block]. now rewrite E. Qed.

Lemma const_int_eval_int (e : Expr) (z : Z) (env : Env) (m : Mem) :
  const_int e z -> eval_int env m e = Some z.
Proof. intros He. unfold eval_int. now rewrite He. Qed.

Lemma stable_eval_int (env0 env : Env) (e : Expr) (z : Z) (m : Mem) :
  stable_int env0 e z -> extends env0 env -> eval_int env m e = Some z.
Proof. intros He Hext. unfold eval_int. now rewrite (He env m Hext). Qed.

Lemma const_int_stable (env0 : Env) (e : Expr) (z : Z) :
  const_int e z -> stable_int env0 e z.
Proof. intros He env m _. apply He. Qed.

Lemma exec_For_stable (env0 env : Env) (x : string) (b : Expr) (hi : Z)
    (body : list Stmt) (m : Mem) :
  stable_int env0 b hi -> extends env0 env ->
  exec env (For x (IntImm 0) b body) m
  = for_range (Z.to_nat hi) 0 (loop_body env x (VInt 0) body) m.
Proof.
  intros Hb Hext. rewrite exec_For. cbn [eval opt_bind int_of_value].
  rewrite (Hb env m Hext). cbn [opt_bind int_of_value].
  now rewrite Z.sub_0_r.
Qed.

Ltac ext_solve :=
  repeat (apply extends_bind; [now (cbn; auto 10)|]); assumption.

Ltac box_solve i :=
  let idx := fresh "idx" in
  intros idx; intros;
  destruct idx as [|? [|? [|? [|? [|? ?]]]]]; cbn [in_box4];
  try reflexivity;
  rewrite ?interval_empty, ?interval_to_nat, ?(interval_split i) by lia;
  repeat match goal with
         | |- context [interval ?a ?b ?c] => destruct (interval a b c)
         end;
  reflexivity.

Section NestSemantics.

Variables (input weight : BufHandle) (init_func : InitFunc) (env0 : Env).
Variable init_value : Mem -> Z -> float32.
Variables (Ne Ke OHe OWe Cge Re Se He We se pe : Expr).
Variables (N K OH OW Cg R S H W stride pad : Z).

Hypothesis N_stable : stable_int env0 Ne N.
Hypothesis K_stable : stable_int env0 Ke K.
Hypothesis OH_stable : stable_int env0 OHe OH.
Hypothesis OW_stable : stable_int env0 OWe OW.
Hypothesis Cg_stable : stable_int env0 Cge Cg.
Hypothesis R_stable : stable_int env0 Re R.
Hypothesis S_stable : stable_int env0 Se S.
Hypothesis H_stable : stable_int env0 He H.
Hypothesis W_stable : stable_int env0 We W.
Hypothesis stride_stable : stable_int env0 se stride.
Hypothesis pad_stable : stable_int env0 pe pad.

Hypothesis input_name : input.(buf_name) <> out_name.
Hypothesis weight_name : weight.(buf_name) <> out_name.

Hypothesis init_eval :
  forall env m k,
    lookup env "k" = Some (VInt k) ->
    eval env m (Cast Float (init_func output_vars))
    = Some (VFloat (init_value m k)).
Hypothesis init_frame :
  forall m m' k, agree_off_out m m' -> init_value m k = init_value m' k.

Hypothesis fits_h :
  forall oh r, 0 <= oh < OH -> 0 <= r < R -> index_fits oh stride pad r.
Hypothesis fits_w :
  forall ow s, 0 <= ow < OW -> 0 <= s < S -> index_fits ow stride pad s.

Local Abbreviation contrib mb n k oh ow :=
  (contribution mb input weight H W stride pad n k oh ow).
Local Abbreviation update := (update_stmt input weight He We se pe).
Local Abbreviation val :=
  (fun m => conv_at m input weight init_value Cg R S H W stride pad).

Lemma contribution_frame (m m' : Mem) (n k oh ow c r s : Z) :
  agree_off_out m m' -> contrib m n k oh ow c r s = contrib m' n k oh ow c r s.
Proof.
  intros Hag. unfold contribution.
  now rewrite (Hag _ _ input_name), (Hag _ _ weight_name).
Qed.

Lemma conv_at_frame (m m' : Mem) :
  agree_off_out m m' -> forall idx, val m idx = val m' idx.
Proof.
  intros Hag idx.
  destruct idx as [|n [|k [|oh [|ow [|e l]]]]]; cbn [conv_at];
    try reflexivity.
  unfold conv_sum. rewrite (init_frame m m' k Hag).
  apply fold_range_ext. intros c a.
  apply fold_range_ext. intros r a'.
  apply fold_range_ext. intros s a''.
  now rewrite (contribution_frame m m' n k oh ow c r s Hag).
Qed.

Lemma store_agree (mb m : Mem) (idx : list Z) (a : float32) :
  mem_eq m (mem_store mb out_name idx a) -> agree_off_out m mb.
Proof.
  intros Hm b idx' Hb. rewrite Hm. now apply mem_store_other.
Qed.

Lemma update_step (env : Env) (n k oh ow c r s : Z) (mb m : Mem)
    (a : float32) :
  extends env0 env ->
  0 <= oh < OH -> 0 <= ow < OW -> 0 <= r < R -> 0 <= s < S ->
  mem_eq m (mem_store mb out_name [n; k; oh; ow] a) ->
  exists m',
    exec (red_env env n k oh ow c r s) update m = Some m'
    /\ mem_eq m'
         (mem_store mb out_name [n; k; oh; ow]
            (f32_add a (contrib mb n k oh ow c r s))).
Proof.
  intros Hext Hoh How Hr Hs Hm. unfold update_stmt. rewrite exec_Store.
  replace (eval_indices (red_env env n k oh ow c r s) m output_vars)
    with (Some [n; k; oh; ow]) by reflexivity.
  cbn [opt_bind]. unfold output_vars.
  rewrite (eval_accumulate _ _ _ _ _ _ _ _ _ n k oh ow
             (contrib m n k oh ow c r s));
    try reflexivity.
  - cbn [opt_bind]. eexists. split; [reflexivity|].
    rewrite (Hm out_name [n; k; oh; ow]), mem_store_same.
    rewrite (contribution_frame m mb) by (eapply store_agree; exact Hm).
    eapply mem_store_overwrite. exact Hm.
  - apply (dynamic_body_eval input weight _ m He We se pe index_vars
             n k oh ow c r s H W stride pad);
      try (eapply stable_eval_int; [eassumption|ext_solve]); auto.
    repeat constructor.
Qed.

Lemma s_loop (env : Env) (n k oh ow c r : Z) (mb m : Mem) (a : float32) :
  extends env0 env ->
  0 <= oh < OH -> 0 <= ow < OW -> 0 <= r < R ->
  mem_eq m (mem_store mb out_name [n; k; oh; ow] a) ->
  exists m',
    exec (("r", VInt r) :: ("c", VInt c) :: out_env env n k oh ow)
      (For "s" (IntImm 0) Se [update]) m = Some m'
    /\ mem_eq m'
         (mem_store mb out_name [n; k; oh; ow]
            (fold_range (Z.to_nat S) 0
               (fun s acc => f32_add acc (contrib mb n k oh ow c r s)) a)).
Proof.
  intros Hext Hoh How Hr Hm.
  rewrite (exec_For_stable env0 _ _ _ S _ _ S_stable) by ext_solve.
  apply accumulate_loop; [|exact Hm].
  intros i m1 a1 Hi Hm1. unfold loop_body. cbn [loop_var_value].
  destruct (update_step env n k oh ow c r i mb m1 a1 Hext Hoh How Hr
              ltac:(lia) Hm1) as (m2 & E & Hm2).
  exists m2. split; [|exact Hm2].
  apply exec_block_single. exact E.
Qed.

Lemma r_loop (env : Env) (n k oh ow c : Z) (mb m : Mem) (a : float32) :
  extends env0 env ->
  0 <= oh < OH -> 0 <= ow < OW ->
  mem_eq m (mem_store mb out_name [n; k; oh; ow] a) ->
  exists m',
    exec (("c", VInt c) :: out_env env n k oh ow)
      (For "r" (IntImm 0) Re [For "s" (IntImm 0) Se [update]]) m = Some m'
    /\ mem_eq m'
         (mem_store mb out_name [n; k; oh; ow]
            (fold_range (Z.to_nat R) 0
               (fun r acc =>
                  fold_range (Z.to_nat S) 0
                    (fun s acc => f32_add acc (contrib mb n k oh ow c r s))
                    acc) a)).
Proof.
  intros Hext Hoh How Hm.
  rewrite (exec_For_stable env0 _ _ _ R _ _ R_stable) by ext_solve.
  apply (accumulate_loop _
           (fun r acc =>
              fold_range (Z.to_nat S) 0
                (fun s acc => f32_add acc (contrib mb n k oh ow c r s)) acc));
    [|exact Hm].
  intros i m1 a1 Hi Hm1. unfold loop_body. cbn [loop_var_value].
  destruct (s_loop env n k oh ow c i mb m1 a1 Hext Hoh How ltac:(lia) Hm1)
    as (m2 & E & Hm2).
  exists m2. split; [|exact Hm2].
  apply exec_block_single. exact E.
Qed.

Lemma c_loop (env : Env) (n k oh ow : Z) (mb m : Mem) (a : float32) :
  extends env0 env ->
  0 <= oh < OH -> 0 <= ow < OW ->
  mem_eq m (mem_store mb out_name [n; k; oh; ow] a) ->
  exists m',
    exec (out_env env n k oh ow)
      (For "c" (IntImm 0) Cge
         [For "r" (IntImm 0) Re [For "s" (IntImm 0) Se [update]]]) m
    = Some m'
    /\ mem_eq m'
         (mem_store mb out_name [n; k; oh; ow]
            (conv_sum mb input weight Cg R S H W stride pad a n k oh ow)).
Proof.
  intros Hext Hoh How Hm.
  rewrite (exec_For_stable env0 _ _ _ Cg _ _ Cg_stable) by ext_solve.
  unfold conv_sum.
  apply (accumulate_loop _
           (fun c acc =>
              fold_range (Z.to_nat R) 0
                (fun r acc =>
                   fold_range (Z.to_nat S) 0
                     (fun s acc => f32_add acc (contrib mb n k oh ow c r s))
                     acc) acc));
    [|exact Hm].
  intros i m1 a1 Hi Hm1. unfold loop_body. cbn [loop_var_value].
  destruct (r_loop env n k oh ow i mb m1 a1 Hext Hoh How Hm1) as (m2 & E & Hm2).
  exists m2. split; [|exact Hm2].
  apply exec_block_single. exact E.
Qed.

(** The body of the output-width loop writes one element of the result:
    the initial value with every contribution added. *)
Lemma inner_block (env : Env) (n k oh ow : Z) (m : Mem) :
  extends env0 env ->
  0 <= oh < OH -> 0 <= ow < OW ->
  exists m',
    exec_block (out_env env n k oh ow)
      (depthwise_inner input weight init_func Cge Re Se He We se pe) m
    = Some m'
    /\ mem_eq m'
         (region_mem m
            (in_box4 n (n + 1) k (k + 1) oh (oh + 1) ow (ow + 1)) (val m)).
Proof.
  intros Hext Hoh How.
  change (depthwise_inner input weight init_func Cge Re Se He We se pe)
    with [Store out_name output_vars (Cast Float (init_func output_vars));
          For "c" (IntImm 0) Cge
            [For "r" (IntImm 0) Re [For "s" (IntImm 0) Se [update]]]].
  cbn [exec_block]. rewrite exec_Store.
  replace (eval_indices (out_env env n k oh ow) m output_vars)
    with (Some [n; k; oh; ow]) by reflexivity.
  cbn [opt_bind].
  rewrite (init_eval (out_env env n k oh ow) m k eq_refl). cbn [opt_bind].
  destruct (c_loop env n k oh ow m
              (mem_store m out_name [n; k; oh; ow] (init_value m k))
              (init_value m k) Hext Hoh How (mem_eq_refl _)) as (m2 & E & Hm2).
  rewrite E. cbn [opt_bind]. exists m2. split; [reflexivity|].
  eapply mem_eq_trans; [exact Hm2|].
  apply (mem_store_as_region m n k oh ow (val m)).
Qed.

Lemma ow_level (env : Env) (n k oh : Z) (m : Mem) :
  extends env0 env ->
  0 <= oh < OH ->
  exists m',
    exec (("oh", VInt oh) :: ("k", VInt k) :: ("n", VInt n) :: env)
      (For "ow" (IntImm 0) OWe
         (depthwise_inner input weight init_func Cge Re Se He We se pe)) m
    = Some m'
    /\ mem_eq m'
         (region_mem m (in_box4 n (n + 1) k (k + 1) oh (oh + 1) 0 OW)
            (val m)).
Proof.
  intros Hext Hoh.
  rewrite (exec_For_stable env0 _ _ _ OW _ _ OW_stable) by ext_solve.
  destruct (region_loop
              (loop_body
                 (("oh", VInt oh) :: ("k", VInt k) :: ("n", VInt n) :: env)
                 "ow" (VInt 0)
                 (depthwise_inner input weight init_func Cge Re Se He We se pe))
              val
              (fun i => in_box4 n (n + 1) k (k + 1) oh (oh + 1) i (i + 1))
              (fun i => in_box4 n (n + 1) k (k + 1) oh (oh + 1) 0 i)
              (Z.to_nat OW) conv_at_frame) with (m := m) as (m' & E & Hm').
  - box_solve 0.
  - intros i. box_solve i.
  - intros i m0 Hi. unfold loop_body. cbn [loop_var_value].
    apply (inner_block env n k oh i m0 Hext Hoh). lia.
  - exists m'. split; [exact E|].
    eapply mem_eq_trans; [exact Hm'|]. apply region_mem_ext. box_solve 0.
Qed.

Lemma oh_level (env : Env) (n k : Z) (m : Mem) :
  extends env0 env ->
  exists m',
    exec (("k", VInt k) :: ("n", VInt n) :: env)
      (For "oh" (IntImm 0) OHe
         [For "ow" (IntImm 0) OWe
            (depthwise_inner input weight init_func Cge Re Se He We se pe)]) m
    = Some m'
    /\ mem_eq m'
         (region_mem m (in_box4 n (n + 1) k (k + 1) 0 OH 0 OW) (val m)).
Proof.
  intros Hext.
  rewrite (exec_For_stable env0 _ _ _ OH _ _ OH_stable) by ext_solve.
  destruct (region_loop
              (loop_body (("k", VInt k) :: ("n", VInt n) :: env)
                 "oh" (VInt 0)
                 [For "ow" (IntImm 0) OWe
                    (depthwise_inner input weight init_func
                       Cge Re Se He We se pe)])
              val
              (fun i => in_box4 n (n + 1) k (k + 1) i (i + 1) 0 OW)
              (fun i => in_box4 n (n + 1) k (k + 1) 0 i 0 OW)
              (Z.to_nat OH) conv_at_frame) with (m := m) as (m' & E & Hm').
  - box_solve 0.
  - intros i. box_solve i.
  - intros i m0 Hi. unfold loop_body. cbn [loop_var_value].
    destruct (ow_level env n k i m0 Hext ltac:(lia)) as (m1 & E1 & Hm1).
    exists m1. split; [|exact Hm1]. apply exec_block_single. exact E1.
  - exists m'. split; [exact E|].
    eapply mem_eq_trans; [exact Hm'|]. apply region_mem_ext. box_solve 0.
Qed.

Lemma k_level (env : Env) (n : Z) (m : Mem) :
  extends env0 env ->
  exists m',
    exec (("n", VInt n) :: env)
      (For "k" (IntImm 0) Ke
         [For "oh" (IntImm 0) OHe
            [For "ow" (IntImm 0) OWe
               (depthwise_inner input weight init_func
                  Cge Re Se He We se pe)]]) m
    = Some m'
    /\ mem_eq m' (region_mem m (in_box4 n (n + 1) 0 K 0 OH 0 OW) (val m)).
Proof.
  intros Hext.
  rewrite (exec_For_stable env0 _ _ _ K _ _ K_stable) by ext_solve.
  destruct (region_loop
              (loop_body (("n", VInt n) :: env) "k" (VInt 0)
                 [For "oh" (IntImm 0) OHe
                    [For "ow" (IntImm 0) OWe
                       (depthwise_inner input weight init_func
                          Cge Re Se He We se pe)]])
              val
              (fun i => in_box4 n (n + 1) i (i + 1) 0 OH 0 OW)
              (fun i => in_box4 n (n + 1) 0 i 0 OH 0 OW)
              (Z.to_nat K) conv_at_frame) with (m := m) as (m' & E & Hm').
  - box_solve 0.
  - intros i. box_solve i.
  - intros i m0 Hi. unfold loop_body. cbn [loop_var_value].
    destruct (oh_level env n i m0 Hext) as (m1 & E1 & Hm1).
    exists m1. split; [|exact Hm1]. apply exec_block_single. exact E1.
  - exists m'. split; [exact E|].
    eapply mem_eq_trans; [exact Hm'|]. apply region_mem_ext. box_solve 0.
Qed.

(** The loop nest of the reduction runs to completion and leaves the
    convolution in the result buffer, every other element as it was. *)
Lemma nest_exec (env : Env) (m : Mem) :
  extends env0 env ->
  exists m',
    exec env
      (depthwise_nest input weight init_func
         Ne Ke OHe OWe Cge Re Se He We se pe) m
    = Some m'
    /\ mem_eq m' (region_mem m (in_box4 0 N 0 K 0 OH 0 OW) (val m)).
Proof.
  intros Hext. unfold depthwise_nest.
  rewrite (exec_For_stable env0 _ _ _ N _ _ N_stable) by ext_solve.
  destruct (region_loop
              (loop_body env "n" (VInt 0)
                 [For "k" (IntImm 0) Ke
                    [For "oh" (IntImm 0) OHe
                       [For "ow" (IntImm 0) OWe
                          (depthwise_inner input weight init_func
                             Cge Re Se He We se pe)]]])
              val
              (fun i => in_box4 i (i + 1) 0 K 0 OH 0 OW)
              (fun i => in_box4 0 i 0 K 0 OH 0 OW)
              (Z.to_nat N) conv_at_frame) with (m := m) as (m' & E & Hm').
  - box_solve 0.
  - intros i. box_solve i.
  - intros i m0 Hi. unfold loop_body. cbn [loop_var_value].
    destruct (k_level env i m0 Hext) as (m1 & E1 & Hm1).
    exists m1. split; [|exact Hm1]. apply exec_block_single. exact E1.
  - exists m'. split; [exact E|].
    eapply mem_eq_trans; [exact Hm'|]. apply region_mem_ext. box_solve 0.
Qed.

End NestSemantics.

Lemma bias_init_eval (bias : BufHandle) (env : Env) (m : Mem) (k : Z) :
  lookup env "k" = Some (VInt k) ->
  eval env m (Cast Float (bias_init bias output_vars))
  = Some (VFloat (bias_value bias m k)).
Proof.
  intros Hk. unfold bias_init, load, output_vars, bias_value. simpl.
  rewrite Hk. reflexivity.
Qed.

Lemma bias_value_frame (bias : BufHandle) (m m' : Mem) (k : Z) :
  bias.(buf_name) <> out_name ->
  agree_off_out m m' -> bias_value bias m k = bias_value bias m' k.
Proof. intros Hb Hag. unfold bias_value. now apply Hag. Qed.

Lemma zero_init_eval (env : Env) (m : Mem) (k : Z) :
  lookup env "k" = Some (VInt k) ->
  eval env m (Cast Float (zero_init output_vars))
  = Some (VFloat (zero_value m k)).
Proof. reflexivity. Qed.


Lemma stable_dynamic_extent (env0 : Env) (He Re pe se : Expr)
    (H R pad stride OH : Z) :
  stable_int env0 He H -> stable_int env0 Re R ->
  stable_int env0 pe pad -> stable_int env0 se stride ->
  static_extent H R pad stride = ok OH ->
  stable_int env0 (dynamic_extent He Re pe se) OH.
Proof.
  intros hH hR hp hs Hext env m Hx.
  generalize (dynamic_extent_matches_static env m H R pad stride).
  rewrite Hext. unfold ok. intros <-.
  unfold dynamic_extent. cbn [eval].
  now rewrite (hH env m Hx), (hR env m Hx), (hp env m Hx), (hs env m Hx).
Qed.

Lemma stable_Div (env0 : Env) (a b : Expr) (x y q : Z) :
  stable_int env0 a x -> stable_int env0 b y -> int_div x y = ok q ->
  stable_int env0 (Div a b) q.
Proof.
  intros ha hb Hq env m Hx. cbn [eval].
  rewrite (ha env m Hx), (hb env m Hx). cbn [opt_bind].
  unfold int_div, div32 in Hq. unfold eval_binop, int_op.
  destruct (quot_defined 32 x y); [|discriminate].
  injection Hq as <-. reflexivity.
Qed.

(** The static builder, whatever its initializer: the builder returns, and
    its loop nest (sliced or not) computes the convolution. *)
Lemma static_builder_exec (input weight : BufHandle) (init_func : InitFunc)
    (init_value : Mem -> Z -> float32) (stride pad groups : Z)
    (sh : StaticShape) (env : Env) (m : Mem) :
  legal_shape input = true ->
  static_shape input weight stride pad groups = ok sh ->
  input.(buf_name) <> out_name -> weight.(buf_name) <> out_name ->
  (forall env m k,
      lookup env "k" = Some (VInt k) ->
      eval env m (Cast Float (init_func output_vars))
      = Some (VFloat (init_value m k))) ->
  (forall m m' k, agree_off_out m m' -> init_value m k = init_value m' k) ->
  indices_fit sh.(sOH) sh.(sR) stride pad ->
  indices_fit sh.(sOW) sh.(sS) stride pad ->
  exists t,
    conv2d_depthwise_static input weight init_func stride pad groups = ok t
    /\ computes_conv env m t.(stmt) input weight init_value
         sh.(sN) sh.(sK) sh.(sOH) sh.(sOW) sh.(sCg) sh.(sR) sh.(sS)
         sh.(sH) sh.(sW) stride pad.
Proof.
  intros Hl Hsh Hin Hw Hie Hif Hfh Hfw.
  destruct (static_builder_slicing_sound input weight init_func stride pad
              groups sh Hl Hsh) as (t & Et & _ & Hexec).
  destruct (nest_exec input weight init_func env init_value
              (IntImm sh.(sN)) (IntImm sh.(sK)) (IntImm sh.(sOH))
              (IntImm sh.(sOW)) (IntImm sh.(sCg)) (IntImm sh.(sR))
              (IntImm sh.(sS)) (IntImm sh.(sH)) (IntImm sh.(sW))
              (IntImm stride) (IntImm pad)
              sh.(sN) sh.(sK) sh.(sOH) sh.(sOW) sh.(sCg) sh.(sR) sh.(sS)
              sh.(sH) sh.(sW) stride pad
              (const_int_stable _ _ _ (const_int_IntImm _))
              (const_int_stable _ _ _ (const_int_IntImm _))
              (const_int_stable _ _ _ (const_int_IntImm _))
              (const_int_stable _ _ _ (const_int_IntImm _))
              (const_int_stable _ _ _ (const_int_IntImm _))
              (const_int_stable _ _ _ (const_int_IntImm _))
              (const_int_stable _ _ _ (const_int_IntImm _))
              (const_int_stable _ _ _ (const_int_IntImm _))
              (const_int_stable _ _ _ (const_int_IntImm _))
              (const_int_stable _ _ _ (const_int_IntImm _))
              (const_int_stable _ _ _ (const_int_IntImm _))
              Hin Hw Hie Hif Hfh Hfw env m (extends_refl env))
    as (m' & E & Hm').
  exists t. split; [exact Et|]. exists m'. split; [|exact Hm'].
  rewrite Hexec. unfold root_stmt, mkLoopNest. cbn [map]. rewrite exec_Block.
  apply exec_block_single.
  rewrite static_conv_is_depthwise_reduction, depthwise_reduction_stmt.
  exact E.
Qed.

(** The dynamic builder, whatever its initializer, on operands that have
    32-bit values in the environment. *)
Lemma dynamic_builder_exec (input weight : BufHandle) (init_func : InitFunc)
    (init_value : Mem -> Z -> float32)
    (Ne Ce He We Ke CperGe Re Se se pe ge : Expr)
    (N C H W K R S stride pad groups OH OW Cg : Z) (env : Env) (m : Mem) :
  (ndim input =? 4) = true -> (ndim weight =? 4) = true ->
  stable_int env Ne N -> stable_int env Ce C ->
  stable_int env He H -> stable_int env We W ->
  stable_int env Ke K -> stable_int env Re R -> stable_int env Se S ->
  stable_int env se stride -> stable_int env pe pad ->
  stable_int env ge groups ->
  static_extent H R pad stride = ok OH ->
  static_extent W S pad stride = ok OW ->
  int_div C groups = ok Cg ->
  input.(buf_name) <> out_name -> weight.(buf_name) <> out_name ->
  (forall env m k,
      lookup env "k" = Some (VInt k) ->
      eval env m (Cast Float (init_func output_vars))
      = Some (VFloat (init_value m k))) ->
  (forall m m' k, agree_off_out m m' -> init_value m k = init_value m' k) ->
  indices_fit OH R stride pad -> indices_fit OW S stride pad ->
  exists t,
    conv2d_depthwise_dynamic input weight init_func
      Ne Ce He We Ke CperGe Re Se se pe ge = ok t
    /\ computes_conv env m t.(stmt) input weight init_value
         N K OH OW Cg R S H W stride pad.
Proof.
  intros Hni Hnw hN hC hH hW hK hR hS hs hp hg HOH HOW HCg
    Hin Hw Hie Hif Hfh Hfw.
  unfold conv2d_depthwise_dynamic, TORCH_INTERNAL_ASSERT.
  rewrite Hni, Hnw. cbn [bind ok].
  eexists. split; [reflexivity|].
  change (stmt (Reduce "conv2d_depthwise"
                  [(Ne, "n"); (Ke, "k");
                   (dynamic_extent He Re pe se, "oh");
                   (dynamic_extent We Se pe se, "ow")]
                  (fun v => init_func v)
                  (dynamic_body input weight He We se pe)
                  [(Div Ce ge, "c"); (Re, "r"); (Se, "s")]))
    with (depthwise_nest input weight init_func Ne Ke
            (dynamic_extent He Re pe se) (dynamic_extent We Se pe se)
            (Div Ce ge) Re Se He We se pe).
  apply (nest_exec input weight init_func env init_value
           Ne Ke (dynamic_extent He Re pe se) (dynamic_extent We Se pe se)
           (Div Ce ge) Re Se He We se pe
           N K OH OW Cg R S H W stride pad
           hN hK
           (stable_dynamic_extent _ _ _ _ _ _ _ _ _ _ hH hR hp hs HOH)
           (stable_dynamic_extent _ _ _ _ _ _ _ _ _ _ hW hS hp hs HOW)
           (stable_Div _ _ _ _ _ _ hC hg HCg)
           hR hS hH hW hs hp
           Hin Hw Hie Hif Hfh Hfw env m (extends_refl env)).
Qed.

Lemma conv_at_zero_bias (bias input weight : BufHandle) (m : Mem)
    (Cg R S H W stride pad : Z) (idx : list Z) :
  (forall k, m bias.(buf_name) [k] = f32_zero) ->
  conv_at m input weight (bias_value bias) Cg R S H W stride pad idx
  = conv_at m input weight zero_value Cg R S H W stride pad idx.
Proof.
  intros Hz. destruct idx as [|n [|k [|oh [|ow [|e l]]]]]; cbn [conv_at];
    try reflexivity.
  unfold bias_value, zero_value. now rewrite Hz.
Qed.

Lemma mem_eq_sym (m m' : Mem) : mem_eq m m' -> mem_eq m' m.
Proof. intros Hm b idx. now rewrite Hm. Qed.

Lemma region_mem_val_ext (mb : Mem) (D : list Z -> bool)
    (val val' : list Z -> float32) :
  (forall idx, val idx = val' idx) ->
  mem_eq (region_mem mb D val) (region_mem mb D val').
Proof. intros Hv b idx. unfold region_mem. now rewrite Hv. Qed.

Lemma bias_overload_unfold (input weight bias : BufHandle)
    (stride pad groups : Z) :
  forallb isConstant bias.(buf_dims) = true ->
  conv2d_depthwise_bias input weight bias stride pad groups
  = conv2d_depthwise_static input weight (bias_init bias) stride pad groups.
Proof.
  intros Hb. unfold conv2d_depthwise_bias, assert_dims_constant,
    TORCH_INTERNAL_ASSERT. now rewrite Hb.
Qed.

Lemma bias_dyn_overload_unfold (input weight bias : BufHandle)
    (N C H W K CperG R S stride pad groups : Expr) :
  forallb isConstant bias.(buf_dims) = true ->
  conv2d_depthwise_bias_dyn input weight bias
    N C H W K CperG R S stride pad groups
  = conv2d_depthwise_dynamic input weight (bias_init bias)
      N C H W K CperG R S stride pad groups.
Proof.
  intros Hb. unfold conv2d_depthwise_bias_dyn, assert_dims_constant,
    TORCH_INTERNAL_ASSERT. now rewrite Hb.
Qed.

(** X11. Both constant-shape overloads of [conv2d_depthwise] compute the
    depthwise convolution.  For an input of legal constant shape on which
    the static builder derives the shape [sh], with buffers other than the
    result buffer and index arithmetic that stays within a C++ [int], each
    overload returns a tensor whose loop nest, sliced or not, runs to
    completion from every memory in every environment; afterwards the
    element (n,k,oh,ow) of the result buffer, for n < N, k < K, oh < OH and
    ow < OW, holds the initial value (bias[k], or 0 without a bias) to
    which the masked products input[n,k,ih,iw] * weight[k,c,r,s] have been
    added in single precision for c, r, s ascending, and every other
    element of the memory is as it was. *)
Theorem static_overloads_compute_convolution
    (input weight bias : BufHandle) (stride pad groups : Z)
    (sh : StaticShape) (env : Env) (m : Mem) :
  legal_shape input = true ->
  static_shape input weight stride pad groups = ok sh ->
  forallb isConstant bias.(buf_dims) = true ->
  input.(buf_name) <> out_name -> weight.(buf_name) <> out_name ->
  bias.(buf_name) <> out_name ->
  indices_fit sh.(sOH) sh.(sR) stride pad ->
  indices_fit sh.(sOW) sh.(sS) stride pad ->
  (exists t,
      conv2d_depthwise_bias input weight bias stride pad groups = ok t
      /\ computes_conv env m t.(stmt) input weight (bias_value bias)
           sh.(sN) sh.(sK) sh.(sOH) sh.(sOW) sh.(sCg) sh.(sR) sh.(sS)
           sh.(sH) sh.(sW) stride pad)
  /\ (exists t,
         conv2d_depthwise_nobias input weight stride pad groups = ok t
         /\ computes_conv env m t.(stmt) input weight zero_value
              sh.(sN) sh.(sK) sh.(sOH) sh.(sOW) sh.(sCg) sh.(sR) sh.(sS)
              sh.(sH) sh.(sW) stride pad).
Proof.
  intros Hl Hsh Hb Hin Hw Hbn Hfh Hfw. split.
  - rewrite (bias_overload_unfold _ _ _ _ _ _ Hb).
    exact (static_builder_exec input weight (bias_init bias)
             (bias_value bias) stride pad groups sh env m Hl Hsh Hin Hw
             (bias_init_eval bias)
             (fun m1 m2 k => bias_value_frame bias m1 m2 k Hbn) Hfh Hfw).
  - exact (static_builder_exec input weight zero_init zero_value
             stride pad groups sh env m Hl Hsh Hin Hw
             zero_init_eval (fun _ _ _ _ => eq_refl) Hfh Hfw).
Qed.

Lemma static_overloads_compute_convolution_witness :
  (exists t,
      conv2d_depthwise_bias ex_input ex_weight ex_bias 1 1 4 = ok t
      /\ computes_conv [] ex_mem_one t.(stmt) ex_input ex_weight
           (bias_value ex_bias) 1 4 8 8 1 3 3 8 8 1 1)
  /\ (exists t,
         conv2d_depthwise_nobias ex_input ex_weight 1 1 4 = ok t
         /\ computes_conv [] ex_mem_one t.(stmt) ex_input ex_weight
              zero_value 1 4 8 8 1 3 3 8 8 1 1).
Proof.
  apply (static_overloads_compute_convolution ex_input ex_weight ex_bias
           1 1 4 ex_shape [] ex_mem_one);
    try reflexivity; try discriminate;
    intros o r Ho Hr; unfold index_fits, in_int32; cbn in *; lia.
Defined.



(** X13. Without a bias the constant-shape overload computes what the
    overload with a bias computes on a bias of zeros: under the conditions
    of X11, from a memory whose bias buffer holds 0.0 everywhere, the loop
    nests of the two tensors end in memories with the same contents. *)
Theorem nobias_is_zero_bias
    (input weight bias : BufHandle) (stride pad groups : Z)
    (sh : StaticShape) (env : Env) (m : Mem) :
  legal_shape input = true ->
  static_shape input weight stride pad groups = ok sh ->
  forallb isConstant bias.(buf_dims) = true ->
  input.(buf_name) <> out_name -> weight.(buf_name) <> out_name ->
  bias.(buf_name) <> out_name ->
  indices_fit sh.(sOH) sh.(sR) stride pad ->
  indices_fit sh.(sOW) sh.(sS) stride pad ->
  (forall k, m bias.(buf_name) [k] = f32_zero) ->
  exists t t' m1 m2,
    conv2d_depthwise_nobias input weight stride pad groups = ok t
    /\ conv2d_depthwise_bias input weight bias stride pad groups = ok t'
    /\ exec env t.(stmt) m = Some m1
    /\ exec env t'.(stmt) m = Some m2
    /\ mem_eq m1 m2.
Proof.
  intros Hl Hsh Hb Hin Hw Hbn Hfh Hfw Hz.
  destruct (static_builder_exec input weight zero_init zero_value
              stride pad groups sh env m Hl Hsh Hin Hw
              zero_init_eval (fun _ _ _ _ => eq_refl) Hfh Hfw)
    as (t & Et & m1 & E1 & Hm1).
  destruct (static_builder_exec input weight (bias_init bias)
              (bias_value bias) stride pad groups sh env m Hl Hsh Hin Hw
              (bias_init_eval bias)
              (fun ma mb k => bias_value_frame bias ma mb k Hbn) Hfh Hfw)
    as (t' & Et' & m2 & E2 & Hm2).
  exists t, t', m1, m2.
  rewrite (bias_overload_unfold _ _ _ _ _ _ Hb).
  refine (conj Et (conj Et' (conj E1 (conj E2 _)))).
  eapply mem_eq_trans; [exact Hm1|].
  eapply mem_eq_trans; [|apply mem_eq_sym; exact Hm2].
  apply region_mem_val_ext. intros idx. symmetry.
  now apply conv_at_zero_bias.
Qed.

Lemma nobias_is_zero_bias_witness :
  exists t t' m1 m2,
    conv2d_depthwise_nobias ex_input ex_weight 1 1 4 = ok t
    /\ conv2d_depthwise_bias ex_input ex_weight ex_bias 1 1 4 = ok t'
    /\ exec [] t.(stmt) ex_mem_zero_bias = Some m1
    /\ exec [] t'.(stmt) ex_mem_zero_bias = Some m2
    /\ mem_eq m1 m2.
Proof.
  apply (nobias_is_zero_bias ex_input ex_weight ex_bias 1 1 4 ex_shape
           [] ex_mem_zero_bias);
    try reflexivity; try discriminate;
    intros o r Ho Hr; unfold index_fits, in_int32; cbn in *; lia.
Defined.

(** X14. On constant shapes the two builders agree: under the conditions
    of X11 the tensor of the constant-shape overload and the tensor the
    symbolic-shape overload builds from the same sizes, given as integer
    constants, have loop nests that end, from the same memory, in memories
    with the same contents (the slicing of the first and the symbolic
    extents of the second make no difference). *)
Theorem static_and_dynamic_builders_agree
    (input weight bias : BufHandle) (stride pad groups : Z)
    (sh : StaticShape) (env : Env) (m : Mem) :
  legal_shape input = true ->
  static_shape input weight stride pad groups = ok sh ->
  forallb isConstant bias.(buf_dims) = true ->
  input.(buf_name) <> out_name -> weight.(buf_name) <> out_name ->
  bias.(buf_name) <> out_name ->
  indices_fit sh.(sOH) sh.(sR) stride pad ->
  indices_fit sh.(sOW) sh.(sS) stride pad ->
  exists ts td m1 m2,
    conv2d_depthwise_bias input weight bias stride pad groups = ok ts
    /\ conv2d_depthwise_bias_dyn input weight bias
         (IntImm sh.(sN)) (IntImm sh.(sC)) (IntImm sh.(sH)) (IntImm sh.(sW))
         (IntImm sh.(sK)) (IntImm sh.(sCperG)) (IntImm sh.(sR))
         (IntImm sh.(sS)) (IntImm stride) (IntImm pad) (IntImm groups)
       = ok td
    /\ exec env ts.(stmt) m = Some m1
    /\ exec env td.(stmt) m = Some m2
    /\ mem_eq m1 m2.
Proof.
  intros Hl Hsh Hb Hin Hw Hbn Hfh Hfw.
  destruct (static_builder_exec input weight (bias_init bias)
              (bias_value bias) stride pad groups sh env m Hl Hsh Hin Hw
              (bias_init_eval bias)
              (fun ma mb k => bias_value_frame bias ma mb k Hbn) Hfh Hfw)
    as (ts & Ets & m1 & E1 & Hm1).
  destruct (static_shape_inv_full _ _ _ _ _ _ Hsh) as (Hni & Hnw & _).
  destruct (static_shape_extents _ _ _ _ _ _ Hsh) as (HOH & HOW & HCg).
  destruct (dynamic_builder_exec input weight (bias_init bias)
              (bias_value bias)
              (IntImm sh.(sN)) (IntImm sh.(sC)) (IntImm sh.(sH))
              (IntImm sh.(sW)) (IntImm sh.(sK)) (IntImm sh.(sCperG))
              (IntImm sh.(sR)) (IntImm sh.(sS)) (IntImm stride) (IntImm pad)
              (IntImm groups)
              sh.(sN) sh.(sC) sh.(sH) sh.(sW) sh.(sK) sh.(sR) sh.(sS)
              stride pad groups sh.(sOH) sh.(sOW) sh.(sCg) env m Hni Hnw
              (const_int_stable _ _ _ (const_int_IntImm _))
              (const_int_stable _ _ _ (const_int_IntImm _))
              (const_int_stable _ _ _ (const_int_IntImm _))
              (const_int_stable _ _ _ (const_int_IntImm _))
              (const_int_stable _ _ _ (const_int_IntImm _))
              (const_int_stable _ _ _ (const_int_IntImm _))
              (const_int_stable _ _ _ (const_int_IntImm _))
              (const_int_stable _ _ _ (const_int_IntImm _))
              (const_int_stable _ _ _ (const_int_IntImm _))
              (const_int_stable _ _ _ (const_int_IntImm _))
              HOH HOW HCg Hin Hw
              (bias_init_eval bias)
              (fun ma mb k => bias_value_frame bias ma mb k Hbn) Hfh Hfw)
    as (td & Etd & m2 & E2 & Hm2).
  exists ts, td, m1, m2.
  rewrite (bias_overload_unfold _ _ _ _ _ _ Hb),
    (bias_dyn_overload_unfold _ _ _ _ _ _ _ _ _ _ _ _ _ _ Hb).
  refine (conj Ets (conj Etd (conj E1 (conj E2 _)))).
  eapply mem_eq_trans; [exact Hm1|]. apply mem_eq_sym. exact Hm2.
Qed.

Lemma static_and_dynamic_builders_agree_witness :
  exists ts td m1 m2,
    conv2d_depthwise_bias ex_input ex_weight ex_bias 1 1 4 = ok ts
    /\ conv2d_depthwise_bias_dyn ex_input ex_weight ex_bias
         (IntImm 1) (IntImm 4) (IntImm 8) (IntImm 8)
         (IntImm 4) (IntImm 1) (IntImm 3)
         (IntImm 3) (IntImm 1) (IntImm 1) (IntImm 4)
       = ok td
    /\ exec [] ts.(stmt) ex_mem_one = Some m1
    /\ exec [] td.(stmt) ex_mem_one = Some m2
    /\ mem_eq m1 m2.
Proof.
  apply (static_and_dynamic_builders_agree ex_input ex_weight ex_bias 1 1 4
           ex_shape [] ex_mem_one);
    try reflexivity; try discriminate;
    intros o r Ho Hr; unfold index_fits, in_int32; cbn in *; lia.
Defined.

(** With a 3x3 kernel, padding 1 and stride 1 or 2 the index arithmetic of
    a legal input extent stays within a C++ [int]. *)
Lemma recognised_indices_fit (H stride OH : Z) :
  0 <= H < 2 ^ 31 -> stride = 1 \/ stride = 2 ->
  static_extent H 3 1 stride = ok OH ->
  indices_fit OH 3 stride 1.
Proof.
  intros HH Hs Hext. change (2 ^ 31) with 2147483648 in HH.
  assert (Hbound : forall o, 0 <= o < OH -> o * stride <= Z.max (H - 1) 0).
  { destruct Hs as [-> | ->].
    - apply static_extent_same in Hext;
        [|change (2 ^ 31) with 2147483648; lia].
      subst OH. intros o Ho. lia.
    - destruct (Z.eq_dec H 0) as [-> | Hnz].
      + assert (E0 : static_extent 0 3 1 2 = ok 1) by reflexivity.
        rewrite E0 in Hext. injection Hext as <-. intros o Ho. lia.
      + assert (Hq : Z.quot (H - 3 + 2 * 1) 2 = (H - 1) / 2).
        { rewrite Z.quot_div_nonneg by lia. f_equal. lia. }
        pose proof (Z.mul_div_le (H - 1) 2 ltac:(lia)) as Hle.
        pose proof (Z.div_pos (H - 1) 2 ltac:(lia) ltac:(lia)) as Hpos.
        rewrite static_extent_exact in Hext.
        * rewrite Hq in Hext. injection Hext as <-. intros o Ho. lia.
        * lia.
        * unfold extent_no_overflow. rewrite Hq. unfold in_int32.
          change (2 ^ 31) with 2147483648. lia. }
  intros o r Ho Hr. specialize (Hbound o Ho).
  assert (0 <= o * stride) by (destruct Hs as [-> | ->]; lia).
  unfold index_fits, in_int32. change (2 ^ 31) with 2147483648. lia.
Qed.

(** X15. End to end, on the configurations the slicing rules are written
    for.  For operands with metadata that the oracle accepts, a legal
    input shape, stride 1 or 2, padding 1 and a group count that is not
    zero, [computeConv2d] returns a tensor whose loop nest runs to
    completion from every memory and leaves in the result buffer the
    depthwise 3x3 convolution of the input with the weight, started from
    the bias of the output channel, over N x groups x OH x OW elements,
    where N, H and W are the sizes of the input buffer and OH, OW the
    extents the static builder computes from them; the rest of the memory
    is unchanged. *)
Theorem computeConv2d_computes_convolution
    (inp w b : BufHandle) (a3 a4 a5 : ArgValue) (g s : Z)
    (outputShape : list Expr) (outputType : option ScalarType)
    (dilation : list Z) (i wi bi : TensorInfo) (env : Env) (m : Mem) :
  _pair_int a3 = ok [s; s] -> s = 1 \/ s = 2 ->
  _pair_int a4 = ok [1; 1] ->
  _pair_int a5 = ok dilation ->
  getTensorInfo inp = Some i ->
  getTensorInfo w = Some wi ->
  getTensorInfo b = Some bi ->
  conv2dIsSupported i wi bi [s; s] [1; 1] dilation (wrap32 g) = true ->
  legal_shape inp = true -> wrap32 g <> 0 ->
  inp.(buf_name) <> out_name -> w.(buf_name) <> out_name ->
  b.(buf_name) <> out_name ->
  exists t N H W OH OW,
    computeConv2d [ArgBuf inp; ArgBuf w; ArgBuf b; a3; a4; a5; ArgInt g]
      outputShape outputType = ok t
    /\ immediateAs_int (dim inp 0) = ok N
    /\ immediateAs_int (dim inp 2) = ok H
    /\ immediateAs_int (dim inp 3) = ok W
    /\ static_extent H 3 1 s = ok OH
    /\ static_extent W 3 1 s = ok OW
    /\ computes_conv env m t.(stmt) inp w (bias_value b)
         N (wrap32 g) OH OW 1 3 3 H W s 1.
Proof.
  intros H3 Hs H4 H5 Hi Hw Hb Hsup Hl Hg Hin Hwn Hbn.
  rewrite (specialized_call _ _ _ _ _ _ _ _ _ _ _ _ _ _ _ H3 H4 H5 Hi Hw Hb
             Hsup).
  assert (Es : wrap32 (at0 [s; s] 0) = s) by (destruct Hs as [-> | ->];
                                              reflexivity).
  rewrite Es. change (wrap32 (at0 [1; 1] 0)) with 1.
  destruct (specialized_operands _ _ _ _ _ _ _ _ _ _ Hi Hw Hb
              (wrap32_range g) Hsup)
    as (Hndi & Hndw & Hci & Hcw & _
        & N & H & W & HN & HC & HH & HW & HK & HG & HR & HS).
  assert (Hdef : forall X, extent_defined X 3 1 s = true).
  { intros X. apply quot_defined_spec. destruct Hs as [-> | ->]; lia. }
  destruct (static_extent_defined H 3 1 s (Hdef H)) as (OH & HOH).
  destruct (static_extent_defined W 3 1 s (Hdef W)) as (OW & HOW).
  assert (Hsh : static_shape inp w s 1 (wrap32 g)
                = ok (mkStaticShape N (wrap32 g) H W (wrap32 g) 1 3 3
                        OH OW 1)).
  { unfold static_shape.
    rewrite Hndi, Hndw, Hci, Hcw. cbn [TORCH_INTERNAL_ASSERT bind ok].
    rewrite HN, HC, HH, HW, HK, HG, HR, HS. cbn [bind ok].
    rewrite !Z.eqb_refl. cbn [andb TORCH_INTERNAL_ASSERT bind ok].
    rewrite HOH, HOW, (int_div_same _ Hg). reflexivity. }
  destruct (legal_shape_spatial _ _ _ _ _ _ Hl Hsh) as (HHr & HWr).
  cbn [sH sW] in HHr, HWr.
  destruct (static_builder_exec inp w (bias_init b) (bias_value b)
              s 1 (wrap32 g) _ env m Hl Hsh Hin Hwn
              (bias_init_eval b)
              (fun ma mb k => bias_value_frame b ma mb k Hbn)
              (recognised_indices_fit H s OH HHr Hs HOH)
              (recognised_indices_fit W s OW HWr Hs HOW))
    as (t & Et & Hconv).
  exists t, N, H, W, OH, OW.
  refine (conj Et (conj HN (conj HH (conj HW (conj HOH (conj HOW _)))))).
  exact Hconv.
Qed.

Lemma computeConv2d_computes_convolution_witness :
  exists t N H W OH OW,
    computeConv2d
      [ArgBuf ex_input; ArgBuf ex_weight; ArgBuf ex_bias;
       ArgIntList [2; 2]; ArgInt 1; ArgIntList [1; 1]; ArgInt 4]
      [] None = ok t
    /\ immediateAs_int (dim ex_input 0) = ok N
    /\ immediateAs_int (dim ex_input 2) = ok H
    /\ immediateAs_int (dim ex_input 3) = ok W
    /\ static_extent H 3 1 2 = ok OH
    /\ static_extent W 3 1 2 = ok OW
    /\ computes_conv [] ex_mem_one t.(stmt) ex_input ex_weight
         (bias_value ex_bias) N (wrap32 4) OH OW 1 3 3 H W 2 1.
Proof.
  apply (computeConv2d_computes_convolution ex_input ex_weight ex_bias
           (ArgIntList [2; 2]) (ArgInt 1) (ArgIntList [1; 1]) 4 2 [] None
           [1; 1] ex_input_info ex_weight_info ex_bias_info [] ex_mem_one);
    try reflexivity; try discriminate.
  right. reflexivity.
Defined.
